(** * Slate operations: appliers and by-key transforms

    A shallow embedding of [src/operations/apply.js] (the operation
    appliers) and of the by-key transforms, together with the part of the
    document model they call into.  JavaScript numbers that index lists or
    texts are integers here ([Z]); a thrown error is [None]. *)

From Stdlib Require Import List ZArith String Ascii Bool Arith Lia DecimalString.
From Stdlib Require Import Permutation.
Import ListNotations.
Set Warnings "-register-all".
Local Open Scope Z_scope.

Notation "'let?' x ':=' e 'in' k" :=
  (match e with Some x => k | None => None end)
  (at level 10, x pattern, e at level 100, k at level 200,
   format "'[v' 'let?'  x  ':='  e  'in' '/' k ']'").

(** ** Immutable.js lists

    The collection methods the sources call, on plain lists.  Indices are
    resolved as the library resolves them: a negative index counts from
    the end, and a range bound is clamped to the size. *)

Module Immutable.
Section ImmutableList.
Context {A : Type}.

Definition size (l : list A) : Z := Z.of_nat (List.length l).

Definition wrapIndex (l : list A) (index : Z) : Z :=
  if index <? 0 then size l + index else index.

Definition get (l : list A) (index : Z) : option A :=
  let i := wrapIndex l index in
  if (0 <=? i) && (i <? size l) then nth_error l (Z.to_nat i) else None.

Definition resolveIndex (index sz : Z) : nat :=
  Z.to_nat (if index <? 0 then Z.max 0 (sz + index) else Z.min sz index).

(** [resolveBegin]: an [undefined] bound is the front of the list. *)
Definition resolveBegin (index : option Z) (sz : Z) : nat :=
  match index with Some i => resolveIndex i sz | None => 0%nat end.

Definition take (amount : Z) (l : list A) : list A :=
  firstn (Z.to_nat amount) l.

Definition skip (amount : Z) (l : list A) : list A :=
  skipn (Z.to_nat amount) l.

Definition splice (l : list A) (index : option Z) (removeNum : nat)
    (values : list A) : list A :=
  let i := resolveBegin index (size l) in
  firstn i l ++ values ++ skipn (i + removeNum) l.

Definition insert (l : list A) (index : option Z) (value : A) : list A :=
  splice l index 0 [value].

Fixpoint skipUntil (p : A -> bool) (l : list A) : list A :=
  match l with
  | [] => []
  | x :: xs => if p x then l else skipUntil p xs
  end.

Fixpoint takeUntil (p : A -> bool) (l : list A) : list A :=
  match l with
  | [] => []
  | x :: xs => if p x then [] else x :: takeUntil p xs
  end.

Fixpoint last (l : list A) : option A :=
  match l with
  | [] => None
  | [x] => Some x
  | _ :: xs => last xs
  end.
End ImmutableList.

Section ImmutableIs.
Context {A : Type} (eqb : A -> A -> bool).

Fixpoint indexOfFrom (v : A) (l : list A) (i : Z) : Z :=
  match l with
  | [] => -1
  | x :: xs => if eqb x v then i else indexOfFrom v xs (i + 1)
  end.

Definition indexOf (l : list A) (v : A) : Z := indexOfFrom v l 0.

Fixpoint isPrefix (l l' : list A) : bool :=
  match l, l' with
  | [], _ => true
  | x :: xs, y :: ys => eqb x y && isPrefix xs ys
  | _ :: _, [] => false
  end.

(** [Immutable.is] on two lists: value equality, element by element. *)
Fixpoint equals (l l' : list A) : bool :=
  match l, l' with
  | [], [] => true
  | x :: xs, y :: ys => eqb x y && equals xs ys
  | _, _ => false
  end.
End ImmutableIs.

Section ImmutableFind.
Context {A B : Type} (f : A -> option B).

(** First defined result of [f] over the list, as [find] with a
    callback that stores what it found. *)
Fixpoint findMap (l : list A) : option B :=
  match l with
  | [] => None
  | x :: xs => match f x with Some b => Some b | None => findMap xs end
  end.
End ImmutableFind.

Section ImmutableFindIndexed.
Context {A B : Type} (f : Z -> A -> option B).

Fixpoint findMapFrom (i : Z) (l : list A) : option B :=
  match l with
  | [] => None
  | x :: xs =>
      match f i x with Some b => Some b | None => findMapFrom (i + 1) xs end
  end.
End ImmutableFindIndexed.

Section ImmutableUpdate.
Context {A : Type} (hit : A -> bool) (value : A) (inner : A -> option A).

(** Replace the first element that is [hit], or else the first one that
    [inner] can rewrite, scanning left to right. *)
Fixpoint updateFirst (l : list A) : option (list A) :=
  match l with
  | [] => None
  | x :: xs =>
      if hit x then Some (value :: xs)
      else match inner x with
           | Some x' => Some (x' :: xs)
           | None => option_map (cons x) (updateFirst xs)
           end
  end.
End ImmutableUpdate.
End Immutable.

(** ** JavaScript strings *)

Module JSString.
Definition length (s : string) : Z := Z.of_nat (String.length s).

(** [s.slice(b, e)]: negative bounds count from the end, both are
    clamped, and an empty string results when the bounds cross. *)
Definition slice (s : string) (b e : Z) : string :=
  let b' := Immutable.resolveIndex b (length s) in
  let e' := Immutable.resolveIndex e (length s) in
  substring b' (e' - b') s.

(** Truthiness of a string: only the empty string is falsy. *)
Definition truthy (s : string) : bool :=
  match s with EmptyString => false | _ => true end.
End JSString.

(** ** Keys, marks and characters *)

Definition Key := string.
Definition Path := list Z.
Definition Data := list (string * string).

(** Modelled from the spec: [utils/generate-key.js] is missing; keys are
    globally unique and never reused, so a counter that is printed in
    decimal stands for the generator. *)
Definition KeyGenerator := nat.

Definition generateKey (n : KeyGenerator) : Key * KeyGenerator :=
  (NilEmpty.string_of_uint (Nat.to_uint n), S n).

Definition key_is (a : option Key) (k : Key) : bool :=
  match a with Some k' => String.eqb k' k | None => false end.

Module Mark.
(** Modelled from the spec: [models/mark.js] is missing; a mark is an
    immutable value (type and data) compared by value. *)
Record t := make { type : string; data : Data }.

Definition data_eqb (d d' : Data) : bool :=
  Immutable.equals (fun p q => String.eqb (fst p) (fst q) && String.eqb (snd p) (snd q)) d d'.

Definition eqb (m m' : t) : bool :=
  String.eqb (type m) (type m') && data_eqb (data m) (data m').

(** Modelled from the spec: the marks of a character or of a range are a
    set of marks.  A set is given by a list of its marks, and two lists
    give the same set when each mark of one is a mark of the other. *)
Definition mem (m : t) (marks : list t) : bool := existsb (eqb m) marks.

Definition subset (marks marks' : list t) : bool :=
  forallb (fun m => mem m marks') marks.

Definition same (marks marks' : list t) : bool :=
  subset marks marks' && subset marks' marks.
End Mark.

Module Character.
(** Modelled from the spec: [models/character.js] is missing; a text
    node holds its characters, each with its own marks. *)
Record t := make { text : ascii; marks : list Mark.t }.

Definition eqb (c c' : t) : bool :=
  Ascii.eqb (text c) (text c') && Mark.same (marks c) (marks c').
End Character.

Module Range.
(** Modelled from the spec: [models/range.js] is missing; a range is a
    text fragment with a set of marks. *)
Record t := make { text : string; marks : list Mark.t }.
End Range.

(** ** Nodes *)

Module Kind.
Inductive t := document | block | inline | text.

Definition eqb (a b : t) : bool :=
  match a, b with
  | document, document | block, block | inline, inline | text, text => true
  | _, _ => false
  end.
End Kind.

Module Node.
Inductive Container := Document | Block | Inline.

(** Modelled from the spec: [models/node.js], [document.js], [block.js],
    [inline.js] and [text.js] are missing.  A node is a Document, Block
    or Inline container with an ordered sequence of children, or a Text
    leaf; every node has a key.  A Text holds its characters, and its
    ranges are the runs of equally marked characters, so they partition
    its text. *)
Inductive t :=
| Text (key : Key) (characters : list Character.t)
| Branch (c : Container) (key : Key) (type : string) (isVoid : bool)
    (data : Data) (nodes : list t).

(** Modelled from the spec: the accessors [node.key], [node.kind],
    [node.nodes], [node.text] and [node.length] of the missing node
    models. *)
Definition key (n : t) : Key :=
  match n with Text k _ => k | Branch _ k _ _ _ _ => k end.

Definition kind (n : t) : Kind.t :=
  match n with
  | Text _ _ => Kind.text
  | Branch Document _ _ _ _ _ => Kind.document
  | Branch Block _ _ _ _ _ => Kind.block
  | Branch Inline _ _ _ _ _ => Kind.inline
  end.

(** [node.nodes]; [undefined] on a Text. *)
Definition nodes (n : t) : option (list t) :=
  match n with Text _ _ => None | Branch _ _ _ _ _ ns => Some ns end.

Definition set_nodes (n : t) (ns : list t) : t :=
  match n with
  | Text _ _ => n
  | Branch c k ty v d _ => Branch c k ty v d ns
  end.

Definition characters_text (cs : list Character.t) : string :=
  string_of_list_ascii (map Character.text cs).

Fixpoint text (n : t) : string :=
  match n with
  | Text _ cs => characters_text cs
  | Branch _ _ _ _ _ ns => String.concat EmptyString (map text ns)
  end.

Definition length (n : t) : Z := JSString.length (text n).

Definition container_eqb (a b : Container) : bool :=
  match a, b with
  | Document, Document | Block, Block | Inline, Inline => true
  | _, _ => false
  end.

(** Modelled from the spec: nodes are immutable values, so
    [Immutable.is] (which [indexOf] uses) and [==] on two nodes compare
    them field by field. *)
Fixpoint eqb (a b : t) : bool :=
  match a, b with
  | Text k cs, Text k' cs' =>
      String.eqb k k' && Immutable.equals Character.eqb cs cs'
  | Branch c k ty v d ns, Branch c' k' ty' v' d' ns' =>
      container_eqb c c' && String.eqb k k' && String.eqb ty ty'
      && Bool.eqb v v' && Mark.data_eqb d d' && Immutable.equals eqb ns ns'
  | _, _ => false
  end.

(** *** Lookups by path *)

(** Modelled from the spec: path-to-node resolution ([assertPath] of the
    missing [models/node.js]); the empty path is the node itself and a
    path that does not resolve is an error. *)
Fixpoint getDescendantAtPath (n : t) (path : Path) : option t :=
  match path with
  | [] => Some n
  | index :: rest =>
      let? ns := nodes n in
      let? child := Immutable.get ns index in
      getDescendantAtPath child rest
  end.

Definition assertPath := getDescendantAtPath.

(** *** Lookups by key *)

(** Modelled from the spec: all keys of the tree, the root first. *)
Fixpoint getKeys (n : t) : list Key :=
  match n with
  | Text k _ => [k]
  | Branch _ k _ _ _ ns => k :: flat_map getKeys ns
  end.

(** Modelled from the spec: key-to-node resolution ([getDescendant],
    [getNode], [hasNode] of the missing [models/node.js]): the first node
    with the key, in document order; [getNode] also finds the node
    itself. *)
Fixpoint getDescendant (n : t) (k : Key) : option t :=
  match n with
  | Text _ _ => None
  | Branch _ _ _ _ _ ns =>
      Immutable.findMap
        (fun c => if String.eqb (key c) k then Some c else getDescendant c k)
        ns
  end.

Definition getNode (n : t) (k : Key) : option t :=
  if String.eqb (key n) k then Some n else getDescendant n k.

Definition hasNode (n : t) (k : option Key) : bool :=
  match k with
  | Some k => match getNode n k with Some _ => true | None => false end
  | None => false
  end.

(** Modelled from the spec: parent lookup; a node that has a child with
    the key, looked for from the root down. *)
Fixpoint getParent (n : t) (k : Key) : option t :=
  match n with
  | Text _ _ => None
  | Branch _ _ _ _ _ ns =>
      if existsb (fun c => String.eqb (key c) k) ns then Some n
      else Immutable.findMap (fun c => getParent c k) ns
  end.

(** Modelled from the spec: ancestor lookup; the ancestors of the node
    with key [k], from the root down to its parent. *)
Fixpoint getAncestors (n : t) (k : Key) : option (list t) :=
  if String.eqb (key n) k then Some []
  else
    match n with
    | Text _ _ => None
    | Branch _ _ _ _ _ ns =>
        if existsb (fun c => String.eqb (key c) k) ns then Some [n]
        else
          option_map (cons n)
            (Immutable.findMap
               (fun c => match c with
                         | Text _ _ => None
                         | _ => getAncestors c k
                         end) ns)
    end.

(** Modelled from the spec: key-to-path resolution ([getPath] of the
    missing [models/node.js]); the path of the node that [getNode]
    finds. *)
Fixpoint getDescendantPath (n : t) (k : Key) : option Path :=
  match n with
  | Text _ _ => None
  | Branch _ _ _ _ _ ns =>
      Immutable.findMapFrom
        (fun i c =>
           if String.eqb (key c) k then Some [i]
           else option_map (cons i) (getDescendantPath c k))
        0 ns
  end.

Definition getPath (n : t) (k : Key) : option Path :=
  if String.eqb (key n) k then Some [] else getDescendantPath n k.

(** Modelled from the spec: the closest ancestor of kind [block]. *)
Definition getClosestBlock (n : t) (k : Key) : option t :=
  let? ancestors := getAncestors n k in
  Immutable.last
    (filter (fun a => Kind.eqb (kind a) Kind.block) (tl ancestors)).

(** *** Text nodes in document order *)

(** Modelled from the spec: the text nodes in document order, and the
    previous/next text-node-in-document-order lookups of the missing
    [models/node.js]. *)
Fixpoint getTexts (n : t) : list t :=
  match n with
  | Text _ _ => [n]
  | Branch _ _ _ _ _ ns => flat_map getTexts ns
  end.

Definition getPreviousText (n : t) (k : Key) : option t :=
  Immutable.last
    (Immutable.takeUntil (fun x => String.eqb (key x) k) (getTexts n)).

Definition getNextText (n : t) (k : Key) : option t :=
  Immutable.get
    (Immutable.skipUntil (fun x => String.eqb (key x) k) (getTexts n)) 1.

(** *** Structural edits *)

(** Modelled from the spec: delete the child at [index]. *)
Definition removeNode (n : t) (index : option Z) : option t :=
  let? ns := nodes n in
  Some (set_nodes n (Immutable.splice ns index 1 [])).

(** Modelled from the spec: insert [node] at [index] among the
    children.  The node goes in as it is, under the keys it has; a key
    that it shares with the parent is not replaced here. *)
Definition insertNode (n : t) (index : option Z) (node : t) : option t :=
  let? ns := nodes n in
  Some (set_nodes n (Immutable.insert ns index node)).

(** Modelled from the spec: the two halves of a node split at [position]
    (character offset for a Text, child index for a container); the left
    half keeps the key, the right half gets the key [k]. *)
Definition halves (child : t) (position : Z) (k : Key) : t * t :=
  match child with
  | Text key cs =>
      (Text key (Immutable.take position cs),
       Text k (Immutable.skip position cs))
  | Branch c key ty v d cns =>
      (Branch c key ty v d (Immutable.take position cns),
       Branch c k ty v d (Immutable.skip position cns))
  end.

(** Modelled from the spec: split the child at [index] in two siblings
    at [position]; the right half gets a newly generated key. *)
Definition splitNode (n : t) (index position : Z) (g : KeyGenerator)
    : option (t * KeyGenerator) :=
  let? ns := nodes n in
  let? child := Immutable.get ns index in
  let (k, g') := generateKey g in
  let (one, two) := halves child position k in
  let? n := removeNode n (Some index) in
  let? n := insertNode n (Some index) two in
  let? n := insertNode n (Some index) one in
  Some (n, g').

(** Modelled from the spec: merge the child at [second] into the child
    at [first]; two Texts concatenate their characters, two containers
    of one kind their children, and any other pair is an error. *)
Definition joinNode (n : t) (first second : Z) : option t :=
  let? ns := nodes n in
  let? one := Immutable.get ns first in
  let? two := Immutable.get ns second in
  let? one :=
    match one, two with
    | Text key cs, Text _ cs' => Some (Text key (cs ++ cs'))
    | Branch c key ty v d ns1, Branch c' _ _ _ _ ns2 =>
        if container_eqb c c' then Some (Branch c key ty v d (ns1 ++ ns2))
        else None
    | _, _ => None
    end in
  let? n := removeNode n (Some second) in
  let? n := removeNode n (Some first) in
  insertNode n (Some first) one.

(** Modelled from the spec: the node is swapped into the tree by key;
    an absent key is an error. *)
Fixpoint updateDescendant (n : t) (node : t) : option t :=
  match n with
  | Text _ _ => None
  | Branch c k ty v d ns =>
      option_map (Branch c k ty v d)
        (Immutable.updateFirst
           (fun x => String.eqb (key x) (key node)) node
           (fun x => updateDescendant x node) ns)
  end.

(** *** Text edits *)

(** Modelled from the spec: the marks already present at an offset, those
    of the character in front of it. *)
Definition getMarksAtIndex (cs : list Character.t) (index : Z)
    : list Mark.t :=
  if index =? 0 then []
  else match Immutable.get cs (index - 1) with
       | Some c => Character.marks c
       | None => []
       end.

(** Modelled from the spec: splice [text] in at [offset], tagged with
    [marks], or with the marks already there when they are omitted. *)
Definition insertText (n : t) (offset : Z) (text : string)
    (marks : option (list Mark.t)) : option t :=
  match n with
  | Text k cs =>
      let marks :=
        match marks with Some m => m | None => getMarksAtIndex cs offset end in
      let chars :=
        map (fun a => Character.make a marks) (list_ascii_of_string text) in
      Some (Text k (Immutable.splice cs (Some offset) 0 chars))
  | Branch _ _ _ _ _ _ => None
  end.

(** Modelled from the spec: drop the characters at the positions
    [index <= i < index + length]. *)
Definition removeText (n : t) (index length : Z) : option t :=
  match n with
  | Text k cs =>
      Some (Text k (Immutable.take index cs
                    ++ Immutable.skip (Z.max index (index + length)) cs))
  | Branch _ _ _ _ _ _ => None
  end.

(** Modelled from the spec: the ranges of a text ([getRanges] of the
    missing [models/text.js]).  The runs of characters with the same set
    of marks, each run with the marks of its first character; they
    partition the text. *)
Fixpoint runs (cs : list Character.t) : list Range.t :=
  match cs with
  | [] => []
  | c :: cs' =>
      match runs cs' with
      | r :: rs =>
          if Mark.same (Character.marks c) (Range.marks r)
          then Range.make (String (Character.text c) (Range.text r))
                 (Character.marks c) :: rs
          else Range.make (String (Character.text c) EmptyString)
                 (Character.marks c) :: r :: rs
      | [] =>
          [Range.make (String (Character.text c) EmptyString)
             (Character.marks c)]
      end
  end.

(** A text without characters has one range, which is empty. *)
Definition characters_ranges (cs : list Character.t) : list Range.t :=
  match cs with
  | [] => [Range.make EmptyString []]
  | _ :: _ => runs cs
  end.

Definition getRanges (n : t) : option (list Range.t) :=
  match n with
  | Text _ cs => Some (characters_ranges cs)
  | Branch _ _ _ _ _ _ => None
  end.

(** *** Properties of [set_node] *)

Definition Node_t := t.

Module Properties.
(** [properties.nodes] is a list object, which [set_node] compares with
    the list of the node by reference: it is that very list, or it is
    another list, whatever it holds. *)
Inductive Nodes :=
| own
| other (nodes : list Node_t).

(** The fields a caller may pass; an absent field is [None]. *)
Record t := make {
  key : option Key;
  nodes : option Nodes;
  type : option string;
  isVoid : option bool;
  data : option Data
}.

Definition delete_nodes (p : t) : t :=
  make (key p) None (type p) (isVoid p) (data p).

Definition delete_key (p : t) : t :=
  make None (nodes p) (type p) (isVoid p) (data p).
End Properties.

Definition or_else {A : Type} (o : option A) (d : A) : A :=
  match o with Some a => a | None => d end.

Definition given {A : Type} (o : option A) : bool :=
  match o with Some _ => true | None => false end.

(** The list that [properties.nodes] stands for on a node with the
    children [ns]. *)
Definition nodes_of (p : Properties.t) (ns : list t) : list t :=
  match Properties.nodes p with
  | Some (Properties.other ns') => ns'
  | Some Properties.own | None => ns
  end.

(** Modelled from the spec: shallow-merge the given fields onto the
    node.  The nodes are records with a fixed set of fields: a Text has
    a key and characters, a Document a key, data and nodes, a Block and
    an Inline a key, a type, a void flag, data and nodes; setting a field
    that the record does not have is an error. *)
Definition merge (n : t) (p : Properties.t) : option t :=
  match n with
  | Text k cs =>
      if given (Properties.type p) || given (Properties.isVoid p)
         || given (Properties.data p) || given (Properties.nodes p)
      then None
      else Some (Text (or_else (Properties.key p) k) cs)
  | Branch Document k ty v d ns =>
      if given (Properties.type p) || given (Properties.isVoid p)
      then None
      else Some (Branch Document
                   (or_else (Properties.key p) k) ty v
                   (or_else (Properties.data p) d)
                   (nodes_of p ns))
  | Branch c k ty v d ns =>
      Some (Branch c
              (or_else (Properties.key p) k)
              (or_else (Properties.type p) ty)
              (or_else (Properties.isVoid p) v)
              (or_else (Properties.data p) d)
              (nodes_of p ns))
  end.
(** *** Children and siblings *)

(** Modelled from the spec: [getChild] of the missing [models/node.js],
    the first child with the key; [undefined] when there is none. *)
Definition getChild (n : t) (k : Key) : option t :=
  match n with
  | Text _ _ => None
  | Branch _ _ _ _ _ ns => find (fun c => String.eqb (key c) k) ns
  end.

(** Modelled from the spec: [getPreviousSibling] of the missing
    [models/node.js], the child in front of the one with the key under
    their parent.  The outer [None] is the error of a key without a
    parent, the inner one the [undefined] of a first child. *)
Definition getPreviousSibling (n : t) (k : Key) : option (option t) :=
  let? parent := getParent n k in
  let? ns := nodes parent in
  Some (Immutable.last
          (Immutable.takeUntil (fun c => String.eqb (key c) k) ns)).

(** Modelled from the spec: [getCommonAncestor] of the missing
    [models/node.js]; the root when one of the keys is the root's, else
    the closest proper ancestor of [two] that is also one of [one]. *)
Definition getCommonAncestor (n : t) (one two : Key) : option t :=
  if String.eqb one (key n) then Some n
  else if String.eqb two (key n) then Some n
  else
    let? above1 := getAncestors n one in
    let? above2 := getAncestors n two in
    find (fun a => existsb (eqb a) above1) (rev above2).
End Node.

(** ** Selection and state *)

Module Selection.
(** Modelled from the spec: [models/selection.js] is missing.  A
    selection is an anchor and a focus point, each a key and an offset;
    it is set when both keys are.  Start and end are derived: the
    direction flag says whether the focus comes before the anchor, and
    it may be unknown ([null], read as forward).  A move replaces the
    named point, or shifts its offset, and settles the flag anew: by the
    two offsets when the points are then on one node, kept when the
    point stays on its node, and unknown otherwise. *)
Record t := make {
  anchorKey : option Key;
  anchorOffset : Z;
  focusKey : option Key;
  focusOffset : Z;
  isBackward : option bool;
  isFocused : bool
}.

Definition isSet (s : t) : bool :=
  match anchorKey s, focusKey s with
  | Some _, Some _ => true
  | _, _ => false
  end.

(** The flag as a condition: [null] counts as [false]. *)
Definition backward (s : t) : bool :=
  match isBackward s with Some b => b | None => false end.

Definition startKey (s : t) : option Key :=
  if backward s then focusKey s else anchorKey s.
Definition startOffset (s : t) : Z :=
  if backward s then focusOffset s else anchorOffset s.
Definition endKey (s : t) : option Key :=
  if backward s then anchorKey s else focusKey s.
Definition endOffset (s : t) : Z :=
  if backward s then anchorOffset s else focusOffset s.

(** [a == b] on two keys that may be [null]. *)
Definition same_key (a b : option Key) : bool :=
  match a, b with
  | Some k, Some k' => String.eqb k k'
  | None, None => true
  | _, _ => false
  end.

Definition moveAnchorTo (s : t) (key : Key) (offset : Z) : t :=
  make (Some key) offset (focusKey s) (focusOffset s)
    (if key_is (focusKey s) key then Some (offset >? focusOffset s)
     else if key_is (anchorKey s) key then isBackward s
     else None)
    (isFocused s).

Definition moveFocusTo (s : t) (key : Key) (offset : Z) : t :=
  make (anchorKey s) (anchorOffset s) (Some key) offset
    (if key_is (anchorKey s) key then Some (anchorOffset s >? offset)
     else if key_is (focusKey s) key then isBackward s
     else None)
    (isFocused s).

Definition moveAnchor (s : t) (n : Z) : t :=
  let anchorOffset := anchorOffset s + n in
  make (anchorKey s) anchorOffset (focusKey s) (focusOffset s)
    (if same_key (anchorKey s) (focusKey s)
     then Some (anchorOffset >? focusOffset s)
     else isBackward s)
    (isFocused s).

Definition moveFocus (s : t) (n : Z) : t :=
  let focusOffset := focusOffset s + n in
  make (anchorKey s) (anchorOffset s) (focusKey s) focusOffset
    (if same_key (focusKey s) (anchorKey s)
     then Some (anchorOffset s >? focusOffset)
     else isBackward s)
    (isFocused s).

Definition moveStartTo (s : t) (key : Key) (offset : Z) : t :=
  if backward s then moveFocusTo s key offset
  else moveAnchorTo s key offset.

Definition moveEndTo (s : t) (key : Key) (offset : Z) : t :=
  if backward s then moveAnchorTo s key offset
  else moveFocusTo s key offset.

Definition deselect (s : t) : t := make None 0 None 0 (Some false) false.

(** The endpoints as (key, offset) pairs. *)
Definition Point : Type := option Key * Z.
Definition anchor (s : t) : Point := (anchorKey s, anchorOffset s).
Definition focus (s : t) : Point := (focusKey s, focusOffset s).
Definition start (s : t) : Point := (startKey s, startOffset s).
Definition end_ (s : t) : Point := (endKey s, endOffset s).
End Selection.

Module State.
Record t := make { document : Node.t; selection : Selection.t }.

Definition set_document (s : t) (d : Node.t) : t := make d (selection s).
Definition set_selection (s : t) (sel : Selection.t) : t :=
  make (document s) sel.
End State.

(** ** Operations *)

Module PathOps.
(** [path[path.length - 1]]; [undefined] on the empty path. *)
Definition last (path : Path) : option Z := Immutable.last path.

(** [path.slice(0, -1)] *)
Definition init (path : Path) : Path := removelast path.

(** [a.every((x, i) => x === b[i])] *)
Definition every_equal (a b : Path) : bool := Immutable.isPrefix Z.eqb a b.

Definition length (path : Path) : Z := Immutable.size path.

(** [path[i]--] *)
Fixpoint decrement (path : Path) (i : nat) : Path :=
  match path, i with
  | [], _ => []
  | x :: xs, O => (x - 1) :: xs
  | x :: xs, S i' => x :: decrement xs i'
  end.

(** [a < b] where either side may be [undefined]. *)
Definition lt (a b : option Z) : bool :=
  match a, b with
  | Some x, Some y => x <? y
  | _, _ => false
  end.
End PathOps.

Module Operation.
Inductive t :=
| insert_text (path : Path) (offset : Z) (text : string)
    (marks : option (list Mark.t))
| join_node (path : Path)
| move_node (path newPath : Path)
| remove_node (path : Path)
| remove_text (path : Path) (offset : Z) (text : string)
| set_node (path : Path) (properties : Node.Properties.t)
| split_node (path : Path) (position : Z).
End Operation.

(** ** The appliers of [src/operations/apply.js] *)

Module APPLIERS.

Definition insert_text (state : State.t) (path : Path) (offset : Z)
    (text : string) (marks : option (list Mark.t)) : option State.t :=
  let document := State.document state in
  let selection := State.selection state in
  let anchorKey := Selection.anchorKey selection in
  let focusKey := Selection.focusKey selection in
  let anchorOffset := Selection.anchorOffset selection in
  let focusOffset := Selection.focusOffset selection in
  let? node := Node.assertPath document path in
  (* Update the document *)
  let? node := Node.insertText node offset text marks in
  let? document := Node.updateDescendant document node in
  (* Update the selection *)
  let selection :=
    if key_is anchorKey (Node.key node) && (anchorOffset >=? offset)
    then Selection.moveAnchor selection (JSString.length text)
    else selection in
  let selection :=
    if key_is focusKey (Node.key node) && (focusOffset >=? offset)
    then Selection.moveFocus selection (JSString.length text)
    else selection in
  Some (State.set_selection (State.set_document state document) selection).

Definition join_node (state : State.t) (path : Path) : option State.t :=
  let? lastIndex := PathOps.last path in
  let withPath := PathOps.init path ++ [lastIndex - 1] in
  let document := State.document state in
  let selection := State.selection state in
  let? one := Node.assertPath document withPath in
  let? two := Node.assertPath document path in
  let? parent := Node.getParent document (Node.key one) in
  let? siblings := Node.nodes parent in
  let oneIndex := Immutable.indexOf Node.eqb siblings one in
  let twoIndex := Immutable.indexOf Node.eqb siblings two in
  (* Perform the join in the document. *)
  let? parent := Node.joinNode parent oneIndex twoIndex in
  let? document :=
    if String.eqb (Node.key parent) (Node.key document) then Some parent
    else Node.updateDescendant document parent in
  (* If the nodes are text nodes and the selection is inside the second
     node update it to refer to the first node instead. *)
  let selection :=
    if Kind.eqb (Node.kind one) Kind.text then
      let anchorKey := Selection.anchorKey selection in
      let anchorOffset := Selection.anchorOffset selection in
      let focusKey := Selection.focusKey selection in
      let focusOffset := Selection.focusOffset selection in
      let selection :=
        if key_is anchorKey (Node.key two)
        then Selection.moveAnchorTo selection (Node.key one)
               (Node.length one + anchorOffset)
        else selection in
      if key_is focusKey (Node.key two)
      then Selection.moveFocusTo selection (Node.key one)
             (Node.length one + focusOffset)
      else selection
    else selection in
  Some (State.set_selection (State.set_document state document) selection).

Definition move_node (state : State.t) (path newPath : Path)
    : option State.t :=
  let newIndex := PathOps.last newPath in
  let newParentPath := PathOps.init newPath in
  let oldParentPath := PathOps.init path in
  let oldIndex := PathOps.last path in
  let document := State.document state in
  let? node := Node.assertPath document path in
  (* Remove the node from its current parent. *)
  let? parent := Node.getParent document (Node.key node) in
  let? parent := Node.removeNode parent oldIndex in
  let? document :=
    if Kind.eqb (Node.kind parent) Kind.document then Some parent
    else Node.updateDescendant document parent in
  (* Find the new target... *)
  let? target :=
    if PathOps.every_equal oldParentPath newParentPath
       && (PathOps.length oldParentPath =? PathOps.length newParentPath)
    then Some parent
    else if PathOps.every_equal oldParentPath newParentPath
            && PathOps.lt oldIndex
                 (nth_error newParentPath (List.length oldParentPath))
    then Node.assertPath document
           (PathOps.decrement newParentPath (List.length oldParentPath))
    else Node.assertPath document newParentPath in
  (* Insert the new node to its new parent. *)
  let? target := Node.insertNode target newIndex node in
  let? document :=
    if Kind.eqb (Node.kind target) Kind.document then Some target
    else Node.updateDescendant document target in
  Some (State.set_document state document).

Definition remove_node (state : State.t) (path : Path) : option State.t :=
  let document := State.document state in
  let selection := State.selection state in
  let startKey := Selection.startKey selection in
  let endKey := Selection.endKey selection in
  let? node := Node.assertPath document path in
  (* If the selection is set, check to see if it needs to be updated. *)
  let? selection :=
    if Selection.isSet selection then
      let hasStartNode := Node.hasNode node startKey in
      let hasEndNode := Node.hasNode node endKey in
      let? selection :=
        if hasStartNode then
          let? startKey := startKey in
          let prev := Node.getPreviousText document startKey in
          let next := Node.getNextText document startKey in
          match prev, next with
          | Some prev, _ =>
              Some (Selection.moveStartTo selection (Node.key prev)
                      (Node.length prev))
          | None, Some next =>
              Some (Selection.moveStartTo selection (Node.key next) 0)
          | None, None => Some (Selection.deselect selection)
          end
        else Some selection in
      if hasEndNode then
        let? endKey := endKey in
        let prev := Node.getPreviousText document endKey in
        let next := Node.getNextText document endKey in
        match prev, next with
        | Some prev, _ =>
            Some (Selection.moveEndTo selection (Node.key prev)
                    (Node.length prev))
        | None, Some next =>
            Some (Selection.moveEndTo selection (Node.key next) 0)
        | None, None => Some (Selection.deselect selection)
        end
      else Some selection
    else Some selection in
  (* Remove the node from the document. *)
  let? parent := Node.getParent document (Node.key node) in
  let? siblings := Node.nodes parent in
  let index := Immutable.indexOf Node.eqb siblings node in
  let isParent := Node.eqb document parent in
  let? parent := Node.removeNode parent (Some index) in
  let? document :=
    if isParent then Some parent
    else Node.updateDescendant document parent in
  Some (State.set_selection (State.set_document state document) selection).

Definition remove_text (state : State.t) (path : Path) (offset : Z)
    (text : string) : option State.t :=
  let length := JSString.length text in
  let rangeOffset := offset + length in
  let document := State.document state in
  let selection := State.selection state in
  let anchorKey := Selection.anchorKey selection in
  let focusKey := Selection.focusKey selection in
  let anchorOffset := Selection.anchorOffset selection in
  let focusOffset := Selection.focusOffset selection in
  let? node := Node.assertPath document path in
  (* Update the selection *)
  let selection :=
    if key_is anchorKey (Node.key node) && (anchorOffset >=? rangeOffset)
    then Selection.moveAnchor selection (- length)
    else selection in
  let selection :=
    if key_is focusKey (Node.key node) && (focusOffset >=? rangeOffset)
    then Selection.moveFocus selection (- length)
    else selection in
  let? node := Node.removeText node offset length in
  let? document := Node.updateDescendant document node in
  Some (State.set_selection (State.set_document state document) selection).

Definition warn_nodes : string :=
  "Updating a Node's `nodes` property via `setNode()` is not allowed.".
Definition warn_key : string :=
  "Updating a Node's `key` property via `setNode()` is not allowed.".

(** The first guard of [set_node]: a child list that is not the node's
    own list is deleted from the properties, with a warning.  A Text
    has no list of its own. *)
Definition guardNodes (node : Node.t) (properties : Node.Properties.t)
    : Node.Properties.t * list string :=
  match Node.Properties.nodes properties with
  | Some ns =>
      if negb (match ns, Node.nodes node with
               | Node.Properties.own, Some _ => true
               | _, _ => false
               end)
      then (Node.Properties.delete_nodes properties, [warn_nodes])
      else (properties, [])
  | None => (properties, [])
  end.

(** The second guard: a key that is truthy and not the node's own is
    deleted from the properties, with a warning. *)
Definition guardKey (node : Node.t) (properties : Node.Properties.t)
    : Node.Properties.t * list string :=
  match Node.Properties.key properties with
  | Some k =>
      if JSString.truthy k && negb (String.eqb k (Node.key node))
      then (Node.Properties.delete_key properties, [warn_key])
      else (properties, [])
  | None => (properties, [])
  end.

(** The second component lists the warnings sent to the console. *)
Definition set_node (state : State.t) (path : Path)
    (properties : Node.Properties.t) : option (State.t * list string) :=
  let document := State.document state in
  let? node := Node.assertPath document path in
  (* Deprecate the ability to overwite a node's children. *)
  let (properties, warned) := guardNodes node properties in
  (* Deprecate the ability to change a node's key. *)
  let (properties, warned') := guardKey node properties in
  let? node := Node.merge node properties in
  let? document :=
    if Kind.eqb (Node.kind node) Kind.document then Some node
    else Node.updateDescendant document node in
  Some (State.set_document state document, warned ++ warned').

Definition split_node (g : KeyGenerator) (state : State.t) (path : Path)
    (position : Z) : option (State.t * KeyGenerator) :=
  let document := State.document state in
  let selection := State.selection state in
  (* Calculate a few things... *)
  let? node := Node.assertPath document path in
  let? parent := Node.getParent document (Node.key node) in
  let? siblings := Node.nodes parent in
  let index := Immutable.indexOf Node.eqb siblings node in
  let isParent := Node.eqb parent document in
  (* Split the node by its parent. *)
  let? (parent, g) := Node.splitNode parent index position g in
  let? document :=
    if isParent then Some parent
    else Node.updateDescendant document parent in
  (* Determine whether we need to update the selection... *)
  let startKey := Selection.startKey selection in
  let endKey := Selection.endKey selection in
  let startOffset := Selection.startOffset selection in
  let endOffset := Selection.endOffset selection in
  let next := Node.getNextText document (Node.key node) in
  (* If the start point is after or equal to the split, update it. *)
  let? selection :=
    if key_is startKey (Node.key node) && (position <=? startOffset)
    then let? next := next in
         Some (Selection.moveStartTo selection (Node.key next)
                 (startOffset - position))
    else Some selection in
  (* If the end point is after or equal to the split, update it. *)
  let? selection :=
    if key_is endKey (Node.key node) && (position <=? endOffset)
    then let? next := next in
         Some (Selection.moveEndTo selection (Node.key next)
                 (endOffset - position))
    else Some selection in
  (* Return the updated state. *)
  Some (State.set_selection (State.set_document state document) selection, g).

Definition insert_node (state : State.t) (path : Path) (node : Node.t)
    : option State.t :=
  let index := PathOps.last path in
  let rest := PathOps.init path in
  let document := State.document state in
  let? parent := Node.assertPath document rest in
  let isParent := Node.eqb document parent in
  let? parent := Node.insertNode parent index node in
  let? document :=
    if isParent then Some parent
    else Node.updateDescendant document parent in
  Some (State.set_document state document).

End APPLIERS.

Module Apply.
(** Apply an [operation] to a [state].  The operation type is closed, so
    the unknown-type error of the source has no counterpart here. *)
Definition applyOperation (g : KeyGenerator) (state : State.t)
    (operation : Operation.t) : option (State.t * KeyGenerator) :=
  match operation with
  | Operation.insert_text path offset text marks =>
      let? s := APPLIERS.insert_text state path offset text marks in Some (s, g)
  | Operation.join_node path =>
      let? s := APPLIERS.join_node state path in Some (s, g)
  | Operation.move_node path newPath =>
      let? s := APPLIERS.move_node state path newPath in Some (s, g)
  | Operation.remove_node path =>
      let? s := APPLIERS.remove_node state path in Some (s, g)
  | Operation.remove_text path offset text =>
      let? s := APPLIERS.remove_text state path offset text in Some (s, g)
  | Operation.set_node path properties =>
      let? r := APPLIERS.set_node state path properties in Some (fst r, g)
  | Operation.split_node path position =>
      APPLIERS.split_node g state path position
  end.
End Apply.

(** ** The by-key transforms *)

Module Transforms.

(** What a transform did, in order: the operations it applied and the
    normalizations it asked for. *)
Inductive Event :=
| Applied (operation : Operation.t)
| Normalized (key : Key).

Record Transform := make {
  state : State.t;
  keys : KeyGenerator;
  trace : list Event
}.

(** [options.normalize]; absent means [true]. *)
Record Options := options { normalize : option bool }.

Definition normalize_of (o : Options) : bool :=
  match normalize o with Some b => b | None => true end.

Fixpoint forEach {A S : Type} (f : S -> A -> option S) (l : list A)
    (s : S) : option S :=
  match l with
  | [] => Some s
  | x :: xs => let? s' := f s x in forEach f xs s'
  end.

Section WithNormalizer.

(** The normalizer and its schema are external collaborators: any
    function of the key and the current state, which may fail. *)
Variable normalizer :
  Key -> State.t * KeyGenerator -> option (State.t * KeyGenerator).

Definition normalizeNodeByKey (transform : Transform) (key : Key)
    : option Transform :=
  let? (s, g) := normalizer key (state transform, keys transform) in
  Some (make s g (trace transform ++ [Normalized key])).

(** Modelled from the spec: [transform.applyOperation] is missing; it
    runs the applier on the current state and records the operation. *)
Definition applyOperation (transform : Transform) (operation : Operation.t)
    : option Transform :=
  let? (s, g) :=
    Apply.applyOperation (keys transform) (state transform) operation in
  Some (make s g (trace transform ++ [Applied operation])).

Definition removalsFrom (path : Path) (text : string) (bx by_ : Z)
    : Z -> list Range.t -> list Operation.t :=
  fix go (o : Z) (ranges : list Range.t) : list Operation.t :=
    match ranges with
    | [] => []
    | range :: rest =>
        let ax := o in
        let ay := ax + JSString.length (Range.text range) in
        let o := o + JSString.length (Range.text range) in
        (* If the range doesn't overlap with the removal, continue on. *)
        if (ay <? bx) || (by_ <? ax) then go o rest
        else
          (* Otherwise, determine which offset and characters overlap. *)
          let start := Z.max ax bx in
          let end_ := Z.min ay by_ in
          let string := JSString.slice text start end_ in
          Operation.remove_text path start string :: go o rest
    end.

Definition removeTextByKey (transform : Transform) (key : Key)
    (offset length : Z) (options : Options) : option Transform :=
  let normalize := normalize_of options in
  let document := State.document (state transform) in
  let? path := Node.getPath document key in
  let? node := Node.getNode document key in
  let? ranges := Node.getRanges node in
  let text := Node.text node in
  let bx := offset in
  let by_ := offset + length in
  let removals := removalsFrom path text bx by_ 0 ranges in
  (* Apply the removals in reverse order, so that subsequent removals
     aren't impacted by previous ones. *)
  let? transform := forEach applyOperation (rev removals) transform in
  if normalize then
    let? block := Node.getClosestBlock document key in
    normalizeNodeByKey transform (Node.key block)
  else Some transform.

Definition splitNodeByKey (transform : Transform) (key : Key)
    (position : Z) (options : Options) : option Transform :=
  let normalize := normalize_of options in
  let document := State.document (state transform) in
  let? path := Node.getPath document key in
  let? transform :=
    applyOperation transform (Operation.split_node path position) in
  if normalize then
    let? parent := Node.getParent document key in
    normalizeNodeByKey transform (Node.key parent)
  else Some transform.

(** One turn of the [nodes.forEach] loop of [splitDescendantsByKey];
    the loop state is the transform and [previous]. *)
Definition splitStep (textOffset : Z) (acc : Transform * option Node.t)
    (node : Node.t) : option (Transform * option Node.t) :=
  let (transform, previous) := acc in
  let? index :=
    match previous with
    | Some previous =>
        let? ns := Node.nodes node in
        Some (Immutable.indexOf Node.eqb ns previous + 1)
    | None => Some textOffset
    end in
  let? transform :=
    splitNodeByKey transform (Node.key node) index (options (Some false)) in
  Some (transform, Some node).

Definition splitNodes (document : Node.t) (key textKey : Key)
    : option (list Node.t) :=
  let? text := Node.getNode document textKey in
  let? ancestors := Node.getAncestors document textKey in
  Some (text ::
        rev (Immutable.skipUntil (fun a => String.eqb (Node.key a) key)
               ancestors)).

Definition splitDescendantsByKey (transform : Transform) (key textKey : Key)
    (textOffset : Z) (options : Options) : option Transform :=
  if String.eqb key textKey then
    splitNodeByKey transform textKey textOffset options
  else
    let normalize := normalize_of options in
    let document := State.document (state transform) in
    let? nodes := splitNodes document key textKey in
    let? (transform, _) :=
      forEach (splitStep textOffset) nodes (transform, None) in
    if normalize then
      let? parent := Node.getParent document key in
      normalizeNodeByKey transform (Node.key parent)
    else Some transform.

Definition insertTextByKey (transform : Transform) (key : Key)
    (offset : Z) (text : string) (marks : option (list Mark.t))
    (options : Options) : option Transform :=
  let normalize := normalize_of options in
  let document := State.document (state transform) in
  let? path := Node.getPath document key in
  let? transform :=
    applyOperation transform (Operation.insert_text path offset text marks) in
  if normalize then
    let? parent := Node.getParent document key in
    normalizeNodeByKey transform (Node.key parent)
  else Some transform.

(** The [position] that the operation carries is computed as in the
    source; the applier of [join_node] does not read it. *)
Definition joinNodeByKey (transform : Transform) (key : Key)
    (options : Options) : option Transform :=
  let normalize := normalize_of options in
  let document := State.document (state transform) in
  let? path := Node.getPath document key in
  let? previous := Node.getPreviousSibling document key in
  (* Unable to join node, no previous key. *)
  let? previous := previous in
  let? position :=
    if Kind.eqb (Node.kind previous) Kind.text
    then Some (Node.length previous)
    else let? ns := Node.nodes previous in Some (Immutable.size ns) in
  let? transform := applyOperation transform (Operation.join_node path) in
  if normalize then
    let? parent := Node.getParent document key in
    normalizeNodeByKey transform (Node.key parent)
  else Some transform.

Definition moveNodeByKey (transform : Transform) (key newKey : Key)
    (newIndex : Z) (options : Options) : option Transform :=
  let normalize := normalize_of options in
  let document := State.document (state transform) in
  let? path := Node.getPath document key in
  let? newPath := Node.getPath document newKey in
  let? transform :=
    applyOperation transform
      (Operation.move_node path (newPath ++ [newIndex])) in
  if normalize then
    let? parent := Node.getCommonAncestor document key newKey in
    normalizeNodeByKey transform (Node.key parent)
  else Some transform.

(** The [node] that the operation carries is not read by the applier of
    [remove_node]. *)
Definition removeNodeByKey (transform : Transform) (key : Key)
    (options : Options) : option Transform :=
  let normalize := normalize_of options in
  let document := State.document (state transform) in
  let? path := Node.getPath document key in
  let? transform := applyOperation transform (Operation.remove_node path) in
  if normalize then
    let? parent := Node.getParent document key in
    normalizeNodeByKey transform (Node.key parent)
  else Some transform.

(** The properties are taken as [Normalize.nodeProperties] returns
    them. *)
Definition setNodeByKey (transform : Transform) (key : Key)
    (properties : Node.Properties.t) (options : Options)
    : option Transform :=
  let normalize := normalize_of options in
  let document := State.document (state transform) in
  let? path := Node.getPath document key in
  let node := Node.getNode document key in
  let? transform :=
    applyOperation transform (Operation.set_node path properties) in
  if normalize then
    let? node := node in
    normalizeNodeByKey transform (Node.key node)
  else Some transform.

Definition unwrapNodeByKey (transform : Transform) (key : Key)
    (options : Options) : option Transform :=
  let normalize := normalize_of options in
  let document := State.document (state transform) in
  let? parent := Node.getParent document key in
  (* the parent was found by this child, so [getChild] finds it *)
  let? node := Node.getChild parent key in
  let? siblings := Node.nodes parent in
  let index := Immutable.indexOf Node.eqb siblings node in
  let isFirst := index =? 0 in
  let isLast := index =? Immutable.size siblings - 1 in
  let? parentParent := Node.getParent document (Node.key parent) in
  let? parentSiblings := Node.nodes parentParent in
  let parentIndex := Immutable.indexOf Node.eqb parentSiblings parent in
  if Immutable.size siblings =? 1 then
    let? transform :=
      moveNodeByKey transform key (Node.key parentParent) parentIndex
        (Transforms.options (Some false)) in
    removeNodeByKey transform (Node.key parent) options
  else if isFirst then
    (* Just move the node before its parent. *)
    moveNodeByKey transform key (Node.key parentParent) parentIndex options
  else if isLast then
    (* Just move the node after its parent. *)
    moveNodeByKey transform key (Node.key parentParent) (parentIndex + 1)
      options
  else
    (* Split the parent. *)
    let? transform :=
      splitNodeByKey transform (Node.key parent) index
        (Transforms.options (Some false)) in
    (* Extract the node in between the splitted parent. *)
    let? transform :=
      moveNodeByKey transform key (Node.key parentParent) (parentIndex + 1)
        (Transforms.options (Some false)) in
    if normalize then normalizeNodeByKey transform (Node.key parentParent)
    else Some transform.

(** *** The splits of [splitDescendantsByKey], said declaratively *)

(** The split index of every node above [previous]: the position of
    the node below it among its children, plus one. *)
Fixpoint planAbove (previous : Node.t) (nodes : list Node.t)
    : option (list (Key * Z)) :=
  match nodes with
  | [] => Some []
  | node :: rest =>
      let? ns := Node.nodes node in
      let? plan := planAbove node rest in
      Some ((Node.key node, Immutable.indexOf Node.eqb ns previous + 1)
            :: plan)
  end.

(** Which node is split where: the text at [textOffset], then each
    node above it. *)
Definition splitPlan (textOffset : Z) (nodes : list Node.t)
    : option (list (Key * Z)) :=
  match nodes with
  | [] => Some []
  | text :: above =>
      let? plan := planAbove text above in
      Some ((Node.key text, textOffset) :: plan)
  end.

(** Single-node splits, one after the other, none of them normalizing. *)
Definition splitAll (plan : list (Key * Z)) (transform : Transform)
    : option Transform :=
  forEach
    (fun transform entry =>
       splitNodeByKey transform (fst entry) (snd entry)
         (options (Some false)))
    plan transform.

End WithNormalizer.
End Transforms.

(** ** Well-formed documents *)

Module Tree.

(** The index [i] names the element that has [before] elements in front
    of it and [after] behind it. *)
Definition pointsAt (i : Z) (before after : nat) : Prop :=
  (if i <? 0 then Z.of_nat (before + 1 + after) + i else i)
  = Z.of_nat before.

(** All keys in the tree are unique. *)
Definition unique (n : Node.t) : Prop := NoDup (Node.getKeys n).

(** No node below the root is a Document. *)
Fixpoint noDocumentBelow (n : Node.t) : Prop :=
  match n with
  | Node.Text _ _ => True
  | Node.Branch _ _ _ _ _ ns =>
      (fix all (l : list Node.t) : Prop :=
         match l with
         | [] => True
         | x :: xs =>
             Node.kind x <> Kind.document /\ noDocumentBelow x /\ all xs
         end) ns
  end.

(** A document: the root is of kind [document], no other node is, and
    keys are unique. *)
Definition wellFormed (document : Node.t) : Prop :=
  Node.kind document = Kind.document
  /\ unique document
  /\ noDocumentBelow document.

(** [replaced old new n path n']: the node at [path] in [n] is [old],
    and [n'] is [n] with [new] in its place. *)
Inductive replaced (old new : Node.t) : Node.t -> Path -> Node.t -> Prop :=
| replaced_here : replaced old new old [] new
| replaced_child c k ty v d l x r i p x' :
    pointsAt i (List.length l) (List.length r) ->
    replaced old new x p x' ->
    replaced old new
      (Node.Branch c k ty v d (l ++ x :: r)) (i :: p)
      (Node.Branch c k ty v d (l ++ x' :: r)).

(** Boolean versions of the three conditions, to check a given
    document by evaluation. *)
Fixpoint distinct (l : list Key) : bool :=
  match l with
  | [] => true
  | k :: ks => negb (existsb (String.eqb k) ks) && distinct ks
  end.

Fixpoint noDocumentBelowb (n : Node.t) : bool :=
  match n with
  | Node.Text _ _ => true
  | Node.Branch _ _ _ _ _ ns =>
      forallb
        (fun x => negb (Kind.eqb (Node.kind x) Kind.document)
                  && noDocumentBelowb x) ns
  end.

Definition wellFormedb (document : Node.t) : bool :=
  Kind.eqb (Node.kind document) Kind.document
  && distinct (Node.getKeys document)
  && noDocumentBelowb document.

Section NodeInduction.
Variable P : Node.t -> Prop.
Hypothesis HText : forall k cs, P (Node.Text k cs).
Hypothesis HBranch :
  forall c k ty v d ns, Forall P ns -> P (Node.Branch c k ty v d ns).

Fixpoint node_ind (n : Node.t) : P n :=
  match n with
  | Node.Text k cs => HText k cs
  | Node.Branch c k ty v d ns =>
      HBranch c k ty v d ns
        ((fix all (l : list Node.t) : Forall P l :=
            match l with
            | [] => Forall_nil P
            | x :: xs => Forall_cons x (node_ind x) (all xs)
            end) ns)
  end.
End NodeInduction.

End Tree.

(** ** Removing a span, said declaratively *)

Module Span.
(** The characters of [cs] without those at [offset <= i < offset +
    length]. *)
Definition remove (cs : list Character.t) (offset length : Z)
    : list Character.t :=
  Immutable.take offset cs
  ++ Immutable.skip (Z.max offset (offset + length)) cs.

(** The extents [(ax, ay)] of the range fragments, in document order,
    the first one starting at [o]. *)
Fixpoint extents (o : Z) (ranges : list Range.t) : list (Z * Z) :=
  match ranges with
  | [] => []
  | range :: rest =>
      let ay := o + JSString.length (Range.text range) in
      (o, ay) :: extents ay rest
  end.

(** A fragment overlaps the span [bx, by_) when the two have a
    position in common. *)
Definition overlaps (bx by_ : Z) (extent : Z * Z) : bool :=
  Z.max (fst extent) bx <? Z.min (snd extent) by_.

(** A fragment reaches the span when neither ends before the other
    starts: it overlaps the span or only touches it. *)
Definition reaches (bx by_ : Z) (extent : Z * Z) : bool :=
  negb ((snd extent <? bx) || (by_ <? fst extent)).

(** One removal per fragment that reaches the span: what the fragment
    and the span have in common. *)
Definition removals (path : Path) (text : string) (bx by_ : Z)
    (ranges : list Range.t) : list Operation.t :=
  map (fun extent =>
         let start := Z.max (fst extent) bx in
         let end_ := Z.min (snd extent) by_ in
         Operation.remove_text path start (JSString.slice text start end_))
    (filter (reaches bx by_) (extents 0 ranges)).

(** The characters left after the text removals among [ops] have
    been applied to [cs], first to last. *)
Fixpoint run (ops : list Operation.t) (cs : list Character.t)
    : list Character.t :=
  match ops with
  | [] => cs
  | Operation.remove_text _ offset text :: rest =>
      run rest (remove cs offset (JSString.length text))
  | _ :: rest => run rest cs
  end.

Fixpoint total (ranges : list Range.t) : Z :=
  match ranges with
  | [] => 0
  | range :: rest => JSString.length (Range.text range) + total rest
  end.
End Span.

(** ** Relocating an endpoint *)

(** Where [remove_node] sends an endpoint that sits on the text [k]. *)
Definition relocation (document : Node.t) (k : Key)
    : option Selection.Point :=
  match Node.getPreviousText document k, Node.getNextText document k with
  | Some prev, _ => Some (Some (Node.key prev), Node.length prev)
  | None, Some next => Some (Some (Node.key next), 0)
  | None, None => None
  end.

(** ** Sample documents *)

Module Examples.
Local Open Scope string_scope.

Definition plain (s : string) : list Character.t :=
  map (fun a => Character.make a []) (list_ascii_of_string s).

Definition text (k : Key) (s : string) : Node.t := Node.Text k (plain s).

Definition block (k : Key) (ns : list Node.t) : Node.t :=
  Node.Branch Node.Block k "paragraph" false [] ns.

Definition inline (k : Key) (ns : list Node.t) : Node.t :=
  Node.Branch Node.Inline k "link" false [] ns.

Definition document (ns : list Node.t) : Node.t :=
  Node.Branch Node.Document "doc" "" false [] ns.

Definition forward (ak : Key) (ao : Z) (fk : Key) (fo : Z) : Selection.t :=
  Selection.make (Some ak) ao (Some fk) fo (Some false) true.

Definition backward (ak : Key) (ao : Z) (fk : Key) (fo : Z) : Selection.t :=
  Selection.make (Some ak) ao (Some fk) fo (Some true) true.

(** Three blocks A, B, C under the document. *)
Definition A := block "A" [text "a" "one"].
Definition B := block "B" [text "b" "two"].
Definition C := block "C" [text "c" "three"].
Definition abc : State.t :=
  State.make (document [A; B; C]) (forward "a" 0 "a" 0).

(** One block with a single text [T]; the anchor is at offset 5. *)
Definition single : State.t :=
  State.make (document [block "p" [text "T" "abcdefgh"]])
    (forward "T" 5 "T" 5).

(** The same block under a backward selection: the anchor at 5, the
    focus at 4. *)
Definition singleBackward : State.t :=
  State.make (document [block "p" [text "T" "abcdefgh"]])
    (backward "T" 5 "T" 4).

(** Two sibling texts, the selection on the second. *)
Definition siblings : State.t :=
  State.make (document [block "p" [text "t1" "abc"; text "t2" "defg"]])
    (forward "t2" 1 "t2" 3).

(** Two sibling blocks, the selection carrying the key of the second. *)
Definition twoBlocks : State.t :=
  State.make
    (document [block "p" [text "t1" "abc"]; block "q" [text "t2" "defg"]])
    (forward "q" 0 "q" 1).

(** A text inside an inline inside a block. *)
Definition nested : State.t :=
  State.make
    (document
       [block "b" [text "t1" "hello"; inline "i" [text "t2" "world"];
                   text "t3" "!"]])
    (forward "t2" 1 "t2" 4).

(** One block with two texts, the selection running from the first into
    the second. *)
Definition twoTexts : State.t :=
  State.make (document [block "b" [text "t1" "abc"; text "t2" "de"]])
    (forward "t1" 1 "t2" 1).

(** A single text, carrying both endpoints. *)
Definition onlyText : State.t :=
  State.make (document [block "b" [text "t1" "abc"]])
    (forward "t1" 1 "t1" 2).

Definition bold : list Mark.t := [Mark.make "bold" []].

(** A text with a plain run and a bold run. *)
Definition marked : State.t :=
  State.make
    (document
       [block "p"
          [Node.Text "m"
             (plain "abcd"
              ++ map (fun a => Character.make a bold)
                   (list_ascii_of_string "efgh"))%list]])
    (forward "m" 8 "m" 8).

Definition identity (k : Key) (s : State.t * KeyGenerator)
    : option (State.t * KeyGenerator) := Some s.
End Examples.

(** * Facts about the collections *)

Section ImmutableFacts.
Context {A : Type}.
Implicit Types l r : list A.

Lemma size_app l r :
  Immutable.size (l ++ r) = Immutable.size l + Immutable.size r.
Proof. unfold Immutable.size. rewrite length_app. lia. Qed.

Lemma get_pointsAt l x r i :
  Tree.pointsAt i (List.length l) (List.length r) ->
  Immutable.get (l ++ x :: r) i = Some x.
Proof.
  unfold Tree.pointsAt, Immutable.get, Immutable.wrapIndex, Immutable.size.
  intros H. rewrite length_app. simpl List.length.
  replace (Z.of_nat (List.length l + S (List.length r)))
    with (Z.of_nat (List.length l + 1 + List.length r)) by lia.
  rewrite H.
  destruct ((0 <=? Z.of_nat (List.length l))
            && (Z.of_nat (List.length l)
                <? Z.of_nat (List.length l + 1 + List.length r))) eqn:E.
  2:{ apply andb_false_iff in E as [E|E];
      [apply Z.leb_gt in E|apply Z.ltb_ge in E]; lia. }
  rewrite Nat2Z.id, nth_error_app2 by lia.
  now rewrite Nat.sub_diag.
Qed.

Lemma get_inv ns i (c : A) :
  Immutable.get ns i = Some c ->
  exists l r, ns = l ++ c :: r
              /\ Tree.pointsAt i (List.length l) (List.length r).
Proof.
  unfold Immutable.get. intros H.
  destruct ((0 <=? Immutable.wrapIndex ns i)
            && (Immutable.wrapIndex ns i <? Immutable.size ns)) eqn:E;
    [|discriminate].
  apply andb_true_iff in E as [E1 E2].
  destruct (nth_error_split _ _ H) as (l & r & -> & Hl).
  exists l, r. split; [reflexivity|].
  unfold Tree.pointsAt. unfold Immutable.wrapIndex, Immutable.size in *.
  rewrite length_app in *. simpl List.length in *.
  apply Z.leb_le in E1. apply Z.ltb_lt in E2.
  destruct (i <? 0); lia.
Qed.

Lemma resolveIndex_length l r :
  Immutable.resolveIndex (Z.of_nat (List.length l))
    (Immutable.size (l ++ r)) = List.length l.
Proof.
  unfold Immutable.resolveIndex, Immutable.size. rewrite length_app.
  destruct (Z.of_nat (List.length l) <? 0) eqn:E; lia.
Qed.

Lemma splice_remove_mid l (x : A) r :
  Immutable.splice (l ++ x :: r) (Some (Z.of_nat (List.length l))) 1 []
  = l ++ r.
Proof.
  unfold Immutable.splice, Immutable.resolveBegin.
  rewrite resolveIndex_length. simpl.
  rewrite firstn_app, Nat.sub_diag, firstn_all. simpl. rewrite app_nil_r.
  rewrite skipn_app, skipn_all2 by lia.
  replace (List.length l + 1 - List.length l)%nat with 1%nat by lia.
  reflexivity.
Qed.

Lemma insert_mid l (x : A) r :
  Immutable.insert (l ++ r) (Some (Z.of_nat (List.length l))) x
  = l ++ x :: r.
Proof.
  unfold Immutable.insert, Immutable.splice, Immutable.resolveBegin.
  rewrite resolveIndex_length. simpl.
  rewrite firstn_app, Nat.sub_diag, firstn_all. simpl. rewrite app_nil_r.
  rewrite Nat.add_0_r, skipn_app, skipn_all, Nat.sub_diag. reflexivity.
Qed.

Lemma indexOfFrom_mid (eqb : A -> A -> bool) l x r i :
  (forall y, In y l -> eqb y x = false) ->
  eqb x x = true ->
  Immutable.indexOfFrom eqb x (l ++ x :: r) i = i + Z.of_nat (List.length l).
Proof.
  revert i. induction l as [|y l IH]; intros i Hl Hx; simpl.
  - rewrite Hx. lia.
  - rewrite (Hl y) by now left.
    rewrite IH by (auto; intros; apply Hl; now right). lia.
Qed.

Lemma indexOf_mid (eqb : A -> A -> bool) l x r :
  (forall y, In y l -> eqb y x = false) ->
  eqb x x = true ->
  Immutable.indexOf eqb (l ++ x :: r) x = Z.of_nat (List.length l).
Proof.
  intros. unfold Immutable.indexOf. now rewrite indexOfFrom_mid.
Qed.

Lemma pointsAt_length (before after : nat) :
  Tree.pointsAt (Z.of_nat before) before after.
Proof.
  unfold Tree.pointsAt. destruct (Z.of_nat before <? 0) eqn:E; lia.
Qed.

Lemma updateFirst_mid (hit : A -> bool) (v : A) (inner : A -> option A)
    l x r x' :
  (forall y, In y l -> hit y = false /\ inner y = None) ->
  (hit x = true /\ x' = v) \/ (hit x = false /\ inner x = Some x') ->
  Immutable.updateFirst hit v inner (l ++ x :: r) = Some (l ++ x' :: r).
Proof.
  intros Hl Hx. induction l as [|y l IH]; simpl.
  - destruct Hx as [[-> ->]|[-> ->]]; reflexivity.
  - destruct (Hl y (or_introl eq_refl)) as [-> ->].
    rewrite IH by (intros; apply Hl; now right). reflexivity.
Qed.

Lemma updateFirst_some (hit : A -> bool) (v : A) (inner : A -> option A)
    l l' :
  Immutable.updateFirst hit v inner l = Some l' ->
  exists x, In x l /\ (hit x = true \/ inner x <> None).
Proof.
  revert l'. induction l as [|y l IH]; simpl; intros l' H; [discriminate|].
  destruct (hit y) eqn:Hy.
  - exists y. auto.
  - destruct (inner y) eqn:Hi.
    + exists y. split; [now left|right; congruence].
    + destruct (Immutable.updateFirst hit v inner l) eqn:E; [|discriminate].
      destruct (IH _ eq_refl) as (x & Hin & Hx). exists x. auto.
Qed.

Lemma skipUntil_skip (p : A -> bool) l r :
  (forall y, In y l -> p y = false) ->
  Immutable.skipUntil p (l ++ r) = Immutable.skipUntil p r.
Proof.
  induction l as [|y l IH]; simpl; intros H; [reflexivity|].
  rewrite (H y) by now left. apply IH. intros; apply H; now right.
Qed.

Lemma takeUntil_stop (p : A -> bool) l x r :
  (forall y, In y l -> p y = false) ->
  p x = true ->
  Immutable.takeUntil p (l ++ x :: r) = l.
Proof.
  induction l as [|y l IH]; simpl; intros H Hx.
  - now rewrite Hx.
  - rewrite (H y) by now left. f_equal. apply IH; auto.
Qed.
End ImmutableFacts.

(** * Facts about nodes *)

Section NodeFacts.
Import Node.

Lemma equals_refl {A : Type} (eqb : A -> A -> bool) (l : list A) :
  Forall (fun x => eqb x x = true) l -> Immutable.equals eqb l l = true.
Proof. induction 1; simpl; [reflexivity|]. now rewrite H, IHForall. Qed.

Lemma data_eqb_refl d : Mark.data_eqb d d = true.
Proof.
  apply equals_refl, Forall_forall. intros [a b] _. simpl.
  now rewrite !String.eqb_refl.
Qed.

Lemma mark_eqb_refl m : Mark.eqb m m = true.
Proof. unfold Mark.eqb. now rewrite String.eqb_refl, data_eqb_refl. Qed.

Lemma mark_subset_refl marks : Mark.subset marks marks = true.
Proof.
  unfold Mark.subset. apply forallb_forall. intros m Hm.
  apply existsb_exists. exists m. split; [assumption|apply mark_eqb_refl].
Qed.

Lemma mark_same_refl marks : Mark.same marks marks = true.
Proof. unfold Mark.same. now rewrite mark_subset_refl. Qed.

Lemma character_eqb_refl c : Character.eqb c c = true.
Proof.
  unfold Character.eqb. now rewrite Ascii.eqb_refl, mark_same_refl.
Qed.

Lemma eqb_refl n : Node.eqb n n = true.
Proof.
  induction n as [k cs|c k ty v d ns IH] using Tree.node_ind; simpl.
  - rewrite String.eqb_refl. simpl. apply equals_refl, Forall_forall.
    intros; apply character_eqb_refl.
  - rewrite !String.eqb_refl, Bool.eqb_reflx, data_eqb_refl.
    rewrite (equals_refl Node.eqb ns IH). now destruct c.
Qed.

Lemma eqb_key a b : Node.eqb a b = true -> key a = key b.
Proof.
  destruct a, b; simpl; try discriminate; intros H.
  - apply andb_true_iff in H as [H _]. now apply String.eqb_eq.
  - repeat (apply andb_true_iff in H as [H ?]).
    now apply String.eqb_eq.
Qed.

Lemma eqb_key_neq a b : key a <> key b -> Node.eqb a b = false.
Proof.
  intros H. destruct (Node.eqb a b) eqn:E; [|reflexivity].
  now apply eqb_key in E.
Qed.

(** ** Keys *)

Lemma key_in_getKeys n : In (key n) (getKeys n).
Proof. destruct n; simpl; auto. Qed.

Lemma getKeys_child l x r k :
  In k (getKeys x) -> In k (flat_map getKeys (l ++ x :: r)).
Proof.
  intros H. rewrite flat_map_app. simpl. rewrite !in_app_iff. auto.
Qed.

Lemma assertPath_keys n path m :
  assertPath n path = Some m -> forall k, In k (getKeys m) -> In k (getKeys n).
Proof.
  revert n. induction path as [|i path IH]; intros n H k Hk; simpl in H.
  - now inversion H; subst.
  - destruct n as [|c key ty v d ns]; simpl in H; [discriminate|].
    destruct (Immutable.get ns i) as [child|] eqn:G; [|discriminate].
    destruct (get_inv _ _ _ G) as (l & r & -> & _).
    simpl. right. apply getKeys_child. eauto.
Qed.

Lemma unique_children c k ty v d l x r :
  Tree.unique (Branch c k ty v d (l ++ x :: r)) ->
  Tree.unique x
  /\ ~ In k (getKeys x)
  /\ (forall y, In y (l ++ r) -> forall k', In k' (getKeys y) ->
                ~ In k' (getKeys x)).
Proof.
  unfold Tree.unique. simpl. intros H. inversion H as [|? ? Hk Hnd]; subst.
  rewrite flat_map_app in *. simpl in *.
  split; [|split].
  - now apply NoDup_app_remove_l, NoDup_app_remove_r in Hnd.
  - intros Hin. apply Hk. rewrite !in_app_iff. auto.
  - intros y Hy k' Hk' Hx.
    apply in_app_iff in Hy as [Hy|Hy].
    + assert (Hl : In k' (flat_map getKeys l))
        by (apply in_flat_map; eauto).
      apply in_split in Hl as (a & b & Hl). rewrite Hl in Hnd.
      rewrite <- app_assoc in Hnd. simpl in Hnd.
      apply NoDup_remove_2 in Hnd. apply Hnd.
      rewrite !in_app_iff. auto.
    + assert (Hr : In k' (flat_map getKeys r))
        by (apply in_flat_map; eauto).
      apply NoDup_app_remove_l in Hnd.
      apply in_split in Hx as (a & b & Hx). rewrite Hx in Hnd.
      rewrite <- app_assoc in Hnd. simpl in Hnd.
      apply NoDup_remove_2 in Hnd. apply Hnd.
      rewrite !in_app_iff. auto.
Qed.

Lemma unique_descendant n path m :
  Tree.unique n -> assertPath n path = Some m -> Tree.unique m.
Proof.
  revert n. induction path as [|i path IH]; intros n U H; simpl in H.
  - now inversion H; subst.
  - destruct n as [|c key ty v d ns]; simpl in H; [discriminate|].
    destruct (Immutable.get ns i) as [child|] eqn:G; [|discriminate].
    destruct (get_inv _ _ _ G) as (l & r & -> & _).
    apply unique_children in U as (U & _). eauto.
Qed.

(** The key of a node strictly below [n] is not the key of [n]. *)
Lemma unique_below n i path m :
  Tree.unique n -> assertPath n (i :: path) = Some m -> key m <> key n.
Proof.
  intros U H. simpl in H.
  destruct n as [|c k ty v d ns]; simpl in H; [discriminate|].
  destruct (Immutable.get ns i) as [child|] eqn:G; [|discriminate].
  destruct (get_inv _ _ _ G) as (l & r & -> & _).
  apply unique_children in U as (_ & Hk & _). simpl. intros E.
  apply Hk. rewrite <- E.
  eapply assertPath_keys; [eassumption|apply key_in_getKeys].
Qed.
End NodeFacts.

Section LookupFacts.
Import Node.

Lemma findMap_some {A B : Type} (f : A -> option B) l b :
  Immutable.findMap f l = Some b -> exists x, In x l /\ f x = Some b.
Proof.
  induction l as [|y l IH]; simpl; [discriminate|].
  destruct (f y) eqn:E; intros H.
  - inversion H; subst. eauto.
  - destruct (IH H) as (x & ? & ?). eauto.
Qed.

Lemma findMap_mid {A B : Type} (f : A -> option B) l x r b :
  (forall y, In y l -> f y = None) ->
  f x = Some b ->
  Immutable.findMap f (l ++ x :: r) = Some b.
Proof.
  intros Hl Hx. induction l as [|y l IH]; simpl.
  - now rewrite Hx.
  - rewrite (Hl y) by now left. apply IH. intros; apply Hl; now right.
Qed.

Lemma findMapFrom_mid {A B : Type} (f : Z -> A -> option B) l x r b i :
  (forall j y, In y l -> f j y = None) ->
  f (i + Z.of_nat (List.length l)) x = Some b ->
  Immutable.findMapFrom f i (l ++ x :: r) = Some b.
Proof.
  revert i. induction l as [|y l IH]; simpl; intros i Hl Hx.
  - now rewrite Z.add_0_r in Hx; rewrite Hx.
  - rewrite (Hl i y) by now left. apply IH.
    + intros; apply Hl; now right.
    + rewrite <- Hx. f_equal. lia.
Qed.

Lemma existsb_key_false (l : list Node.t) k :
  (forall y, In y l -> key y <> k) ->
  existsb (fun c => String.eqb (key c) k) l = false.
Proof.
  intros H. destruct (existsb _ l) eqn:E; [|reflexivity].
  apply existsb_exists in E as (y & Hy & E).
  apply String.eqb_eq in E. now apply H in Hy.
Qed.

Lemma assertPath_app n p q :
  assertPath n (p ++ q)
  = match assertPath n p with Some m => assertPath m q | None => None end.
Proof.
  revert n. induction p as [|i p IH]; intros n; simpl; [reflexivity|].
  destruct (nodes n) as [ns|]; [|reflexivity].
  destruct (Immutable.get ns i); [apply IH|reflexivity].
Qed.

Lemma getParent_keys n k q :
  getParent n k = Some q -> In k (getKeys n).
Proof.
  revert q. induction n as [k0 cs|c k0 ty v d ns IH] using Tree.node_ind;
    intros q; simpl; [discriminate|].
  rewrite Forall_forall in IH.
  destruct (existsb _ ns) eqn:E.
  - intros _. apply existsb_exists in E as (y & Hy & E).
    apply String.eqb_eq in E. right. apply in_flat_map. exists y.
    split; [assumption|]. rewrite <- E. apply key_in_getKeys.
  - intros H. apply findMap_some in H as (y & Hy & H).
    right. apply in_flat_map. exists y. eauto.
Qed.

Lemma updateDescendant_keys n node n' :
  updateDescendant n node = Some n' -> In (key node) (getKeys n).
Proof.
  revert n'. induction n as [k0 cs|c k0 ty v d ns IH] using Tree.node_ind;
    intros n'; simpl; [discriminate|].
  rewrite Forall_forall in IH.
  destruct (Immutable.updateFirst _ _ _ ns) as [ns'|] eqn:E; [|discriminate].
  intros _. apply updateFirst_some in E as (x & Hx & [E|E]).
  - apply String.eqb_eq in E. right. apply in_flat_map. exists x.
    split; [assumption|]. rewrite <- E. apply key_in_getKeys.
  - destruct (updateDescendant x node) eqn:U; [|congruence].
    right. apply in_flat_map. exists x. eauto.
Qed.

Lemma getDescendant_keys n k m :
  getDescendant n k = Some m -> In k (getKeys n) /\ key m = k.
Proof.
  revert m. induction n as [k0 cs|c k0 ty v d ns IH] using Tree.node_ind;
    intros m; simpl; [discriminate|].
  rewrite Forall_forall in IH. intros H.
  apply findMap_some in H as (y & Hy & H).
  destruct (String.eqb (key y) k) eqn:E.
  - inversion H; subst. apply String.eqb_eq in E. split; [|assumption].
    right. apply in_flat_map. exists m. split; [assumption|].
    rewrite <- E. apply key_in_getKeys.
  - destruct (IH y Hy m H) as [Hin Hk]. split; [|assumption].
    right. apply in_flat_map. eauto.
Qed.

(** Under unique keys the parent found by key is the node one step up
    the path. *)
Lemma getParent_path n p i m :
  Tree.unique n ->
  assertPath n (p ++ [i]) = Some m ->
  getParent n (key m) = assertPath n p.
Proof.
  revert n. induction p as [|j p IH]; intros n U H.
  - simpl in *. destruct n as [|c k ty v d ns]; simpl in *; [discriminate|].
    destruct (Immutable.get ns i) as [x|] eqn:G; [|discriminate].
    inversion H; subst x. destruct (get_inv _ _ _ G) as (l & r & -> & _).
    rewrite existsb_app. simpl. rewrite String.eqb_refl.
    now rewrite orb_true_r.
  - simpl app in H. pose proof H as H0. simpl in H.
    destruct n as [|c k ty v d ns]; simpl in H; [discriminate|].
    destruct (Immutable.get ns j) as [x|] eqn:G; [|discriminate].
    destruct (get_inv _ _ _ G) as (l & r & -> & _).
    pose proof (unique_children _ _ _ _ _ _ _ _ U) as (Ux & Hk & Hd).
    assert (Hm : In (key m) (getKeys x))
      by (eapply assertPath_keys; [eassumption|apply key_in_getKeys]).
    simpl. rewrite G.
    rewrite existsb_key_false.
    + rewrite assertPath_app in H.
      destruct (assertPath x p) as [par|] eqn:Hp; [|discriminate].
      apply findMap_mid.
      * intros y Hy. destruct (getParent y (key m)) eqn:E; [|reflexivity].
        apply getParent_keys in E. exfalso.
        eapply (Hd y); [apply in_app_iff; now left|exact E|exact Hm].
      * rewrite (IH x Ux), Hp; [reflexivity|].
        now rewrite assertPath_app, Hp.
    + intros y Hy E. apply in_app_iff in Hy as [Hy|[<-|Hy]].
      * eapply (Hd y); [apply in_app_iff; now left|apply key_in_getKeys|].
        now rewrite E.
      * destruct p; simpl app in H;
          eapply unique_below in H; eauto.
      * eapply (Hd y); [apply in_app_iff; now right|apply key_in_getKeys|].
        now rewrite E.
Qed.

(** ** Replacement at a path *)

Lemma assertPath_replaced old new n path :
  assertPath n path = Some old -> exists n', Tree.replaced old new n path n'.
Proof.
  revert n. induction path as [|i path IH]; intros n H; simpl in H.
  - inversion H; subst. exists new. constructor.
  - destruct n as [|c k ty v d ns]; simpl in H; [discriminate|].
    destruct (Immutable.get ns i) as [x|] eqn:G; [|discriminate].
    destruct (get_inv _ _ _ G) as (l & r & -> & Hi).
    destruct (IH _ H) as (x' & Hx).
    eexists. now constructor; eauto.
Qed.

Lemma replaced_old old new n path n' :
  Tree.replaced old new n path n' -> assertPath n path = Some old.
Proof.
  induction 1; simpl; [reflexivity|]. now rewrite get_pointsAt.
Qed.

Lemma replaced_new old new n path n' :
  Tree.replaced old new n path n' -> assertPath n' path = Some new.
Proof.
  induction 1; simpl; [reflexivity|]. now rewrite get_pointsAt.
Qed.

Lemma replaced_key_kind old new n path n' :
  Tree.replaced old new n path n' -> path <> [] ->
  key n' = key n /\ kind n' = kind n.
Proof. destruct 1; [congruence|]. intros _. now split. Qed.

Lemma replaced_getKeys old new n path n' :
  Tree.replaced old new n path n' ->
  exists pre post,
    getKeys n = pre ++ getKeys old ++ post
    /\ getKeys n' = pre ++ getKeys new ++ post.
Proof.
  induction 1 as [|c k ty v d l x r i p x' Hi Hx (pre & post & E & E')].
  - exists [], []. now rewrite !app_nil_r.
  - exists (k :: flat_map getKeys l ++ pre), (post ++ flat_map getKeys r).
    simpl. rewrite !flat_map_app. simpl. rewrite E, E'.
    now rewrite <- !app_assoc.
Qed.

Lemma replaced_getTexts old new n path n' :
  Tree.replaced old new n path n' ->
  exists pre post,
    getTexts n = pre ++ getTexts old ++ post
    /\ getTexts n' = pre ++ getTexts new ++ post.
Proof.
  induction 1 as [|c k ty v d l x r i p x' Hi Hx (pre & post & E & E')].
  - exists [], []. now rewrite !app_nil_r.
  - exists (flat_map getTexts l ++ pre), (post ++ flat_map getTexts r).
    simpl. rewrite !flat_map_app. simpl. rewrite E, E'.
    now rewrite <- !app_assoc.
Qed.

(** Under unique keys, swapping a node in by key rewrites the tree at
    the path of the node with that key. *)
Lemma replaced_updateDescendant old new n path n' :
  Tree.replaced old new n path n' ->
  Tree.unique n -> key new = key old -> path <> [] ->
  updateDescendant n new = Some n'.
Proof.
  induction 1 as [|c k ty v d l x r i p x' Hi Hx IH]; intros U Hk Hp;
    [congruence|].
  pose proof (unique_children _ _ _ _ _ _ _ _ U) as (Ux & Hkx & Hd).
  pose proof (replaced_old _ _ _ _ _ Hx) as Hold.
  assert (Hm : In (key old) (getKeys x))
    by (eapply assertPath_keys; [eassumption|apply key_in_getKeys]).
  simpl. erewrite updateFirst_mid; [reflexivity| |].
  - intros y Hy. split.
    + apply String.eqb_neq. intros E. rewrite Hk in E.
      eapply (Hd y); [apply in_app_iff; now left|apply key_in_getKeys|].
      now rewrite E.
    + destruct (updateDescendant y new) eqn:E; [|reflexivity].
      apply updateDescendant_keys in E. rewrite Hk in E. exfalso.
      eapply (Hd y); [apply in_app_iff; now left|exact E|exact Hm].
  - destruct p as [|j p].
    + inversion Hx; subst. left. split; [|reflexivity].
      now apply String.eqb_eq.
    + right. split.
      * apply String.eqb_neq. rewrite Hk. intros E.
        eapply unique_below in Hold; eauto.
      * apply IH; [assumption..|discriminate].
Qed.
End LookupFacts.

(** * Selection rebasing by the text appliers *)

Section TextAppliers.
Import Node.

Lemma key_is_spec a k : key_is a k = true <-> a = Some k.
Proof.
  destruct a as [k'|]; simpl; [|split; discriminate].
  rewrite String.eqb_eq. split; congruence.
Qed.

Lemma key_is_Some k : key_is (Some k) k = true.
Proof. now apply key_is_spec. Qed.

Lemma key_is_neq a k : a <> Some k -> key_is a k = false.
Proof.
  intros H. destruct (key_is a k) eqn:E; [|reflexivity].
  now apply key_is_spec in E.
Qed.

Lemma updateFirst_exists {A : Type} (hit : A -> bool) (v : A)
    (inner : A -> option A) l x :
  In x l -> hit x = true \/ inner x <> None ->
  exists l', Immutable.updateFirst hit v inner l = Some l'.
Proof.
  induction l as [|y l IH]; simpl; intros Hin Hx; [contradiction|].
  destruct (hit y) eqn:Hy; [eauto|].
  destruct (inner y) eqn:Hi; [eauto|].
  destruct Hin as [->|Hin].
  - destruct Hx; congruence.
  - destruct (IH Hin Hx) as (l' & ->). simpl. eauto.
Qed.

(** A node that a non-empty path resolves to can be swapped by key. *)
Lemma updateDescendant_exists n i path old new :
  assertPath n (i :: path) = Some old -> key new = key old ->
  exists n', updateDescendant n new = Some n'.
Proof.
  revert n i. induction path as [|j path IH]; intros n i H Hk;
    simpl in H; destruct n as [|c k ty v d ns]; simpl in H;
    try discriminate;
    destruct (Immutable.get ns i) as [x|] eqn:G; try discriminate;
    destruct (get_inv _ _ _ G) as (l & r & -> & _); simpl.
  - inversion H; subst x.
    destruct (updateFirst_exists
                (fun x => String.eqb (key x) (key new)) new
                (fun x => updateDescendant x new) (l ++ old :: r) old)
      as (l' & ->); simpl; eauto.
    + apply in_app_iff. right. now left.
    + left. now apply String.eqb_eq.
  - destruct (IH x j H Hk) as (x' & Hx').
    destruct (updateFirst_exists
                (fun x => String.eqb (key x) (key new)) new
                (fun x => updateDescendant x new) (l ++ x :: r) x)
      as (l' & ->); simpl; eauto.
    + apply in_app_iff. right. now left.
    + right. congruence.
Qed.

Lemma rebase_points s (ba bf : bool) z :
  let s1 := if ba then Selection.moveAnchor s z else s in
  let s2 := if bf then Selection.moveFocus s1 z else s1 in
  Selection.anchor s2
  = (Selection.anchorKey s,
     if ba then Selection.anchorOffset s + z else Selection.anchorOffset s)
  /\ Selection.focus s2
     = (Selection.focusKey s,
        if bf then Selection.focusOffset s + z else Selection.focusOffset s).
Proof. destruct ba, bf; split; reflexivity. Qed.

Lemma text_below_document document path node :
  kind document = Kind.document ->
  assertPath document path = Some node ->
  kind node = Kind.text ->
  exists i rest, path = i :: rest.
Proof.
  intros Hd H Hn. destruct path as [|i rest]; [|eauto].
  simpl in H. inversion H; subst. congruence.
Qed.
End TextAppliers.

(** C3. After [insert_text], each endpoint (anchor or focus) keeps its
    key; one that sits on the edited text node at or after [offset] has
    moved forward by the length of the inserted text, and one before
    [offset], or on another node, has not moved. *)
Theorem C3_insert_text_rebases_selection :
  forall state path offset text marks node,
    Node.kind (State.document state) = Kind.document ->
    Node.assertPath (State.document state) path = Some node ->
    Node.kind node = Kind.text ->
    exists state',
      APPLIERS.insert_text state path offset text marks = Some state'
      /\ forall endpoint,
           endpoint = Selection.anchor \/ endpoint = Selection.focus ->
           let p := endpoint (State.selection state) in
           let p' := endpoint (State.selection state') in
           fst p' = fst p
           /\ (fst p = Some (Node.key node) -> offset <= snd p ->
               snd p' = snd p + JSString.length text)
           /\ (snd p < offset -> snd p' = snd p)
           /\ (fst p <> Some (Node.key node) -> snd p' = snd p).
Proof.
  intros state path offset text marks node Hdoc Hpath Htext.
  destruct (text_below_document _ _ _ Hdoc Hpath Htext) as (i & rest & ->).
  destruct node as [k cs|]; [|destruct c; discriminate].
  unfold APPLIERS.insert_text. rewrite Hpath. simpl Node.insertText.
  cbv iota beta.
  match goal with
  | |- context [Node.updateDescendant _ ?n] =>
      destruct (updateDescendant_exists _ _ _ _ n Hpath eq_refl) as (d & ->)
  end.
  eexists. split; [reflexivity|].
  intros endpoint Hp.
  rewrite !Z.geb_leb.
  set (s := State.selection state).
  destruct (rebase_points s
              (key_is (Selection.anchorKey s) k
               && (offset <=? Selection.anchorOffset s))
              (key_is (Selection.focusKey s) k
               && (offset <=? Selection.focusOffset s))
              (JSString.length text)) as [Ha Hf].
  destruct Hp as [-> | ->]; simpl State.selection; cbv zeta;
    [rewrite Ha|rewrite Hf]; simpl fst; simpl snd;
    (split; [reflexivity|]);
    match goal with
    | |- context [key_is ?a k && (offset <=? ?o)] =>
        destruct (key_is a k) eqn:Ek;
        [apply key_is_spec in Ek|];
        (destruct (Z.leb_spec offset o); simpl)
    end;
    repeat split; intros; try lia; try congruence.
  all: match goal with
       | H : key_is _ _ = false, E : _ = Some _ |- _ =>
           apply key_is_spec in E; congruence
       end.
Qed.

(** C4. After [remove_text], each endpoint (anchor or focus) that sits on
    the edited node at or after the end of the removed span,
    [offset + len(text)], has moved back by [len(text)]; an endpoint
    strictly inside the span [offset, offset + len(text)) (indeed any
    endpoint before the end of the span) is left as it was. *)
Theorem C4_remove_text_rebases_selection :
  forall state path offset text node,
    Node.kind (State.document state) = Kind.document ->
    Node.assertPath (State.document state) path = Some node ->
    Node.kind node = Kind.text ->
    exists state',
      APPLIERS.remove_text state path offset text = Some state'
      /\ forall endpoint,
           endpoint = Selection.anchor \/ endpoint = Selection.focus ->
           let p := endpoint (State.selection state) in
           let p' := endpoint (State.selection state') in
           let len := JSString.length text in
           fst p' = fst p
           /\ (fst p = Some (Node.key node) -> offset + len <= snd p ->
               snd p' = snd p - len)
           /\ (offset <= snd p < offset + len -> p' = p)
           /\ (snd p < offset + len -> p' = p)
           /\ (fst p <> Some (Node.key node) -> p' = p).
Proof.
  intros state path offset text node Hdoc Hpath Htext.
  destruct (text_below_document _ _ _ Hdoc Hpath Htext) as (i & rest & ->).
  destruct node as [k cs|]; [|destruct c; discriminate].
  unfold APPLIERS.remove_text. rewrite Hpath. simpl Node.removeText.
  cbv iota beta.
  match goal with
  | |- context [Node.updateDescendant _ ?n] =>
      destruct (updateDescendant_exists _ _ _ _ n Hpath eq_refl) as (d & ->)
  end.
  eexists. split; [reflexivity|].
  intros endpoint Hp.
  rewrite !Z.geb_leb.
  set (s := State.selection state).
  destruct (rebase_points s
              (key_is (Selection.anchorKey s) k
               && (offset + JSString.length text <=? Selection.anchorOffset s))
              (key_is (Selection.focusKey s) k
               && (offset + JSString.length text <=? Selection.focusOffset s))
              (- JSString.length text)) as [Ha Hf].
  destruct Hp as [-> | ->]; simpl State.selection; cbv zeta;
    [rewrite Ha|rewrite Hf]; simpl fst; simpl snd;
    (split; [reflexivity|]);
    match goal with
    | |- context [key_is ?a k && (?e <=? ?o)] =>
        destruct (key_is a k) eqn:Ek;
        [apply key_is_spec in Ek|];
        (destruct (Z.leb_spec e o); simpl)
    end;
    repeat split; intros; try lia; try congruence;
    try reflexivity.
  all: match goal with
       | H : key_is _ _ = false, E : _ = Some _ |- _ =>
           apply key_is_spec in E; congruence
       end.
Qed.

(** * Joining nodes *)

(** Name the next step of an applier that has returned a state. *)
Ltac step H :=
  match type of H with
  | match ?e with Some _ => _ | None => _ end = Some _ =>
      let E := fresh "E" in
      destruct e eqn:E; [|discriminate H]
  end.

Lemma text_length k cs :
  Node.length (Node.Text k cs) = Z.of_nat (List.length cs).
Proof.
  unfold Node.length, JSString.length. simpl. unfold Node.characters_text.
  f_equal. rewrite <- (length_map Character.text cs).
  induction (map Character.text cs) as [|a l IH]; simpl; congruence.
Qed.

(** C10. When the retained previous sibling is not a Text node, a
    [join_node] that goes through returns the selection of the input
    state, whatever keys its endpoints carry. *)
Theorem C10_join_node_containers_keep_selection :
  forall state path state' index one,
    APPLIERS.join_node state path = Some state' ->
    PathOps.last path = Some index ->
    Node.assertPath (State.document state)
      (PathOps.init path ++ [index - 1]) = Some one ->
    Node.kind one <> Kind.text ->
    State.selection state' = State.selection state.
Proof.
  intros state path state' index one H Hlast Hone Hkind.
  unfold APPLIERS.join_node in H. rewrite Hlast, Hone in H.
  repeat step H.
  destruct (Node.kind one); try congruence; simpl in H;
    inversion H; reflexivity.
Qed.

(** C6 (as amended). When the retained previous sibling is a Text node
    with characters [cs], a [join_node] that goes through moves every
    endpoint (anchor or focus) that sits on the removed second node to the
    retained first node, at the character count of the first node plus its
    old offset; the other endpoints are left as they were. *)
Theorem C6_join_node_text_rebases_selection :
  forall state path state' index k cs two,
    APPLIERS.join_node state path = Some state' ->
    PathOps.last path = Some index ->
    Node.assertPath (State.document state)
      (PathOps.init path ++ [index - 1]) = Some (Node.Text k cs) ->
    Node.assertPath (State.document state) path = Some two ->
    forall endpoint,
      endpoint = Selection.anchor \/ endpoint = Selection.focus ->
      let p := endpoint (State.selection state) in
      let p' := endpoint (State.selection state') in
      (fst p = Some (Node.key two) ->
       p' = (Some k, Z.of_nat (List.length cs) + snd p))
      /\ (fst p <> Some (Node.key two) -> p' = p).
Proof.
  intros state path state' index k cs two H Hlast Hone Htwo endpoint Hp.
  unfold APPLIERS.join_node in H. rewrite Hlast, Hone, Htwo in H.
  repeat step H.
  rewrite text_length in H. simpl in H. inversion H; subst state'; clear H.
  simpl State.selection.
  set (s := State.selection state).
  destruct Hp as [-> | ->]; cbv zeta;
    destruct (key_is (Selection.anchorKey s) (Node.key two)) eqn:Ea;
    destruct (key_is (Selection.focusKey s) (Node.key two)) eqn:Ef;
    simpl; split; intros Hk; try reflexivity;
    try (apply key_is_spec in Hk; congruence);
    try (apply key_is_neq in Hk; congruence);
    exfalso;
    try (apply key_is_spec in Ea; unfold Selection.anchor in Hk; simpl in Hk;
         congruence);
    try (apply key_is_spec in Ef; unfold Selection.focus in Hk; simpl in Hk;
         congruence).
Qed.

(** * Setting node properties *)

Section KindFacts.
Lemma noDocumentBelow_Forall c k ty v d ns :
  Tree.noDocumentBelow (Node.Branch c k ty v d ns)
  <-> Forall (fun x => Node.kind x <> Kind.document
                       /\ Tree.noDocumentBelow x) ns.
Proof.
  simpl. induction ns as [|y ns IH]; simpl.
  - split; auto.
  - rewrite Forall_cons_iff, <- IH. tauto.
Qed.

Lemma noDocumentBelow_child c k ty v d l x r :
  Tree.noDocumentBelow (Node.Branch c k ty v d (l ++ x :: r)) ->
  Node.kind x <> Kind.document /\ Tree.noDocumentBelow x.
Proof.
  rewrite noDocumentBelow_Forall. intros H.
  now apply Forall_elt in H.
Qed.

Lemma noDocumentBelow_path n i path m :
  Tree.noDocumentBelow n ->
  Node.assertPath n (i :: path) = Some m ->
  Node.kind m <> Kind.document.
Proof.
  revert n i. induction path as [|j path IH]; intros n i Hn H;
    simpl in H; destruct n as [|c k ty v d ns]; simpl in H;
    try discriminate;
    destruct (Immutable.get ns i) as [x|] eqn:G; try discriminate;
    destruct (get_inv _ _ _ G) as (l & r & -> & _);
    apply noDocumentBelow_child in Hn as [Hk Hx].
  - now inversion H; subst.
  - eapply IH; eauto.
Qed.
End KindFacts.

Lemma guardNodes_spec node properties :
  exists nodes' warned,
    APPLIERS.guardNodes node properties
    = (Node.Properties.make (Node.Properties.key properties) nodes'
         (Node.Properties.type properties)
         (Node.Properties.isVoid properties)
         (Node.Properties.data properties), warned)
    /\ (nodes' = None
        \/ nodes' = Some Node.Properties.own /\ Node.nodes node <> None)
    /\ (forall ns,
          Node.Properties.nodes properties = Some (Node.Properties.other ns) ->
          In APPLIERS.warn_nodes warned).
Proof.
  destruct properties as [pk pn pt pv pd]. unfold APPLIERS.guardNodes. simpl.
  destruct pn as [[|ns]|].
  - destruct (Node.nodes node) as [ns'|] eqn:En; simpl.
    + exists (Some Node.Properties.own), [].
      repeat split; try discriminate. right. split; congruence.
    + exists None, [APPLIERS.warn_nodes].
      repeat split; try discriminate. now left.
  - simpl. exists None, [APPLIERS.warn_nodes].
    repeat split; [now left|]. intros; now left.
  - exists None, []. repeat split; [now left|discriminate].
Qed.

Lemma guardKey_spec node properties :
  Node.Properties.key properties <> Some EmptyString ->
  exists key' warned,
    APPLIERS.guardKey node properties
    = (Node.Properties.make key' (Node.Properties.nodes properties)
         (Node.Properties.type properties)
         (Node.Properties.isVoid properties)
         (Node.Properties.data properties), warned)
    /\ (forall k, key' = Some k -> k = Node.key node)
    /\ (forall k, Node.Properties.key properties = Some k ->
          k <> Node.key node -> In APPLIERS.warn_key warned).
Proof.
  destruct properties as [pk pn pt pv pd]. unfold APPLIERS.guardKey. simpl.
  intros Hkey. destruct pk as [k|].
  - destruct (String.eqb k (Node.key node)) eqn:E.
    + apply String.eqb_eq in E. rewrite andb_false_r.
      exists (Some k), []. repeat split; intros; congruence.
    + destruct k as [|a k]; [now elim Hkey|]. simpl.
      exists None, [APPLIERS.warn_key].
      repeat split; try discriminate. intros; now left.
  - exists None, []. repeat split; discriminate.
Qed.

(** * Moving a node inside its parent *)

Section MoveFacts.
Import Node.

Lemma last_snoc {A : Type} (l : list A) x : Immutable.last (l ++ [x]) = Some x.
Proof.
  induction l as [|y l IH]; [reflexivity|].
  simpl. destruct (l ++ [x]) eqn:E; [|assumption].
  now destruct l.
Qed.

Lemma isPrefix_refl (p : Path) : Immutable.isPrefix Z.eqb p p = true.
Proof. induction p; simpl; [reflexivity|]. now rewrite Z.eqb_refl. Qed.

Lemma resolveIndex_pointsAt {A : Type} (l : list A) x r i :
  Tree.pointsAt i (List.length l) (List.length r) ->
  Immutable.resolveIndex i (Immutable.size (l ++ x :: r)) = List.length l.
Proof.
  unfold Tree.pointsAt, Immutable.resolveIndex, Immutable.size.
  rewrite length_app. simpl List.length.
  destruct (i <? 0) eqn:E; lia.
Qed.

Lemma splice_remove_pointsAt {A : Type} (l : list A) x r i :
  Tree.pointsAt i (List.length l) (List.length r) ->
  Immutable.splice (l ++ x :: r) (Some i) 1 [] = l ++ r.
Proof.
  intros H. unfold Immutable.splice, Immutable.resolveBegin.
  rewrite (resolveIndex_pointsAt _ _ _ _ H). simpl.
  rewrite firstn_app, Nat.sub_diag, firstn_all. simpl. rewrite app_nil_r.
  rewrite skipn_app, skipn_all2 by lia.
  replace (List.length l + 1 - List.length l)%nat with 1%nat by lia.
  reflexivity.
Qed.

(** Keys stay unique when a subtree gives way to one with fewer keys. *)
Lemma unique_replaced old new n path n' :
  Tree.replaced old new n path n' ->
  (forall k, count_occ string_dec (getKeys new) k
             <= count_occ string_dec (getKeys old) k)%nat ->
  Tree.unique n -> Tree.unique n'.
Proof.
  intros Hr Hc U. unfold Tree.unique in *.
  destruct (replaced_getKeys _ _ _ _ _ Hr) as (pre & post & E & E').
  rewrite E in U. rewrite E'.
  rewrite (NoDup_count_occ string_dec) in *. intros k.
  specialize (U k). specialize (Hc k).
  rewrite !count_occ_app in *. unfold Key in *. lia.
Qed.

Lemma kind_document_root document path node :
  Tree.wellFormed document ->
  assertPath document path = Some node ->
  Kind.eqb (kind node) Kind.document = true <-> path = [].
Proof.
  intros (Hk & _ & Hb) H. split.
  - destruct path as [|i rest]; [reflexivity|]. intros E.
    apply (noDocumentBelow_path _ _ _ _ Hb) in H.
    destruct (kind node); simpl in E; congruence.
  - intros ->. simpl in H. inversion H; subst. now rewrite Hk.
Qed.

(** Writing a node back at its own path: directly for the root, by key
    for any other node. *)
Lemma write_back document path old new document' :
  Tree.wellFormed document ->
  Tree.replaced old new document path document' ->
  key new = key old -> kind new = kind old ->
  (if Kind.eqb (kind new) Kind.document then Some new
   else updateDescendant document new) = Some document'.
Proof.
  intros WF Hr Hk Hki.
  pose proof (replaced_old _ _ _ _ _ Hr) as Hold.
  pose proof (kind_document_root _ _ _ WF Hold) as Hroot.
  rewrite Hki. destruct path as [|i rest].
  - rewrite (proj2 Hroot eq_refl). now inversion Hr; subst.
  - destruct (Kind.eqb (kind old) Kind.document).
    + discriminate (proj1 Hroot eq_refl).
    + destruct WF as (_ & U & _).
      eapply replaced_updateDescendant; eauto. discriminate.
Qed.

Lemma wellFormed_replaced old new document path document' :
  Tree.wellFormed document ->
  Tree.replaced old new document path document' ->
  key new = key old -> kind new = kind old ->
  (forall k, count_occ string_dec (getKeys new) k
             <= count_occ string_dec (getKeys old) k)%nat ->
  (Tree.noDocumentBelow old -> Tree.noDocumentBelow new) ->
  Tree.wellFormed document'.
Proof.
  intros (Hk & U & Hb) Hr Hkey Hkind Hc Hnb. repeat split.
  - destruct Hr; [congruence|exact Hk].
  - eapply unique_replaced; eauto.
  - clear Hk U Hc. induction Hr as [|c k ty v d l x r i p x' Hi Hx IH];
      [auto|].
    pose proof (noDocumentBelow_child _ _ _ _ _ _ _ _ Hb) as [Hkx Hbx].
    assert (Hkx' : kind x' <> Kind.document).
    { destruct Hx; [congruence|exact Hkx]. }
    specialize (IH Hbx).
    rewrite noDocumentBelow_Forall in *.
    rewrite Forall_app in *. destruct Hb as [Hl Hr].
    inversion Hr; subst. split; [assumption|]. constructor; auto.
Qed.

Lemma move_node_same_parent state parentPath i j c k ty v d l node r :
  Tree.wellFormed (State.document state) ->
  assertPath (State.document state) parentPath
  = Some (Branch c k ty v d (l ++ node :: r)) ->
  Tree.pointsAt i (List.length l) (List.length r) ->
  exists state',
    APPLIERS.move_node state (parentPath ++ [i]) (parentPath ++ [j])
    = Some state'
    /\ assertPath (State.document state') parentPath
       = Some (Branch c k ty v d (Immutable.insert (l ++ r) (Some j) node)).
Proof.
  intros WF Hparent Hi.
  set (parent := Branch c k ty v d (l ++ node :: r)) in *.
  set (parent1 := Branch c k ty v d (l ++ r)).
  set (parent2 := Branch c k ty v d (Immutable.insert (l ++ r) (Some j) node)).
  destruct (assertPath_replaced parent parent1 _ _ Hparent) as (doc1 & Hr1).
  destruct (assertPath_replaced parent1 parent2 _ _
              (replaced_new _ _ _ _ _ Hr1)) as (doc2 & Hr2).
  assert (WF1 : Tree.wellFormed doc1).
  { eapply wellFormed_replaced; eauto.
    - intros k0. unfold parent, parent1. simpl.
      destruct (string_dec k k0); rewrite !flat_map_app; simpl;
        rewrite !count_occ_app; lia.
    - unfold parent, parent1. rewrite !noDocumentBelow_Forall.
      rewrite !Forall_app. intros [Hl Hr]. inversion Hr; subst. auto. }
  assert (Hnode : assertPath (State.document state) (parentPath ++ [i])
                  = Some node).
  { rewrite assertPath_app, Hparent. simpl. now rewrite get_pointsAt. }
  unfold APPLIERS.move_node, PathOps.last, PathOps.init.
  rewrite !last_snoc, !removelast_last, Hnode.
  destruct WF as (Hk & U & Hb).
  rewrite (getParent_path _ _ _ _ U Hnode), Hparent.
  unfold removeNode. simpl nodes. cbv iota beta.
  rewrite (splice_remove_pointsAt _ _ _ _ Hi). simpl set_nodes.
  fold parent1.
  rewrite (write_back _ _ _ _ _ (conj Hk (conj U Hb)) Hr1 eq_refl eq_refl).
  unfold PathOps.every_equal. rewrite isPrefix_refl, Z.eqb_refl. simpl andb.
  cbv iota. unfold insertNode. simpl nodes. cbv iota beta.
  simpl set_nodes. fold parent2.
  rewrite (write_back _ _ _ _ _ WF1 Hr2 eq_refl eq_refl).
  eexists. split; [reflexivity|].
  simpl State.document. eapply replaced_new; eauto.
Qed.
End MoveFacts.

(** C1 (as amended). For a parent anywhere in a well-formed document whose
    children are [A; B; C], moving [A] (index 0) to index 2 of the same
    parent goes through and leaves the parent with the children
    [B; C; A]: the node is inserted at index 2 of the parent as it is
    after the removal. *)
Theorem C1_move_node_same_parent :
  forall state parentPath c k ty v d A B C,
    Tree.wellFormed (State.document state) ->
    Node.assertPath (State.document state) parentPath
    = Some (Node.Branch c k ty v d [A; B; C]) ->
    exists state',
      APPLIERS.move_node state (parentPath ++ [0]) (parentPath ++ [2])
      = Some state'
      /\ Node.assertPath (State.document state') parentPath
         = Some (Node.Branch c k ty v d [B; C; A]).
Proof.
  intros state parentPath c k ty v d A B C WF Hparent.
  destruct (move_node_same_parent state parentPath 0 2 c k ty v d [] A [B; C]
              WF Hparent) as (state' & Hmove & Hfound).
  - reflexivity.
  - exists state'. split; [exact Hmove|]. exact Hfound.
Qed.

(** * Checking a document by evaluation *)

Lemma distinct_NoDup l : Tree.distinct l = true -> NoDup l.
Proof.
  induction l as [|k ks IH]; simpl; intros H; constructor;
    apply andb_true_iff in H as [H1 H2]; [|auto].
  intros Hin. apply negb_true_iff in H1.
  assert (E : existsb (String.eqb k) ks = true)
    by (apply existsb_exists; exists k; split; [assumption|apply String.eqb_refl]).
  congruence.
Qed.

Lemma noDocumentBelowb_sound n :
  Tree.noDocumentBelowb n = true -> Tree.noDocumentBelow n.
Proof.
  induction n as [k cs|c k ty v d ns IH] using Tree.node_ind;
    [intros; exact I|].
  intros H. apply noDocumentBelow_Forall. simpl in H.
  rewrite forallb_forall in H. rewrite Forall_forall in *.
  intros x Hx. specialize (H x Hx). apply andb_true_iff in H as [H1 H2].
  split; [|auto].
  intros E. rewrite E in H1. discriminate.
Qed.

Lemma wellFormedb_sound document :
  Tree.wellFormedb document = true -> Tree.wellFormed document.
Proof.
  unfold Tree.wellFormedb, Tree.wellFormed. intros H.
  apply andb_true_iff in H as [H H3]. apply andb_true_iff in H as [H1 H2].
  repeat split.
  - destruct (Node.kind document); simpl in H1; congruence.
  - now apply distinct_NoDup.
  - now apply noDocumentBelowb_sound.
Qed.


(** * Splitting a text node *)

Section SplitFacts.
Import Node.

Lemma texts_keys_count n k :
  (count_occ string_dec (map key (getTexts n)) k
   <= count_occ string_dec (getKeys n) k)%nat.
Proof.
  induction n as [k0 cs|c k0 ty v d ns IH] using Tree.node_ind.
  - simpl. lia.
  - simpl getTexts. simpl getKeys.
    assert (H : (count_occ string_dec (map key (flat_map getTexts ns)) k
                 <= count_occ string_dec (flat_map getKeys ns) k)%nat).
    { induction IH as [|x xs Hx Hxs IHxs]; simpl; [lia|].
      rewrite map_app, !count_occ_app. unfold Key in *. lia. }
    simpl. destruct (string_dec k0 k); unfold Key in *; lia.
Qed.

Lemma unique_texts n : Tree.unique n -> NoDup (map key (getTexts n)).
Proof.
  unfold Tree.unique. rewrite !(NoDup_count_occ string_dec).
  intros U k. specialize (U k). pose proof (texts_keys_count n k).
  unfold Key in *. lia.
Qed.

Lemma get_second {A : Type} (x y : A) l : Immutable.get (x :: y :: l) 1 = Some y.
Proof.
  unfold Immutable.get, Immutable.wrapIndex, Immutable.size.
  simpl List.length.
  replace (1 <? 0) with false by reflexivity.
  replace ((0 <=? 1) && (1 <? Z.of_nat (S (S (List.length l))))) with true;
    [reflexivity|].
  symmetry. apply andb_true_iff. split; [reflexivity|].
  apply Z.ltb_lt. lia.
Qed.

(** In a document with unique keys, the text that follows the left half
    of a split is the right half. *)
Lemma getNextText_after pre post k cs cs' k' cs'' document :
  NoDup (map key (pre ++ Text k cs :: post)) ->
  getTexts document = pre ++ Text k cs' :: Text k' cs'' :: post ->
  getNextText document k = Some (Text k' cs'').
Proof.
  intros ND E. unfold getNextText. rewrite E.
  rewrite skipUntil_skip.
  - simpl. rewrite String.eqb_refl. apply get_second.
  - intros y Hy. apply String.eqb_neq. intros Ek.
    rewrite map_app in ND. simpl in ND. apply NoDup_remove_2 in ND.
    apply ND. apply in_app_iff. left. rewrite <- Ek. now apply in_map.
Qed.

Lemma write_back_eqb document path old new document' :
  Tree.unique document ->
  Tree.replaced old new document path document' ->
  key new = key old ->
  (if Node.eqb old document then Some new
   else updateDescendant document new) = Some document'.
Proof.
  intros U Hr Hk.
  pose proof (replaced_old _ _ _ _ _ Hr) as Hold.
  destruct path as [|i rest].
  - inversion Hr; subst. now rewrite eqb_refl.
  - rewrite eqb_key_neq by (eapply unique_below; eauto).
    eapply replaced_updateDescendant; eauto. discriminate.
Qed.

Lemma siblings_differ c k ty v d l x r :
  Tree.unique (Branch c k ty v d (l ++ x :: r)) ->
  forall y, In y l -> Node.eqb y x = false.
Proof.
  intros U y Hy. apply eqb_key_neq. intros E.
  apply unique_children in U as (_ & _ & Hd).
  eapply (Hd y); [apply in_app_iff; now left|apply key_in_getKeys|].
  rewrite E. apply key_in_getKeys.
Qed.

Lemma path_snoc (path : Path) :
  path <> [] -> exists parentPath i, path = parentPath ++ [i].
Proof.
  intros H. destruct (exists_last H) as (p & i & ->). eauto.
Qed.

Lemma halves_key child position k :
  key (fst (halves child position k)) = key child.
Proof. now destruct child. Qed.

(** What [split_node] does to the document: the parent of the node gets
    the two halves in place of the node, and the selection is rebased on
    the text that follows the node in the new document. *)
Lemma split_node_document g state parentPath i position node c kp ty v d l r :
  Tree.wellFormed (State.document state) ->
  assertPath (State.document state) parentPath
  = Some (Branch c kp ty v d (l ++ node :: r)) ->
  Tree.pointsAt i (List.length l) (List.length r) ->
  let newKey := fst (generateKey g) in
  let one := fst (halves node position newKey) in
  let two := snd (halves node position newKey) in
  exists document',
    Tree.replaced (Branch c kp ty v d (l ++ node :: r))
      (Branch c kp ty v d (l ++ one :: two :: r))
      (State.document state) parentPath document'
    /\ APPLIERS.split_node g state (parentPath ++ [i]) position
       = let selection := State.selection state in
         let startKey := Selection.startKey selection in
         let endKey := Selection.endKey selection in
         let startOffset := Selection.startOffset selection in
         let endOffset := Selection.endOffset selection in
         let next := getNextText document' (key node) in
         let? selection :=
           if key_is startKey (key node) && (position <=? startOffset)
           then let? next := next in
                Some (Selection.moveStartTo selection (key next)
                        (startOffset - position))
           else Some selection in
         let? selection :=
           if key_is endKey (key node) && (position <=? endOffset)
           then let? next := next in
                Some (Selection.moveEndTo selection (key next)
                        (endOffset - position))
           else Some selection in
         Some (State.make document' selection, snd (generateKey g)).
Proof.
  intros WF Hparent Hi newKey one two.
  set (parent := Branch c kp ty v d (l ++ node :: r)) in *.
  set (parent' := Branch c kp ty v d (l ++ one :: two :: r)).
  destruct (assertPath_replaced parent parent' _ _ Hparent) as (doc' & Hr).
  pose proof WF as (Hk & U & Hb).
  pose proof (unique_descendant _ _ _ U Hparent) as Up.
  assert (Hnode : assertPath (State.document state) (parentPath ++ [i])
                  = Some node).
  { rewrite assertPath_app, Hparent. simpl. now rewrite get_pointsAt. }
  exists doc'. split; [exact Hr|].
  unfold APPLIERS.split_node. rewrite Hnode.
  rewrite (getParent_path _ _ _ _ U Hnode), Hparent.
  simpl nodes. cbv iota beta.
  rewrite (indexOf_mid Node.eqb l node r
             (siblings_differ _ _ _ _ _ _ _ _ Up) (eqb_refl _)).
  unfold splitNode. simpl nodes. cbv iota beta.
  rewrite (get_pointsAt l node r _ (pointsAt_length _ _)).
  unfold one, two, newKey in *. clear one two newKey.
  destruct (generateKey g) as [k' g'] eqn:Eg. simpl fst in *. simpl snd.
  destruct (halves node position k') as [one two] eqn:Eh.
  simpl fst in *. simpl snd in *.
  unfold removeNode, insertNode. simpl nodes. cbv iota beta.
  rewrite splice_remove_mid. simpl set_nodes. simpl nodes. cbv iota beta.
  rewrite insert_mid. simpl set_nodes. simpl nodes. cbv iota beta.
  rewrite insert_mid. simpl set_nodes.
  fold parent'.
  rewrite (write_back_eqb _ _ _ _ _ U Hr eq_refl).
  reflexivity.
Qed.

(** When the node is a text, the text that follows it in the new document
    is its right half. *)
Lemma split_text_next k cs position newKey c kp ty v d l r document
    parentPath document' :
  Tree.unique document ->
  Tree.replaced (Branch c kp ty v d (l ++ Text k cs :: r))
    (Branch c kp ty v d
       (l ++ Text k (Immutable.take position cs)
          :: Text newKey (Immutable.skip position cs) :: r))
    document parentPath document' ->
  getNextText document' k
  = Some (Text newKey (Immutable.skip position cs)).
Proof.
  intros U Hr.
  destruct (replaced_getTexts _ _ _ _ _ Hr) as (pre & post & E & E').
  simpl in E, E'.
  rewrite flat_map_app in E, E'. simpl in E, E'.
  rewrite <- !app_assoc in E, E'. simpl in E, E'.
  rewrite app_assoc in E, E'.
  eapply getNextText_after; [|exact E'].
  rewrite <- E. now apply unique_texts.
Qed.
End SplitFacts.


(** * Removing text range by range *)

Section SpanFacts.

Lemma substring_length n m s :
  String.length (substring n m s) = Nat.min m (String.length s - n).
Proof.
  revert n m. induction s as [|a s IH]; intros [|n] [|m]; simpl;
    try reflexivity; try (now rewrite IH); try lia.
  - rewrite IH. simpl. lia.
Qed.

Lemma slice_length text s e :
  0 <= s -> 0 <= e ->
  JSString.length (JSString.slice text s e)
  = Z.max 0 (Z.min (JSString.length text) e - Z.min (JSString.length text) s).
Proof.
  intros Hs He. unfold JSString.slice, JSString.length, Immutable.resolveIndex.
  rewrite substring_length.
  destruct (s <? 0) eqn:Es; [apply Z.ltb_lt in Es; lia|].
  destruct (e <? 0) eqn:Ee; [apply Z.ltb_lt in Ee; lia|].
  lia.
Qed.

Lemma characters_text_length cs :
  JSString.length (Node.characters_text cs) = Z.of_nat (List.length cs).
Proof. exact (text_length EmptyString cs). Qed.

Lemma length_String a s :
  JSString.length (String a s) = 1 + JSString.length s.
Proof. unfold JSString.length. simpl String.length. lia. Qed.

Lemma total_cons r rs :
  Span.total (r :: rs) = JSString.length (Range.text r) + Span.total rs.
Proof. reflexivity. Qed.

Lemma runs_total cs :
  Span.total (Node.runs cs) = Z.of_nat (List.length cs).
Proof.
  induction cs as [|c cs IH]; [reflexivity|].
  simpl Node.runs. simpl List.length. rewrite Nat2Z.inj_succ.
  destruct (Node.runs cs) as [|r rs] eqn:E.
  - rewrite total_cons. cbn [Range.text]. rewrite length_String.
    change (Span.total []) with 0 in *.
    change (JSString.length EmptyString) with 0. lia.
  - rewrite total_cons in IH.
    destruct (Mark.same (Character.marks c) (Range.marks r));
      rewrite !total_cons; cbn [Range.text]; rewrite length_String;
      [|change (JSString.length EmptyString) with 0]; lia.
Qed.

Lemma ranges_total cs :
  Span.total (Node.characters_ranges cs) = Z.of_nat (List.length cs).
Proof. destruct cs; [reflexivity|apply runs_total]. Qed.

Lemma total_nonneg ranges : 0 <= Span.total ranges.
Proof.
  induction ranges as [|r rs IH]; simpl; [lia|].
  unfold JSString.length. lia.
Qed.

Lemma run_app ops ops' cs :
  Span.run (ops ++ ops') cs = Span.run ops' (Span.run ops cs).
Proof.
  revert cs. induction ops as [|op ops IH]; intros cs; [reflexivity|].
  destruct op; simpl; apply IH.
Qed.

(** Cutting [S, E) out of a list that already lacks [A, B), where the
    first cut ends where the second began or the second was empty. *)
Lemma cut_before {A : Type} (cs : list A) (S E A' B : nat) :
  (S <= E)%nat -> (E <= A')%nat -> (A' <= List.length cs)%nat ->
  (A' <= B)%nat -> E = A' \/ B = A' ->
  firstn S (firstn A' cs ++ skipn B cs)
  ++ skipn E (firstn A' cs ++ skipn B cs)
  = firstn S cs ++ skipn (if Nat.eqb E A' then B else E) cs.
Proof.
  intros HSE HEA HAL HAB Hcase.
  assert (Hlen : List.length (firstn A' cs) = A')
    by (rewrite length_firstn; lia).
  rewrite firstn_app, skipn_app, Hlen, firstn_firstn.
  replace (S - A')%nat with 0%nat by lia.
  replace (E - A')%nat with 0%nat by lia.
  replace (Nat.min S A') with S by lia.
  simpl. rewrite app_nil_r. f_equal.
  destruct (Nat.eqb_spec E A') as [->|Hne].
  - rewrite skipn_all2 by lia. reflexivity.
  - destruct Hcase as [Heq | ->]; [contradiction|].
    rewrite <- (firstn_skipn A' cs) at 3.
    rewrite skipn_app, Hlen.
    replace (E - A')%nat with 0%nat by lia. reflexivity.
Qed.

Lemma run_removalsFrom path text bx by_ cs :
  JSString.length text = Z.of_nat (List.length cs) ->
  forall ranges o,
    0 <= o -> o + Span.total ranges = Z.of_nat (List.length cs) ->
    Span.run (rev (Transforms.removalsFrom path text bx by_ o ranges)) cs
    = Immutable.take (Z.max o bx) cs
      ++ Immutable.skip (Z.max (Z.max o bx) by_) cs.
Proof.
  intros Htext. unfold Immutable.take, Immutable.skip.
  induction ranges as [|r rs IH]; intros o Ho Htotal.
  - simpl in *. rewrite firstn_all2, skipn_all2 by lia.
    now rewrite app_nil_r.
  - simpl in Htotal. pose proof (total_nonneg rs) as Hrs.
    set (len := JSString.length (Range.text r)) in *.
    assert (Hlen : 0 <= len) by (unfold len, JSString.length; lia).
    change (Transforms.removalsFrom path text bx by_ o (r :: rs))
      with (if (o + len <? bx) || (by_ <? o)
            then Transforms.removalsFrom path text bx by_ (o + len) rs
            else Operation.remove_text path (Z.max o bx)
                   (JSString.slice text (Z.max o bx) (Z.min (o + len) by_))
                 :: Transforms.removalsFrom path text bx by_ (o + len) rs).
    specialize (IH (o + len) ltac:(lia) ltac:(lia)).
    destruct (Z.ltb_spec (o + len) bx) as [H1|H1]; simpl orb.
    + cbv iota. rewrite IH. now replace (Z.max (o + len) bx) with (Z.max o bx) by lia.
    + destruct (Z.ltb_spec by_ o) as [H2|H2]; cbv iota.
      * rewrite IH.
        replace (Z.max (Z.max (o + len) bx) by_) with (Z.max (o + len) bx)
          by lia.
        replace (Z.max (Z.max o bx) by_) with (Z.max o bx) by lia.
        now rewrite !firstn_skipn.
      * simpl rev. rewrite run_app, IH. simpl Span.run.
        unfold Span.remove, Immutable.take, Immutable.skip.
        rewrite slice_length by lia. rewrite Htext.
        replace (Z.max (o + len) bx) with (o + len) by lia.
        rewrite (cut_before cs) by lia.
        f_equal. f_equal.
        destruct (Nat.eqb_spec
                    (Z.to_nat
                       (Z.max (Z.max o bx)
                          (Z.max o bx
                           + Z.max 0
                               (Z.min (Z.of_nat (List.length cs))
                                  (Z.min (o + len) by_)
                                - Z.min (Z.of_nat (List.length cs))
                                    (Z.max o bx)))))
                    (Z.to_nat (o + len))); lia.
Qed.

Lemma substring_none n s : substring n 0 s = EmptyString.
Proof.
  revert n. induction s as [|a s IH]; intros [|n]; simpl; auto.
Qed.

(** The slice between two bounds that are not negative is empty when
    the second is not behind the first. *)
Lemma slice_empty text s e :
  0 <= e <= s -> JSString.slice text s e = EmptyString.
Proof.
  intros H. unfold JSString.slice, Immutable.resolveIndex.
  destruct (s <? 0) eqn:Es; [apply Z.ltb_lt in Es; lia|].
  destruct (e <? 0) eqn:Ee; [apply Z.ltb_lt in Ee; lia|].
  replace (Z.to_nat (Z.min (JSString.length text) e)
           - Z.to_nat (Z.min (JSString.length text) s))%nat with 0%nat by lia.
  apply substring_none.
Qed.

Lemma extents_ordered ranges :
  forall o extent,
    In extent (Span.extents o ranges) -> o <= fst extent <= snd extent.
Proof.
  induction ranges as [|r rs IH]; intros o extent; simpl; [intros []|].
  pose proof (Zle_0_nat (String.length (Range.text r))) as Hr.
  unfold JSString.length in *. intros [<-|Hin]; simpl; [lia|].
  apply IH in Hin. lia.
Qed.

(** The removal made for a fragment that reaches the span without
    overlapping it carries the empty string. *)
Lemma removal_of_touching text bx by_ ranges extent :
  In extent (Span.extents 0 ranges) ->
  Span.reaches bx by_ extent = true ->
  Span.overlaps bx by_ extent = false ->
  JSString.slice text (Z.max (fst extent) bx) (Z.min (snd extent) by_)
  = EmptyString.
Proof.
  intros Hin Hr Ho. apply extents_ordered in Hin.
  unfold Span.reaches in Hr. unfold Span.overlaps in Ho.
  apply negb_true_iff, orb_false_iff in Hr as [H1 H2].
  apply Z.ltb_ge in H1, H2, Ho. apply slice_empty. lia.
Qed.

Lemma removalsFrom_declarative path text bx by_ ranges :
  Transforms.removalsFrom path text bx by_ 0 ranges
  = Span.removals path text bx by_ ranges.
Proof.
  unfold Span.removals. generalize 0 as o.
  induction ranges as [|r rs IH]; intros o; [reflexivity|].
  change (Transforms.removalsFrom path text bx by_ o (r :: rs))
    with (if (o + JSString.length (Range.text r) <? bx) || (by_ <? o)
          then Transforms.removalsFrom path text bx by_
                 (o + JSString.length (Range.text r)) rs
          else Operation.remove_text path (Z.max o bx)
                 (JSString.slice text (Z.max o bx)
                    (Z.min (o + JSString.length (Range.text r)) by_))
               :: Transforms.removalsFrom path text bx by_
                    (o + JSString.length (Range.text r)) rs).
  simpl Span.extents. simpl filter. unfold Span.reaches at 1. simpl fst.
  simpl snd. rewrite IH.
  destruct ((o + JSString.length (Range.text r) <? bx) || (by_ <? o));
    reflexivity.
Qed.
End SpanFacts.

Section ByKeyFacts.
Import Node.

(** The path found for a key leads to the node found for that key. *)
Lemma descendant_path n k :
  match getDescendant n k, getDescendantPath n k with
  | Some m, Some p => assertPath n p = Some m
  | None, None => True
  | _, _ => False
  end.
Proof.
  induction n as [k0 cs|c k0 ty v d ns IH] using Tree.node_ind;
    [exact I|].
  simpl getDescendant. simpl getDescendantPath.
  assert (H : forall done rest,
    Forall (fun n =>
              match getDescendant n k, getDescendantPath n k with
              | Some m, Some p => assertPath n p = Some m
              | None, None => True
              | _, _ => False
              end) rest ->
    match
      Immutable.findMap
        (fun c => if String.eqb (key c) k then Some c else getDescendant c k)
        rest,
      Immutable.findMapFrom
        (fun i c =>
           if String.eqb (key c) k then Some [i]
           else option_map (cons i) (getDescendantPath c k))
        (Z.of_nat (List.length done)) rest
    with
    | Some m, Some p =>
        assertPath (Branch c k0 ty v d (done ++ rest)) p = Some m
    | None, None => True
    | _, _ => False
    end).
  { intros done rest Hrest. revert done.
    induction Hrest as [|x xs Hx Hxs IHxs]; intros done; [exact I|].
    simpl. destruct (String.eqb (key x) k).
    - simpl. now rewrite get_pointsAt by apply pointsAt_length.
    - destruct (getDescendant x k) as [m|],
        (getDescendantPath x k) as [p|]; simpl; try contradiction.
      + now rewrite get_pointsAt by apply pointsAt_length.
      + specialize (IHxs (done ++ [x])).
        rewrite length_app, Nat2Z.inj_add in IHxs. simpl in IHxs.
        now rewrite <- app_assoc in IHxs. }
  exact (H [] ns IH).
Qed.

Lemma getNode_getPath n k node :
  getNode n k = Some node ->
  exists path, getPath n k = Some path /\ assertPath n path = Some node.
Proof.
  unfold getNode, getPath. destruct (String.eqb (key n) k).
  - intros H. inversion H; subst. now exists [].
  - intros H. pose proof (descendant_path n k) as D. rewrite H in D.
    destruct (getDescendantPath n k) as [p|]; [|contradiction]. eauto.
Qed.

Lemma getNode_key n k node : getNode n k = Some node -> key node = k.
Proof.
  unfold getNode. destruct (String.eqb (key n) k) eqn:E.
  - intros H. inversion H; subst. now apply String.eqb_eq.
  - intros H. now apply getDescendant_keys in H.
Qed.

(** Under unique keys, looking a node up by its key finds the node. *)
Lemma getNode_unique n path node :
  Tree.unique n -> assertPath n path = Some node ->
  getNode n (key node) = Some node.
Proof.
  revert n. induction path as [|i path IH]; intros n U H.
  - simpl in H. inversion H; subst. unfold getNode.
    now rewrite String.eqb_refl.
  - pose proof (unique_below _ _ _ _ U H) as Hne.
    unfold getNode. rewrite (proj2 (String.eqb_neq _ _)) by congruence.
    simpl in H. destruct n as [|c k ty v d ns]; simpl in H; [discriminate|].
    destruct (Immutable.get ns i) as [x|] eqn:G; [|discriminate].
    destruct (get_inv _ _ _ G) as (l & r & -> & _).
    pose proof (unique_children _ _ _ _ _ _ _ _ U) as (Ux & Hk & Hd).
    assert (Hm : In (key node) (getKeys x))
      by (eapply assertPath_keys; [eassumption|apply key_in_getKeys]).
    simpl. apply findMap_mid.
    + intros y Hy.
      assert (Hy' : In y (l ++ r)) by (apply in_app_iff; now left).
      destruct (String.eqb (key y) (key node)) eqn:E.
      * apply String.eqb_eq in E. exfalso.
        eapply (Hd y Hy'); [apply key_in_getKeys|now rewrite E].
      * destruct (getDescendant y (key node)) eqn:D; [|reflexivity].
        apply getDescendant_keys in D as [D _]. exfalso.
        eapply (Hd y Hy'); [exact D|exact Hm].
    + exact (IH x Ux H).
Qed.

Lemma remove_text_step state i rest offset text k cs :
  Tree.unique (State.document state) ->
  assertPath (State.document state) (i :: rest) = Some (Text k cs) ->
  exists state',
    APPLIERS.remove_text state (i :: rest) offset text = Some state'
    /\ Tree.unique (State.document state')
    /\ assertPath (State.document state') (i :: rest)
       = Some (Text k (Span.remove cs offset (JSString.length text))).
Proof.
  intros U Hpath.
  set (node' := Text k (Span.remove cs offset (JSString.length text))).
  destruct (assertPath_replaced (Text k cs) node' _ _ Hpath) as (doc' & Hr).
  unfold APPLIERS.remove_text. rewrite Hpath. simpl removeText.
  cbv iota beta. fold (Span.remove cs offset (JSString.length text)).
  fold node'.
  rewrite (replaced_updateDescendant _ _ _ _ _ Hr U eq_refl)
    by discriminate.
  eexists. split; [reflexivity|]. simpl State.document. split.
  - eapply unique_replaced; eauto.
  - eapply replaced_new; eauto.
Qed.
End ByKeyFacts.

Section RemoveTextByKey.
Import Node.
Variable normalizer :
  Key -> State.t * KeyGenerator -> option (State.t * KeyGenerator).

Lemma forEach_remove_texts i rest k ops :
  Forall (fun op => exists o t, op = Operation.remove_text (i :: rest) o t)
    ops ->
  forall transform cs,
    Tree.unique (State.document (Transforms.state transform)) ->
    assertPath (State.document (Transforms.state transform)) (i :: rest)
    = Some (Text k cs) ->
    exists transform',
      Transforms.forEach (Transforms.applyOperation) ops transform
      = Some transform'
      /\ Transforms.trace transform'
         = Transforms.trace transform ++ map Transforms.Applied ops
      /\ Transforms.keys transform' = Transforms.keys transform
      /\ Tree.unique (State.document (Transforms.state transform'))
      /\ assertPath (State.document (Transforms.state transform'))
           (i :: rest)
         = Some (Text k (Span.run ops cs)).
Proof.
  induction 1 as [|op ops (o & t & ->) Hops IH]; intros transform cs U Hpath.
  - exists transform. simpl. rewrite app_nil_r. auto.
  - destruct (remove_text_step _ i rest o t k cs U Hpath)
      as (state' & Hstep & U' & Hpath').
    simpl Transforms.forEach. unfold Transforms.applyOperation at 1.
    simpl Apply.applyOperation. rewrite Hstep.
    destruct (IH (Transforms.make state' (Transforms.keys transform)
                    (Transforms.trace transform
                     ++ [Transforms.Applied
                           (Operation.remove_text (i :: rest) o t)]))
                _ U' Hpath')
      as (transform' & Hrun & Htrace & Hkeys & U'' & Hpath'').
    exists transform'. split; [exact Hrun|]. simpl in Htrace, Hkeys.
    rewrite Htrace, <- app_assoc. auto.
Qed.

Lemma removals_shape path text bx by_ ranges :
  Forall (fun op => exists o t, op = Operation.remove_text path o t)
    (Span.removals path text bx by_ ranges).
Proof.
  unfold Span.removals. apply Forall_map, Forall_forall. eauto.
Qed.
End RemoveTextByKey.

(** X27. On a well-formed document, [removeTextByKey] on a Text node
    builds one [remove_text] per range fragment that reaches the span
    from [offset] to [offset + length], that is, overlaps it or only
    touches it.  Each carries what the fragment and the span have in
    common, which is the empty string for a fragment that does not
    overlap the span.  The removals are applied last to first.  The
    text node then holds the original characters without those at the
    positions of the span, wherever the range boundaries fall; with
    normalization on, the closest block is normalized afterwards. *)
Theorem removeTextByKey_removes_span :
  forall normalizer transform key offset length options cs,
    let document := State.document (Transforms.state transform) in
    Tree.wellFormed document ->
    Node.getNode document key = Some (Node.Text key cs) ->
    exists path removed,
      let text := Node.characters_text cs in
      let ranges := Node.characters_ranges cs in
      let removals :=
        Span.removals path text offset (offset + length) ranges in
      Node.getPath document key = Some path
      /\ Transforms.trace removed
         = Transforms.trace transform ++ map Transforms.Applied (rev removals)
      /\ (forall extent,
            In extent (Span.extents 0 ranges) ->
            Span.reaches offset (offset + length) extent = true ->
            Span.overlaps offset (offset + length) extent = false ->
            JSString.slice text (Z.max (fst extent) offset)
              (Z.min (snd extent) (offset + length))
            = EmptyString)
      /\ Node.getNode (State.document (Transforms.state removed)) key
         = Some (Node.Text key (Span.remove cs offset length))
      /\ Transforms.removeTextByKey normalizer transform key offset length
           options
         = if Transforms.normalize_of options
           then match Node.getClosestBlock document key with
                | Some block =>
                    Transforms.normalizeNodeByKey normalizer removed
                      (Node.key block)
                | None => None
                end
           else Some removed.
Proof.
  intros normalizer transform key offset length options cs document
    (Hkind & U & Hb) Hnode.
  destruct (getNode_getPath _ _ _ Hnode) as (path & Hgp & Hpath).
  destruct (text_below_document _ _ _ Hkind Hpath eq_refl) as (i & rest & ->).
  destruct (forEach_remove_texts i rest key
              (rev (Span.removals (i :: rest) (Node.characters_text cs) offset
                      (offset + length) (Node.characters_ranges cs)))
              (Forall_rev (removals_shape _ _ _ _ _)) transform cs U Hpath)
    as (removed & Hrun & Htrace & _ & U' & Hpath').
  exists (i :: rest), removed. cbv zeta.
  split; [exact Hgp|]. split; [exact Htrace|].
  split; [intros extent; apply removal_of_touching|]. split.
  - rewrite <- removalsFrom_declarative in Hpath'.
    rewrite (run_removalsFrom _ _ _ _ cs (characters_text_length cs))
      in Hpath'; [| lia | rewrite ranges_total; lia].
    replace (Immutable.take (Z.max 0 offset) cs
             ++ Immutable.skip (Z.max (Z.max 0 offset) (offset + length)) cs)
      with (Span.remove cs offset length) in Hpath'.
    + exact (getNode_unique _ _ _ U' Hpath').
    + unfold Span.remove, Immutable.take, Immutable.skip.
      f_equal; f_equal; lia.
  - unfold Transforms.removeTextByKey. fold document.
    rewrite Hgp, Hnode. simpl Node.getRanges. cbv iota beta.
    simpl Node.text. rewrite removalsFrom_declarative, Hrun.
    reflexivity.
Qed.

(** * Splitting down to a text descendant *)

Section SplitDescendants.
Variable normalizer :
  Key -> State.t * KeyGenerator -> option (State.t * KeyGenerator).

Lemma skipUntil_first {A : Type} (p : A -> bool) (l : list A) :
  (exists x, In x l /\ p x = true) ->
  exists upper top lower,
    l = upper ++ top :: lower
    /\ p top = true
    /\ (forall a, In a upper -> p a = false)
    /\ Immutable.skipUntil p l = top :: lower.
Proof.
  induction l as [|y l IH]; intros (x & Hin & Hx); [destruct Hin|].
  simpl. destruct (p y) eqn:Hy.
  - exists [], y, l. repeat split; auto. intros a [].
  - destruct Hin as [->|Hin]; [congruence|].
    destruct IH as (upper & top & lower & -> & Ht & Hu & Hs); [eauto|].
    exists (y :: upper), top, lower. repeat split; auto.
    intros a [<-|Ha]; auto.
Qed.

Lemma last_cons {A : Type} (l : list A) :
  forall x d, List.last (x :: l) d = List.last l x.
Proof.
  induction l as [|y l IH]; intros x d; [reflexivity|].
  change (List.last (x :: y :: l) d) with (List.last (y :: l) d).
  now rewrite !IH.
Qed.

Lemma forEach_cons {A S : Type} (f : S -> A -> option S) x l s :
  Transforms.forEach f (x :: l) s
  = match f s x with
    | Some s' => Transforms.forEach f l s'
    | None => None
    end.
Proof. reflexivity. Qed.

Lemma splitStep_first textOffset transform node :
  Transforms.splitStep normalizer textOffset (transform, None) node
  = match Transforms.splitNodeByKey normalizer transform (Node.key node)
            textOffset (Transforms.options (Some false)) with
    | Some transform' => Some (transform', Some node)
    | None => None
    end.
Proof. reflexivity. Qed.

(** The loop over the nodes does what the plan says. *)
Lemma forEach_splitStep textOffset nodes :
  forall transform previous,
    Transforms.forEach (Transforms.splitStep normalizer textOffset) nodes
      (transform, Some previous)
    = match Transforms.planAbove previous nodes with
      | Some plan =>
          match Transforms.splitAll normalizer plan transform with
          | Some split => Some (split, Some (List.last nodes previous))
          | None => None
          end
      | None => None
      end.
Proof.
  induction nodes as [|node rest IH]; intros transform previous;
    [reflexivity|].
  simpl Transforms.forEach. simpl Transforms.planAbove.
  unfold Transforms.splitStep at 1.
  destruct (Node.nodes node) as [ns|]; [|reflexivity].
  unfold Transforms.splitAll.
  destruct (Transforms.splitNodeByKey normalizer transform (Node.key node)
              (Immutable.indexOf Node.eqb ns previous + 1)
              (Transforms.options (Some false))) as [transform'|] eqn:E.
  - rewrite IH. destruct (Transforms.planAbove node rest) as [plan|];
      [|reflexivity].
    simpl Transforms.forEach. rewrite E. unfold Transforms.splitAll.
    destruct (Transforms.forEach _ plan transform'); [|reflexivity].
    now rewrite last_cons.
  - destruct (Transforms.planAbove node rest) as [plan|]; [|reflexivity].
    simpl Transforms.forEach. now rewrite E.
Qed.

Lemma splitNodeByKey_trace transform k index transform' :
  Transforms.splitNodeByKey normalizer transform k index
    (Transforms.options (Some false)) = Some transform' ->
  exists path,
    Node.getPath (State.document (Transforms.state transform)) k = Some path
    /\ Transforms.trace transform'
       = Transforms.trace transform
         ++ [Transforms.Applied (Operation.split_node path index)].
Proof.
  unfold Transforms.splitNodeByKey, Transforms.applyOperation. intros H.
  step H. step H. simpl in H. inversion H; subst transform'; clear H.
  rename E0 into Happly. step Happly.
  destruct p0 as [s g]. inversion Happly; subst. simpl. eauto.
Qed.

(** The splits leave one [split_node] each in the trace, and nothing
    else. *)
Lemma splitAll_trace plan :
  forall transform split,
    Transforms.splitAll normalizer plan transform = Some split ->
    exists paths,
      List.length paths = List.length plan
      /\ Transforms.trace split
         = Transforms.trace transform
           ++ map (fun entry =>
                     Transforms.Applied
                       (Operation.split_node (fst entry) (snd (snd entry))))
                (combine paths plan).
Proof.
  unfold Transforms.splitAll.
  induction plan as [|[k index] plan IH]; intros transform split H.
  - simpl in H. inversion H; subst. exists []. simpl.
    now rewrite app_nil_r.
  - simpl in H. step H.
    destruct (splitNodeByKey_trace _ _ _ _ E) as (path & _ & Ht).
    destruct (IH _ _ H) as (paths & Hlen & Hts).
    exists (path :: paths). split; [simpl; congruence|].
    rewrite Hts, Ht, <- app_assoc. reflexivity.
Qed.
End SplitDescendants.

(** C2 (as amended).  When [key] differs from [textKey] and names an
    ancestor [top] of the text node, [splitDescendantsByKey] splits the
    text node at [textOffset] and then each of its ancestors from its
    parent up to and including [top], each at the position of the node
    below it among its children plus one.  Every one of these splits is
    made with normalization switched off, so they leave exactly one
    [split_node] each in the trace; afterwards, unless the options
    switch it off, the parent of [top] is normalized, once. *)
Theorem C2_splitDescendantsByKey_plan :
  forall normalizer transform key textKey textOffset options text ancestors,
    let document := State.document (Transforms.state transform) in
    key <> textKey ->
    Node.getNode document textKey = Some text ->
    Node.getAncestors document textKey = Some ancestors ->
    In key (map Node.key ancestors) ->
    exists upper top lower,
      ancestors = upper ++ top :: lower
      /\ Node.key top = key
      /\ (forall a, In a upper -> Node.key a <> key)
      /\ Transforms.splitDescendantsByKey normalizer transform key textKey
           textOffset options
         = match Transforms.splitPlan textOffset
                   (text :: rev lower ++ [top]) with
           | Some plan =>
               match Transforms.splitAll normalizer plan transform with
               | Some split =>
                   if Transforms.normalize_of options
                   then match Node.getParent document key with
                        | Some parent =>
                            Transforms.normalizeNodeByKey normalizer split
                              (Node.key parent)
                        | None => None
                        end
                   else Some split
               | None => None
               end
           | None => None
           end
      /\ forall plan split,
           Transforms.splitPlan textOffset (text :: rev lower ++ [top])
           = Some plan ->
           Transforms.splitAll normalizer plan transform = Some split ->
           map fst plan
           = Node.key text :: map Node.key (rev lower) ++ [key]
           /\ exists paths,
                List.length paths = List.length plan
                /\ Transforms.trace split
                   = Transforms.trace transform
                     ++ map (fun entry =>
                               Transforms.Applied
                                 (Operation.split_node (fst entry)
                                    (snd (snd entry))))
                          (combine paths plan).
Proof.
  intros normalizer transform key textKey textOffset options text ancestors
    document Hne Htext Hanc Hin.
  destruct (skipUntil_first (fun a => String.eqb (Node.key a) key) ancestors)
    as (upper & top & lower & Hsplit & Htop & Hupper & Hskip).
  { apply in_map_iff in Hin as (a & Ha & Hin). exists a.
    split; [assumption|]. now apply String.eqb_eq. }
  apply String.eqb_eq in Htop.
  exists upper, top, lower. split; [exact Hsplit|]. split; [exact Htop|].
  split; [intros a Ha; apply String.eqb_neq; auto|]. split.
  - unfold Transforms.splitDescendantsByKey.
    rewrite (proj2 (String.eqb_neq key textKey) Hne).
    unfold Transforms.splitNodes. fold document. rewrite Htext, Hanc, Hskip.
    simpl rev. rewrite forEach_cons, splitStep_first.
    unfold Transforms.splitPlan.
    destruct (Transforms.splitNodeByKey normalizer transform (Node.key text)
                textOffset (Transforms.options (Some false)))
      as [transform'|] eqn:E.
    + rewrite forEach_splitStep.
      destruct (Transforms.planAbove text (rev lower ++ [top])) as [plan|];
        [|reflexivity].
      unfold Transforms.splitAll at 2. simpl Transforms.forEach. rewrite E.
      fold (Transforms.splitAll normalizer plan transform').
      destruct (Transforms.splitAll normalizer plan transform');
        reflexivity.
    + destruct (Transforms.planAbove text (rev lower ++ [top])) as [plan|];
        [|reflexivity].
      unfold Transforms.splitAll. simpl Transforms.forEach. now rewrite E.
  - intros plan split Hplan Hall. split.
    + unfold Transforms.splitPlan in Hplan.
      destruct (Transforms.planAbove text (rev lower ++ [top])) as [above|] eqn:E;
        [|discriminate].
      inversion Hplan; subst plan. simpl. f_equal.
      rewrite <- Htop.
      change [Node.key top] with (map Node.key [top]).
      rewrite <- (map_app Node.key (rev lower) [top]).
      clear -E. revert text above E.
      induction (rev lower ++ [top]) as [|n ns IH]; intros previous above E;
        simpl in E.
      * now inversion E.
      * destruct (Node.nodes n); [|discriminate].
        destruct (Transforms.planAbove n ns) eqn:E'; [|discriminate].
        inversion E; subst. simpl. f_equal. eauto.
    + eapply splitAll_trace; eauto.
Qed.
(** * Removing a node *)

Section RemoveFacts.
Import Node.

Lemma last_none {A : Type} (l : list A) : Immutable.last l = None -> l = [].
Proof.
  induction l as [|x l IH]; [reflexivity|].
  simpl. destruct l; [discriminate|]. intros H. specialize (IH H).
  discriminate.
Qed.

Lemma get_second_none {A : Type} (x : A) (l : list A) :
  Immutable.get (x :: l) 1 = None -> l = [].
Proof.
  destruct l as [|y l]; [reflexivity|]. now rewrite get_second.
Qed.

(** A text with neither a previous nor a next text is the only text. *)
Lemma only_text (texts : list Node.t) k :
  In k (map key texts) ->
  Immutable.last (Immutable.takeUntil (fun x => String.eqb (key x) k) texts)
  = None ->
  Immutable.get (Immutable.skipUntil (fun x => String.eqb (key x) k) texts) 1
  = None ->
  forall k', In k' (map key texts) -> k' = k.
Proof.
  destruct texts as [|x xs]; [intros []|].
  simpl. destruct (String.eqb (key x) k) eqn:E.
  - intros _ _ Hnext k' [<-|Hin].
    + now apply String.eqb_eq.
    + apply get_second_none in Hnext. subst xs. destruct Hin.
  - intros _ Hprev. apply last_none in Hprev. discriminate.
Qed.

Lemma relocation_only_text document k k' :
  In k (map key (getTexts document)) ->
  In k' (map key (getTexts document)) ->
  relocation document k = None -> k' = k.
Proof.
  unfold relocation, getPreviousText, getNextText. intros Hk Hk'.
  destruct (Immutable.last _) eqn:Hprev; [discriminate|].
  destruct (Immutable.get _ 1) eqn:Hnext; [discriminate|].
  intros _. eapply only_text; eauto.
Qed.

Lemma previous_text_key document k prev :
  getPreviousText document k = Some prev -> key prev <> k.
Proof.
  unfold getPreviousText. induction (getTexts document) as [|x l IH]; simpl;
    [discriminate|].
  destruct (String.eqb (key x) k) eqn:E; [discriminate|].
  destruct (Immutable.takeUntil (fun x0 => String.eqb (key x0) k) l) eqn:Et.
  - intros H. inversion H; subst. now apply String.eqb_neq.
  - exact IH.
Qed.

Lemma next_text_key document k next :
  Tree.unique document ->
  getNextText document k = Some next -> key next <> k.
Proof.
  intros U. apply unique_texts in U. revert U. unfold getNextText.
  induction (getTexts document) as [|x l IH]; simpl; [discriminate|].
  intros U. inversion U as [|? ? Hx Hl]; subst.
  destruct (String.eqb (key x) k) eqn:E; [|now apply IH].
  apply String.eqb_eq in E. destruct l as [|y l]; [discriminate|].
  rewrite get_second. intros H. inversion H; subst.
  intros Hk. apply Hx. simpl. left. congruence.
Qed.

(** What a [remove_node] that goes through does to a selection that is
    not backward, when both points sit on texts of the document and the
    focus is not on the text in front of the anchor's text: a point on a
    text inside the removed node goes to the end of the text before that
    text, else to the start of the text after it, and when there is
    neither the selection is cleared; a point outside the removed node
    stays.  The text a point goes to is found from the point's own text,
    so it can lie inside the removed node. *)
Lemma remove_node_relocates state path node state' :
  Tree.unique (State.document state) ->
  APPLIERS.remove_node state path = Some state' ->
  assertPath (State.document state) path = Some node ->
  Selection.isSet (State.selection state) = true ->
  (forall k,
     Selection.anchorKey (State.selection state) = Some k
     \/ Selection.focusKey (State.selection state) = Some k ->
     In k (map key (getTexts (State.document state)))) ->
  Selection.backward (State.selection state) = false ->
  0 <= Selection.focusOffset (State.selection state) ->
  (forall k prev,
     Selection.anchorKey (State.selection state) = Some k ->
     getPreviousText (State.document state) k = Some prev ->
     Selection.focusKey (State.selection state) <> Some (key prev)) ->
  forall endpoint,
    endpoint = Selection.anchor \/ endpoint = Selection.focus ->
    exists k,
      fst (endpoint (State.selection state)) = Some k
      /\ if hasNode node (Some k)
         then match relocation (State.document state) k with
              | Some point => endpoint (State.selection state') = point
              | None =>
                  State.selection state'
                  = Selection.deselect (State.selection state)
              end
         else endpoint (State.selection state')
              = endpoint (State.selection state).
Proof.
  intros U H Hpath Hset Htexts Hfw Hfo Hprev endpoint Hp.
  unfold APPLIERS.remove_node in H. rewrite Hpath, Hset in H.
  set (document := State.document state) in *.
  destruct (State.selection state) as [ak ao fk fo bw fc].
  unfold Selection.isSet in Hset. simpl in Hset.
  destruct ak as [ak|]; [|discriminate]. destruct fk as [fk|]; [|discriminate].
  set (s := Selection.make (Some ak) ao (Some fk) fo bw fc) in *.
  assert (Eks : Selection.startKey s = Some ak)
    by (unfold Selection.startKey; now rewrite Hfw).
  assert (Eke : Selection.endKey s = Some fk)
    by (unfold Selection.endKey; now rewrite Hfw).
  pose proof (Htexts ak (or_introl eq_refl)) as Hks.
  pose proof (Htexts fk (or_intror eq_refl)) as Hke.
  pose proof (relocation_only_text document ak fk Hks Hke) as Hs_only.
  pose proof (relocation_only_text document fk ak Hke Hks) as He_only.
  specialize (Hprev ak). simpl in Hprev, Hfo.
  unfold relocation in *. rewrite Eks, Eke in H.
  (* the selection after both updates *)
  step H. rename E into Hselection. repeat step H.
  inversion H; subst state'; clear H. simpl State.selection.
  assert (Estart : forall k o, Selection.moveStartTo s k o
                               = Selection.moveAnchorTo s k o)
    by (intros; unfold Selection.moveStartTo; now rewrite Hfw).
  assert (Eend : forall k o, Selection.moveEndTo s k o
                             = Selection.moveFocusTo s k o)
    by (intros; unfold Selection.moveEndTo; now rewrite Hfw).
  assert (Eend' : forall k1 o1 k o,
            (key_is (Some fk) k1 = true -> o1 <= fo) ->
            key_is (Some ak) k1 = false ->
            Selection.moveEndTo (Selection.moveAnchorTo s k1 o1) k o
            = Selection.moveFocusTo (Selection.moveAnchorTo s k1 o1) k o).
  { intros k1 o1 k o Hle Hne. unfold Selection.moveEndTo, Selection.backward.
    simpl. unfold key_is in Hle, Hne.
    destruct (String.eqb fk k1); [|now rewrite Hne].
    destruct (Z.gtb_spec o1 fo); [|reflexivity]. specialize (Hle eq_refl). lia. }
  destruct Hp as [-> | ->]; [exists ak|exists fk];
    (split; [reflexivity|]);
    revert Hs_only He_only Hselection Hprev;
    destruct (hasNode node (Some ak)) eqn:Hs;
    destruct (hasNode node (Some fk)) eqn:He;
    destruct (getPreviousText document ak) as [ps|] eqn:Eps;
    destruct (getNextText document ak) as [ns|] eqn:Ens;
    destruct (getPreviousText document fk) as [pe|] eqn:Epe;
    destruct (getNextText document fk) as [ne|] eqn:Ene;
    simpl; rewrite ?Estart, ?Eend; intros Hs_only He_only Hselection Hprev;
    inversion Hselection; subst;
    try reflexivity;
    try (specialize (Hs_only eq_refl); congruence);
    try (specialize (He_only eq_refl); congruence).
  all: rewrite Eend';
    [reflexivity
    |first [intros _; exact Hfo
           |intros Hk; apply key_is_spec in Hk; exfalso;
            now apply (Hprev _ eq_refl eq_refl)]
    |apply key_is_neq; intros Hk; inversion Hk as [Hk'];
     first [now apply (previous_text_key document ak ps)
           |now apply (next_text_key document ak ns)]].
Qed.
End RemoveFacts.

(** * The claims at sample documents *)

Section Samples.
Local Open Scope string_scope.

Lemma C1_counterexample :
  exists state',
    APPLIERS.move_node Examples.abc [0] [2] = Some state'
    /\ Node.nodes (State.document state')
       = Some [Examples.B; Examples.C; Examples.A]
    /\ Node.nodes (State.document state')
       <> Some [Examples.B; Examples.A; Examples.C].
Proof.
  eexists. split; [vm_compute; reflexivity|].
  split; [reflexivity|discriminate].
Qed.

Lemma C1_witness :
  exists state',
    APPLIERS.move_node Examples.abc ([] ++ [0])%list ([] ++ [2])%list
    = Some state'
    /\ Node.assertPath (State.document state') []
       = Some (Examples.document [Examples.B; Examples.C; Examples.A]).
Proof.
  apply (C1_move_node_same_parent Examples.abc []).
  - apply wellFormedb_sound. vm_compute. reflexivity.
  - reflexivity.
Defined.

Lemma C3_witness :
  (exists state',
     APPLIERS.insert_text Examples.single [0; 0] 3 "xy" None = Some state'
     /\ Selection.anchorOffset (State.selection state') = 7)
  /\ (exists state',
        APPLIERS.insert_text Examples.single [0; 0] 6 "xy" None = Some state'
        /\ Selection.anchorOffset (State.selection state') = 5).
Proof.
  split.
  - destruct (C3_insert_text_rebases_selection Examples.single [0; 0] 3
                "xy" None (Examples.text "T" "abcdefgh")
                eq_refl eq_refl eq_refl) as (state' & Happly & Hpoints).
    exists state'. split; [exact Happly|].
    destruct (Hpoints Selection.anchor (or_introl eq_refl))
      as (_ & Hmoved & _).
    simpl in Hmoved. rewrite Hmoved; [reflexivity|reflexivity|lia].
  - destruct (C3_insert_text_rebases_selection Examples.single [0; 0] 6
                "xy" None (Examples.text "T" "abcdefgh")
                eq_refl eq_refl eq_refl) as (state' & Happly & Hpoints).
    exists state'. split; [exact Happly|].
    destruct (Hpoints Selection.anchor (or_introl eq_refl))
      as (_ & _ & Hkept & _).
    simpl in Hkept. rewrite Hkept; [reflexivity|lia].
Defined.

Lemma C4_witness :
  exists state',
    APPLIERS.remove_text Examples.single [0; 0] 1 "bc" = Some state'
    /\ Selection.anchor (State.selection state') = (Some "T", 3)
    /\ exists state'',
         APPLIERS.remove_text Examples.single [0; 0] 4 "ef" = Some state''
         /\ Selection.anchor (State.selection state'')
            = (Some "T", 5).
Proof.
  destruct (C4_remove_text_rebases_selection Examples.single [0; 0] 1 "bc"
              (Examples.text "T" "abcdefgh") eq_refl eq_refl eq_refl)
    as (state' & Happly & Hpoints).
  exists state'. split; [exact Happly|]. split.
  - destruct (Hpoints Selection.anchor (or_introl eq_refl))
      as (Hkey & Hmoved & _).
    simpl in Hkey, Hmoved. unfold Selection.anchor in *. simpl in *.
    rewrite Hkey, Hmoved; [reflexivity|reflexivity|lia].
  - destruct (C4_remove_text_rebases_selection Examples.single [0; 0] 4 "ef"
                (Examples.text "T" "abcdefgh") eq_refl eq_refl eq_refl)
      as (state'' & Happly' & Hpoints').
    exists state''. split; [exact Happly'|].
    destruct (Hpoints' Selection.anchor (or_introl eq_refl))
      as (_ & _ & Hinside & _).
    simpl in Hinside. apply Hinside. lia.
Defined.

Lemma C6_counterexample :
  exists state' one two,
    APPLIERS.join_node Examples.twoBlocks [1] = Some state'
    /\ Node.assertPath (State.document Examples.twoBlocks) [0] = Some one
    /\ Node.assertPath (State.document Examples.twoBlocks) [1] = Some two
    /\ Node.nodes one = Some [Examples.text "t1" "abc"]
    /\ fst (Selection.anchor (State.selection Examples.twoBlocks))
       = Some (Node.key two)
    /\ Selection.anchor (State.selection state')
       <> (Some (Node.key one),
           1 + snd (Selection.anchor (State.selection Examples.twoBlocks))).
Proof.
  eexists; exists (Examples.block "p" [Examples.text "t1" "abc"]),
             (Examples.block "q" [Examples.text "t2" "defg"]).
  split; [vm_compute; reflexivity|].
  repeat split; discriminate.
Qed.

Lemma C6_witness :
  exists state',
    APPLIERS.join_node Examples.siblings [0; 1] = Some state'
    /\ Selection.anchor (State.selection state') = (Some "t1", 3 + 1)
    /\ Selection.focus (State.selection state') = (Some "t1", 3 + 3).
Proof.
  eexists. split; [vm_compute; reflexivity|].
  split.
  - eapply (C6_join_node_text_rebases_selection Examples.siblings [0; 1]
              _ 1 "t1" (Examples.plain "abc") (Examples.text "t2" "defg"));
      try reflexivity.
    now left.
  - eapply (C6_join_node_text_rebases_selection Examples.siblings [0; 1]
              _ 1 "t1" (Examples.plain "abc") (Examples.text "t2" "defg"));
      try reflexivity.
    now right.
Defined.

Lemma C10_witness :
  exists state',
    APPLIERS.join_node Examples.twoBlocks [1] = Some state'
    /\ State.selection state' = State.selection Examples.twoBlocks.
Proof.
  eexists. split; [vm_compute; reflexivity|].
  eapply (C10_join_node_containers_keep_selection Examples.twoBlocks [1]
            _ 1 (Examples.block "p" [Examples.text "t1" "abc"]));
    try reflexivity.
  discriminate.
Defined.

(** C9.  The guard of [set_node] that is to keep the key of a node
    tests the given key for truth before it compares it: the empty
    string is a key that passes.  Setting it on the document goes
    through without a warning and leaves the document with the empty
    string as its key. *)
Theorem C9_set_node_empty_key_replaces_key :
  exists state' warnings,
    APPLIERS.set_node Examples.single []
      (Node.Properties.make (Some "") None None None None)
    = Some (state', warnings)
    /\ Node.key (State.document Examples.single) = "doc"
    /\ Node.key (State.document state') = ""
    /\ Node.nodes (State.document state')
       = Node.nodes (State.document Examples.single)
    /\ warnings = [].
Proof.
  eexists. eexists. split; [vm_compute; reflexivity|].
  repeat split.
Qed.

Lemma C2_counterexample :
  exists transform',
    Transforms.splitDescendantsByKey Examples.identity
      (Transforms.make Examples.nested 100%nat []) "b" "t2" 2
      (Transforms.options None) = Some transform'
    /\ Node.getPath (State.document Examples.nested) "b" = Some [0]
    /\ Transforms.trace transform'
       = [Transforms.Applied (Operation.split_node [0; 1; 0] 2);
          Transforms.Applied (Operation.split_node [0; 1] 1);
          Transforms.Applied (Operation.split_node [0] 2);
          Transforms.Normalized "doc"]
    /\ option_map (map Node.key)
         (Node.nodes (State.document (Transforms.state transform')))
       = Some ["b"; "102"].
Proof.
  eexists. split; [vm_compute; reflexivity|].
  repeat split.
Qed.

Lemma C2_witness :
  exists upper top lower,
    [State.document Examples.nested;
     Examples.block "b"
       [Examples.text "t1" "hello";
        Examples.inline "i" [Examples.text "t2" "world"];
        Examples.text "t3" "!"];
     Examples.inline "i" [Examples.text "t2" "world"]]
    = (upper ++ top :: lower)%list
    /\ Node.key top = "b"
    /\ Transforms.splitPlan 2 (Examples.text "t2" "world" :: rev lower ++ [top])
       = Some [("t2", 2); ("i", 1); ("b", 2)].
Proof.
  destruct (C2_splitDescendantsByKey_plan Examples.identity
              (Transforms.make Examples.nested 100%nat []) "b" "t2" 2
              (Transforms.options None) (Examples.text "t2" "world")
              [State.document Examples.nested;
               Examples.block "b"
                 [Examples.text "t1" "hello";
                  Examples.inline "i" [Examples.text "t2" "world"];
                  Examples.text "t3" "!"];
               Examples.inline "i" [Examples.text "t2" "world"]])
    as (upper & top & lower & Hsplit & Htop & Hupper & _).
  - discriminate.
  - reflexivity.
  - reflexivity.
  - simpl. auto.
  - exists upper, top, lower. split; [exact Hsplit|]. split; [exact Htop|].
    destruct upper as [|a [|b [|c upper]]]; simpl in Hsplit;
      inversion Hsplit; subst; simpl in Htop; try discriminate;
      try reflexivity.
    destruct upper; discriminate.
Defined.

(** C5.  Splitting the text [T] at 3 under a backward selection with
    the anchor at 5 and the focus at 4, both on [T]: [split_node] goes
    through and leaves the left half "abc" under the key [T].  Start
    and end both lie behind the split, yet the anchor is still on [T],
    at 5, and it is the focus that has been moved, twice: it is on the
    new right sibling at 5 - 3, where the anchor belongs, and not at
    4 - 3. *)
Theorem C5_split_node_backward_selection :
  exists state',
    APPLIERS.split_node 100%nat Examples.singleBackward [0; 0] 3
    = Some (state', 101%nat)
    /\ Selection.start (State.selection Examples.singleBackward)
       = (Some "T", 4)
    /\ Selection.end_ (State.selection Examples.singleBackward)
       = (Some "T", 5)
    /\ Node.assertPath (State.document state') [0]
       = Some (Examples.block "p"
                 [Examples.text "T" "abc"; Examples.text "100" "defgh"])
    /\ Selection.anchor (State.selection state') = (Some "T", 5)
    /\ Selection.focus (State.selection state') = (Some "100", 5 - 3)
    /\ Selection.focus (State.selection state') <> (Some "100", 4 - 3).
Proof.
  eexists. split; [vm_compute; reflexivity|].
  repeat split. discriminate.
Qed.

(** A selection point that carries the key of a container: when the
    container is split, there is no text behind it to move the point
    to, and the applier fails. *)
Lemma split_node_fails_on_container_endpoint :
  Selection.anchorKey (State.selection Examples.twoBlocks) = Some "q"
  /\ Node.assertPath (State.document Examples.twoBlocks) [1]
     = Some (Examples.block "q" [Examples.text "t2" "defg"])
  /\ APPLIERS.split_node 100%nat Examples.twoBlocks [1] 0 = None.
Proof. repeat split. Qed.


Lemma removeTextByKey_removes_span_witness :
  exists removed,
    Transforms.removeTextByKey Examples.identity
      (Transforms.make Examples.marked 100%nat []) "m" 2 4
      (Transforms.options (Some false)) = Some removed
    /\ Transforms.trace removed
       = [Transforms.Applied (Operation.remove_text [0; 0] 4 "ef");
          Transforms.Applied (Operation.remove_text [0; 0] 2 "cd")]
    /\ option_map Node.text
         (Node.getNode (State.document (Transforms.state removed)) "m")
       = Some "abgh".
Proof.
  destruct (removeTextByKey_removes_span Examples.identity
              (Transforms.make Examples.marked 100%nat []) "m" 2 4
              (Transforms.options (Some false))
              (Examples.plain "abcd"
               ++ map (fun a => Character.make a Examples.bold)
                    (list_ascii_of_string "efgh"))%list)
    as (path & removed & Hpath & Htrace & _ & Hnode & Happly).
  - apply wellFormedb_sound. vm_compute. reflexivity.
  - reflexivity.
  - exists removed. split; [exact Happly|].
    vm_compute in Hpath. inversion Hpath; subst path.
    split; [exact Htrace|]. rewrite Hnode. reflexivity.
Defined.

(** C7.  Removing the plain run "abcd" from the text "abcdefgh", whose
    second run "efgh" is bold: the span from 0 to 4 overlaps the first
    fragment only, and yet two removals are applied, the first of them
    an empty one for the second fragment, which the span touches at 4.
    The text that is left is "efgh". *)
Theorem C7_removeTextByKey_touching_fragment :
  exists removed,
    Transforms.removeTextByKey Examples.identity
      (Transforms.make Examples.marked 100%nat []) "m" 0 4
      (Transforms.options (Some false)) = Some removed
    /\ Node.getRanges (Node.Text "m"
                         (Examples.plain "abcd"
                          ++ map (fun a => Character.make a Examples.bold)
                               (list_ascii_of_string "efgh"))%list)
       = Some [Range.make "abcd" []; Range.make "efgh" Examples.bold]
    /\ filter (Span.overlaps 0 (0 + 4)) [(0, 4); (4, 8)] = [(0, 4)]
    /\ Transforms.trace removed
       = [Transforms.Applied (Operation.remove_text [0; 0] 4 "");
          Transforms.Applied (Operation.remove_text [0; 0] 0 "abcd")]
    /\ option_map Node.text
         (Node.getNode (State.document (Transforms.state removed)) "m")
       = Some "efgh".
Proof.
  eexists. split; [vm_compute; reflexivity|].
  repeat split.
Qed.

(** An empty text has one range, the empty one, and gets one removal,
    of nothing. *)
Lemma removeTextByKey_on_empty_text :
  exists removed,
    Transforms.removeTextByKey Examples.identity
      (Transforms.make
         (State.make
            (Examples.document [Examples.block "p" [Examples.text "e" ""]])
            (Examples.forward "e" 0 "e" 0)) 100%nat []) "e" 0 3
      (Transforms.options (Some false)) = Some removed
    /\ Transforms.trace removed
       = [Transforms.Applied (Operation.remove_text [0; 0] 0 "")].
Proof.
  eexists. split; [vm_compute; reflexivity|reflexivity].
Qed.

(** C8.  Removing a block that holds two texts, with the selection
    running from the first into the second and no text outside the
    block: [remove_node] goes through, the document is left without any
    text, and the selection is still set, each endpoint on a text of the
    removed block. *)
Theorem C8_remove_node_selection_in_removed_subtree :
  exists state',
    APPLIERS.remove_node Examples.twoTexts [0] = Some state'
    /\ Node.getTexts (State.document state') = []
    /\ Selection.isSet (State.selection state') = true
    /\ Selection.start (State.selection state') = (Some "t2", 0)
    /\ Selection.end_ (State.selection state') = (Some "t1", 3)
    /\ Node.hasNode (Examples.block "b"
                       [Examples.text "t1" "abc"; Examples.text "t2" "de"])
         (Some "t2") = true
    /\ Node.hasNode (State.document state') (Some "t2") = false
    /\ Node.hasNode (State.document state') (Some "t1") = false.
Proof.
  eexists. split; [vm_compute; reflexivity|].
  repeat split.
Qed.

(** Removing the only text of the document, which carries both
    endpoints, leaves the selection unset. *)
Lemma remove_only_text_deselects :
  exists state',
    APPLIERS.remove_node Examples.onlyText [0; 0] = Some state'
    /\ State.selection state'
       = Selection.make None 0 None 0 (Some false) false.
Proof. eexists. split; [vm_compute; reflexivity|reflexivity]. Qed.

End Samples.
(** * More facts about trees *)

Section TreeFacts.
Import Node.

Lemma equals_sym {A : Type} (eqb : A -> A -> bool) (l l' : list A) :
  Forall (fun x => forall y, eqb x y = eqb y x) l ->
  Immutable.equals eqb l l' = Immutable.equals eqb l' l.
Proof.
  intros H. revert l'. induction H as [|x l Hx Hl IH]; intros [|y l'];
    simpl; try reflexivity.
  now rewrite Hx, IH.
Qed.

Lemma character_eqb_sym c c' : Character.eqb c c' = Character.eqb c' c.
Proof.
  unfold Character.eqb, Mark.same.
  rewrite (Ascii.eqb_sym (Character.text c)). f_equal. apply andb_comm.
Qed.

Lemma eqb_sym a b : Node.eqb a b = Node.eqb b a.
Proof.
  revert b.
  induction a as [k cs|c k ty v d ns IH] using Tree.node_ind;
    intros [k' cs'|c' k' ty' v' d' ns']; simpl; try reflexivity.
  - rewrite (String.eqb_sym k). f_equal.
    apply equals_sym, Forall_forall. intros; apply character_eqb_sym.
  - rewrite (String.eqb_sym k), (String.eqb_sym ty).
    rewrite (equals_sym Node.eqb ns ns' IH).
    replace (Mark.data_eqb d d') with (Mark.data_eqb d' d).
    + replace (Bool.eqb v v') with (Bool.eqb v' v)
        by (destruct v, v'; reflexivity).
      now destruct c, c'.
    + apply equals_sym, Forall_forall. intros [x y] _ [x' y']. simpl.
      now rewrite (String.eqb_sym x), (String.eqb_sym y).
Qed.

Lemma app_length_inv {A : Type} (l l' r r' : list A) :
  List.length l = List.length l' -> l ++ r = l' ++ r' -> l = l' /\ r = r'.
Proof.
  revert l'. induction l as [|x l IH]; intros [|x' l'] Hlen H;
    simpl in *; try discriminate; [auto|].
  inversion H; subst. destruct (IH l') as [-> ->]; auto.
Qed.

(** The same index names the same element. *)
Lemma pointsAt_inv {A : Type} (l l' r r' : list A) x x' i :
  l ++ x :: r = l' ++ x' :: r' ->
  Tree.pointsAt i (List.length l) (List.length r) ->
  Tree.pointsAt i (List.length l') (List.length r') ->
  l = l' /\ x = x' /\ r = r'.
Proof.
  intros E H H'.
  assert (Hlen : List.length (l ++ x :: r) = List.length (l' ++ x' :: r'))
    by now rewrite E.
  rewrite !length_app in Hlen. simpl in Hlen.
  unfold Tree.pointsAt in *.
  assert (Hl : List.length l = List.length l')
    by (destruct (i <? 0); lia).
  destruct (app_length_inv _ _ _ _ Hl E) as [-> E']. now inversion E'.
Qed.

(** Among children with unique keys, a key names one child. *)
Lemma split_unique (l l' : list Node.t) x x' r r' k :
  NoDup (flat_map getKeys (l ++ x :: r)) ->
  l ++ x :: r = l' ++ x' :: r' ->
  In k (getKeys x) -> In k (getKeys x') ->
  l = l' /\ x = x' /\ r = r'.
Proof.
  revert l'. induction l as [|y l IH]; intros [|y' l'] ND E Hx Hx';
    simpl in E; inversion E; subst.
  - auto.
  - exfalso. simpl in ND. apply NoDup_app_remove_l in ND as ND'.
    rewrite (NoDup_count_occ string_dec) in ND. specialize (ND k).
    rewrite count_occ_app, flat_map_app in ND. simpl in ND.
    rewrite !count_occ_app in ND.
    apply (count_occ_In string_dec) in Hx, Hx'. unfold Key in *. lia.
  - exfalso. simpl in ND.
    rewrite (NoDup_count_occ string_dec) in ND. specialize (ND k).
    rewrite count_occ_app, flat_map_app in ND. simpl in ND.
    rewrite !count_occ_app in ND.
    apply (count_occ_In string_dec) in Hx, Hx'. unfold Key in *. lia.
  - simpl in ND. apply NoDup_app_remove_l in ND.
    destruct (IH l' ND H1 Hx Hx') as (-> & -> & ->). auto.
Qed.

Lemma replaced_trans a b c n p n1 n2 :
  Tree.replaced a b n p n1 -> Tree.replaced b c n1 p n2 ->
  Tree.replaced a c n p n2.
Proof.
  intros H. revert n2.
  induction H as [|co k ty v d l x r i p x' Hi Hx IH]; intros n2 H2.
  - inversion H2; subst. constructor.
  - inversion H2 as [|? ? ? ? ? l0 x0 r0 ? ? x0' Hi0 Hx0]; subst.
    match goal with
    | E : _ ++ _ :: _ = _ ++ _ :: _ |- _ =>
        destruct (pointsAt_inv _ _ _ _ _ _ _ E Hi0 Hi) as (-> & -> & ->)
    end.
    constructor; auto.
Qed.

Lemma replaced_same a n p n' : Tree.replaced a a n p n' -> n' = n.
Proof. induction 1; congruence. Qed.

Lemma replaced_sym a b n p n' :
  Tree.replaced a b n p n' -> Tree.replaced b a n' p n.
Proof. induction 1; now constructor. Qed.

(** One node is replaced by one result. *)
Lemma replaced_fun a b n p n1 n2 :
  Tree.replaced a b n p n1 -> Tree.replaced a b n p n2 -> n1 = n2.
Proof.
  intros H1 H2. apply replaced_sym in H1.
  symmetry. apply (replaced_same b n1 p). eapply replaced_trans; eauto.
Qed.

(** The parent of a path that resolves below the root. *)
Lemma assertPath_parent n path node :
  assertPath n path = Some node -> path <> [] ->
  exists parentPath i c k ty v d l r,
    path = parentPath ++ [i]
    /\ assertPath n parentPath = Some (Branch c k ty v d (l ++ node :: r))
    /\ Tree.pointsAt i (List.length l) (List.length r).
Proof.
  intros H Hne. destruct (path_snoc path Hne) as (parentPath & i & ->).
  rewrite assertPath_app in H.
  destruct (assertPath n parentPath) as [[|c k ty v d ns]|] eqn:Hp;
    try discriminate.
  simpl in H. destruct (Immutable.get ns i) as [x|] eqn:G; [|discriminate].
  inversion H; subst x. destruct (get_inv _ _ _ G) as (l & r & -> & Hi).
  exists parentPath, i, c, k, ty, v, d, l, r. auto.
Qed.

Lemma assertPath_child n parentPath c k ty v d l node r i :
  assertPath n parentPath = Some (Branch c k ty v d (l ++ node :: r)) ->
  Tree.pointsAt i (List.length l) (List.length r) ->
  assertPath n (parentPath ++ [i]) = Some node.
Proof.
  intros H Hi. rewrite assertPath_app, H. simpl. now rewrite get_pointsAt.
Qed.

(** Under unique keys the root is nobody's child. *)
Lemma getParent_root n : Tree.unique n -> getParent n (key n) = None.
Proof.
  intros U. destruct (getParent n (key n)) as [q|] eqn:E; [|reflexivity].
  exfalso. destruct n as [k cs|c k ty v d ns]; simpl in E; [discriminate|].
  unfold Tree.unique in U. simpl in U. inversion U as [|? ? Hk _]; subst.
  apply Hk. destruct (existsb _ ns) eqn:Ex.
  - apply existsb_exists in Ex as (y & Hy & Ey). apply String.eqb_eq in Ey.
    apply in_flat_map. exists y. split; [assumption|].
    simpl. rewrite <- Ey. apply key_in_getKeys.
  - apply findMap_some in E as (y & Hy & E). apply getParent_keys in E.
    apply in_flat_map. eauto.
Qed.

(** ** Keys that are not in the tree *)

Lemma getParent_none n k : ~ In k (getKeys n) -> getParent n k = None.
Proof.
  intros H. destruct (getParent n k) eqn:E; [|reflexivity].
  now apply getParent_keys in E.
Qed.

Lemma getDescendant_none n k : ~ In k (getKeys n) -> getDescendant n k = None.
Proof.
  intros H. destruct (getDescendant n k) eqn:E; [|reflexivity].
  now apply getDescendant_keys in E.
Qed.

Lemma getNode_none n k : ~ In k (getKeys n) -> getNode n k = None.
Proof.
  intros H. unfold getNode. destruct (String.eqb (key n) k) eqn:E.
  - apply String.eqb_eq in E. subst k. elim H. apply key_in_getKeys.
  - now apply getDescendant_none.
Qed.

Lemma getPath_none n k : ~ In k (getKeys n) -> getPath n k = None.
Proof.
  intros H. unfold getPath. destruct (String.eqb (key n) k) eqn:E.
  - apply String.eqb_eq in E. subst k. elim H. apply key_in_getKeys.
  - pose proof (descendant_path n k) as D.
    rewrite (getDescendant_none _ _ H) in D.
    now destruct (getDescendantPath n k).
Qed.

Lemma hasNode_none n k : ~ In k (getKeys n) -> hasNode n (Some k) = false.
Proof. intros H. simpl. now rewrite getNode_none. Qed.

(** ** One key, one place *)

(** Under unique keys, a node that is found at one path and by its key
    at another is the same node, and replacing it at either path gives
    the same tree. *)
Lemma replaced_by_key old new n p n' :
  Tree.replaced old new n p n' ->
  forall p' old',
    Tree.unique n ->
    assertPath n p' = Some old' -> key old' = key old ->
    old' = old /\ Tree.replaced old new n p' n'.
Proof.
  induction 1 as [|c k ty v d l x r i p x' Hi Hx IH]; intros p' old' U H Hk.
  - destruct p' as [|j q].
    + simpl in H. inversion H; subst. split; [reflexivity|constructor].
    + exfalso. eapply unique_below; eauto.
  - pose proof (unique_children _ _ _ _ _ _ _ _ U) as (Ux & Hkx & Hd).
    pose proof (replaced_old _ _ _ _ _ Hx) as Hold.
    assert (Hin : In (key old) (getKeys x))
      by (eapply assertPath_keys; [eassumption|apply key_in_getKeys]).
    destruct p' as [|j q].
    + exfalso. simpl in H. inversion H; subst old'. simpl in Hk.
      apply Hkx. now rewrite Hk.
    + simpl in H.
      destruct (Immutable.get (l ++ x :: r) j) as [y|] eqn:G; [|discriminate].
      destruct (get_inv _ _ _ G) as (l' & r' & E & Hj).
      assert (Hin' : In (key old) (getKeys y)).
      { rewrite <- Hk. eapply assertPath_keys; [eassumption|].
        apply key_in_getKeys. }
      unfold Tree.unique in U. simpl in U. apply NoDup_cons_iff in U as [_ U].
      destruct (split_unique _ _ _ _ _ _ _ U E Hin Hin') as (<- & <- & <-).
      destruct (IH q old' Ux H Hk) as [-> Hr].
      split; [reflexivity|]. now constructor.
Qed.

(** The path that [getPath] finds for the key of a node leads to that
    node. *)
Lemma getPath_unique n path node :
  Tree.unique n -> assertPath n path = Some node ->
  exists path', getPath n (key node) = Some path'
                /\ assertPath n path' = Some node.
Proof.
  intros U H. apply getNode_getPath. eapply getNode_unique; eauto.
Qed.

(** ** Keys and kinds after a replacement *)

Lemma replaced_keys_perm old new n p n' extra :
  Tree.replaced old new n p n' ->
  Permutation (getKeys old) (extra ++ getKeys new) ->
  Permutation (getKeys n) (extra ++ getKeys n').
Proof.
  intros Hr Hp.
  destruct (replaced_getKeys _ _ _ _ _ Hr) as (pre & post & -> & ->).
  rewrite Hp. rewrite <- !app_assoc.
  rewrite (app_assoc pre extra). rewrite (Permutation_app_comm pre extra).
  now rewrite <- app_assoc.
Qed.

Lemma replaced_keys_perm' old new n p n' extra :
  Tree.replaced old new n p n' ->
  Permutation (getKeys new) (extra ++ getKeys old) ->
  Permutation (getKeys n') (extra ++ getKeys n).
Proof.
  intros Hr. apply replaced_keys_perm with (p := p). now apply replaced_sym.
Qed.

(** The keys of a container with one child more. *)
Lemma getKeys_with_child c k ty v d l x r :
  Permutation (getKeys (Branch c k ty v d (l ++ x :: r)))
    (getKeys x ++ getKeys (Branch c k ty v d (l ++ r))).
Proof.
  simpl. rewrite !flat_map_app. simpl.
  rewrite <- Permutation_middle. apply perm_skip.
  apply Permutation_app_swap_app.
Qed.

Lemma noDocumentBelow_replaced old new n p n' :
  Tree.replaced old new n p n' ->
  Tree.noDocumentBelow n ->
  kind new = kind old ->
  (Tree.noDocumentBelow old -> Tree.noDocumentBelow new) ->
  Tree.noDocumentBelow n'.
Proof.
  intros Hr Hb Hkind Hnb.
  induction Hr as [|c k ty v d l x r i p x' Hi Hx IH]; [auto|].
  pose proof (noDocumentBelow_child _ _ _ _ _ _ _ _ Hb) as [Hkx Hbx].
  assert (Hkx' : kind x' <> Kind.document).
  { destruct Hx; [congruence|exact Hkx]. }
  specialize (IH Hbx).
  rewrite noDocumentBelow_Forall in *.
  rewrite Forall_app in *. destruct Hb as [Hl Hr].
  inversion Hr; subst. split; [assumption|]. constructor; auto.
Qed.

(** A replacement that keeps the kind of the node and permutes the keys
    of the tree into a duplicate-free list keeps the document
    well-formed. *)
Lemma wellFormed_perm old new document p document' keys :
  Tree.wellFormed document ->
  Tree.replaced old new document p document' ->
  kind new = kind old ->
  (Tree.noDocumentBelow old -> Tree.noDocumentBelow new) ->
  Permutation keys (getKeys document') -> NoDup keys ->
  Tree.wellFormed document'.
Proof.
  intros (Hk & U & Hb) Hr Hkind Hnb Hp ND. repeat split.
  - destruct Hr; [congruence|exact Hk].
  - unfold Tree.unique. eapply Permutation_NoDup; eauto.
  - eapply noDocumentBelow_replaced; eauto.
Qed.
End TreeFacts.

(** * Inserting and removing nodes *)

Section InsertRemove.
Import Node.

Lemma noDocumentBelow_at n path m :
  Tree.noDocumentBelow n -> assertPath n path = Some m ->
  Tree.noDocumentBelow m.
Proof.
  revert n. induction path as [|i path IH]; intros n Hn H; simpl in H.
  - now inversion H; subst.
  - destruct n as [|c k ty v d ns]; simpl in H; [discriminate|].
    destruct (Immutable.get ns i) as [x|] eqn:G; [|discriminate].
    destruct (get_inv _ _ _ G) as (l & r & -> & _).
    apply noDocumentBelow_child in Hn as [_ Hx]. eauto.
Qed.

(** Writing a node back at its own path, as [isParent] decides it. *)
Lemma write_back_isParent document path old new document' :
  Tree.unique document ->
  Tree.replaced old new document path document' ->
  key new = key old ->
  (if Node.eqb document old then Some new
   else updateDescendant document new) = Some document'.
Proof.
  intros U Hr Hk. rewrite eqb_sym. now apply (write_back_eqb _ path).
Qed.

Lemma insert_resolved {A : Type} (l r : list A) x i :
  Immutable.resolveIndex i (Immutable.size (l ++ r)) = List.length l ->
  Immutable.insert (l ++ r) (Some i) x = l ++ x :: r.
Proof.
  intros H. unfold Immutable.insert, Immutable.splice, Immutable.resolveBegin.
  rewrite H. simpl.
  rewrite firstn_app, Nat.sub_diag, firstn_all. simpl. rewrite app_nil_r.
  rewrite Nat.add_0_r, skipn_app, skipn_all, Nat.sub_diag. reflexivity.
Qed.

(** What [insert_node] does to the document. *)
Lemma insert_node_document state parentPath c k ty v d l r index node :
  Tree.unique (State.document state) ->
  assertPath (State.document state) parentPath
  = Some (Branch c k ty v d (l ++ r)) ->
  Immutable.resolveIndex index (Immutable.size (l ++ r)) = List.length l ->
  exists document',
    Tree.replaced (Branch c k ty v d (l ++ r))
      (Branch c k ty v d (l ++ node :: r))
      (State.document state) parentPath document'
    /\ APPLIERS.insert_node state (parentPath ++ [index]) node
       = Some (State.make document' (State.selection state)).
Proof.
  intros U Hparent Hindex.
  set (parent := Branch c k ty v d (l ++ r)) in *.
  set (parent' := Branch c k ty v d (l ++ node :: r)).
  destruct (assertPath_replaced parent parent' _ _ Hparent) as (doc' & Hr).
  exists doc'. split; [exact Hr|].
  unfold APPLIERS.insert_node, PathOps.last, PathOps.init.
  rewrite last_snoc, removelast_last, Hparent.
  unfold insertNode. simpl nodes. cbv iota beta.
  rewrite (insert_resolved _ _ _ _ Hindex). simpl set_nodes. fold parent'.
  now rewrite (write_back_isParent _ _ _ _ _ U Hr eq_refl).
Qed.

(** The selection that [remove_node] computes, when no endpoint lies in
    the removed node. *)
Lemma remove_node_selection_kept node document selection :
  (Selection.isSet selection = true ->
   hasNode node (Selection.startKey selection) = false
   /\ hasNode node (Selection.endKey selection) = false) ->
  (let startKey := Selection.startKey selection in
   let endKey := Selection.endKey selection in
   if Selection.isSet selection then
     let hasStartNode := hasNode node startKey in
     let hasEndNode := hasNode node endKey in
     let? selection :=
       if hasStartNode then
         let? startKey := startKey in
         let prev := getPreviousText document startKey in
         let next := getNextText document startKey in
         match prev, next with
         | Some prev, _ =>
             Some (Selection.moveStartTo selection (key prev) (length prev))
         | None, Some next =>
             Some (Selection.moveStartTo selection (key next) 0)
         | None, None => Some (Selection.deselect selection)
         end
       else Some selection in
     if hasEndNode then
       let? endKey := endKey in
       let prev := getPreviousText document endKey in
       let next := getNextText document endKey in
       match prev, next with
       | Some prev, _ =>
           Some (Selection.moveEndTo selection (key prev) (length prev))
       | None, Some next =>
           Some (Selection.moveEndTo selection (key next) 0)
       | None, None => Some (Selection.deselect selection)
       end
     else Some selection
   else Some selection) = Some selection.
Proof.
  intros H. cbv zeta. destruct (Selection.isSet selection); [|reflexivity].
  destruct (H eq_refl) as [-> ->]. reflexivity.
Qed.

(** The selection update of [remove_node] always gives a selection. *)
Lemma remove_node_selection_total node document selection :
  exists selection',
    (let startKey := Selection.startKey selection in
     let endKey := Selection.endKey selection in
     if Selection.isSet selection then
       let hasStartNode := hasNode node startKey in
       let hasEndNode := hasNode node endKey in
       let? selection :=
         if hasStartNode then
           let? startKey := startKey in
           let prev := getPreviousText document startKey in
           let next := getNextText document startKey in
           match prev, next with
           | Some prev, _ =>
               Some (Selection.moveStartTo selection (key prev) (length prev))
           | None, Some next =>
               Some (Selection.moveStartTo selection (key next) 0)
           | None, None => Some (Selection.deselect selection)
           end
         else Some selection in
       if hasEndNode then
         let? endKey := endKey in
         let prev := getPreviousText document endKey in
         let next := getNextText document endKey in
         match prev, next with
         | Some prev, _ =>
             Some (Selection.moveEndTo selection (key prev) (length prev))
         | None, Some next =>
             Some (Selection.moveEndTo selection (key next) 0)
         | None, None => Some (Selection.deselect selection)
         end
       else Some selection
     else Some selection) = Some selection'.
Proof.
  destruct selection as [[ak|] ao [fk|] fo bw fc];
    unfold Selection.isSet; simpl; eauto.
  unfold Selection.startKey, Selection.endKey, Selection.backward. simpl.
  destruct bw as [[]|]; simpl;
    destruct (match getNode node fk with Some _ => true | None => false end),
      (match getNode node ak with Some _ => true | None => false end),
      (getPreviousText document fk), (getNextText document fk),
      (getPreviousText document ak), (getNextText document ak);
    simpl; eauto.
Qed.

(** What [remove_node] does to the document: the parent loses the
    node.  The operation goes through at every path that resolves below
    the root. *)
Lemma remove_node_document state parentPath i c k ty v d l node r :
  Tree.unique (State.document state) ->
  assertPath (State.document state) parentPath
  = Some (Branch c k ty v d (l ++ node :: r)) ->
  Tree.pointsAt i (List.length l) (List.length r) ->
  exists document' selection',
    Tree.replaced (Branch c k ty v d (l ++ node :: r))
      (Branch c k ty v d (l ++ r))
      (State.document state) parentPath document'
    /\ APPLIERS.remove_node state (parentPath ++ [i])
       = Some (State.make document' selection')
    /\ ((Selection.isSet (State.selection state) = true ->
         hasNode node (Selection.startKey (State.selection state)) = false
         /\ hasNode node (Selection.endKey (State.selection state)) = false)
        -> selection' = State.selection state).
Proof.
  intros U Hparent Hi.
  set (parent := Branch c k ty v d (l ++ node :: r)) in *.
  set (parent' := Branch c k ty v d (l ++ r)).
  destruct (assertPath_replaced parent parent' _ _ Hparent) as (doc' & Hr).
  pose proof (unique_descendant _ _ _ U Hparent) as Up.
  pose proof (assertPath_child _ _ _ _ _ _ _ _ _ _ _ Hparent Hi) as Hnode.
  destruct (remove_node_selection_total node (State.document state)
              (State.selection state)) as (selection' & Hsel).
  exists doc', selection'. split; [exact Hr|].
  unfold APPLIERS.remove_node. rewrite Hnode.
  cbv zeta in Hsel |- *. rewrite Hsel.
  rewrite (getParent_path _ _ _ _ U Hnode), Hparent.
  simpl nodes. cbv iota beta.
  rewrite (indexOf_mid Node.eqb l node r
             (siblings_differ _ _ _ _ _ _ _ _ Up) (eqb_refl _)).
  unfold removeNode. simpl nodes. cbv iota beta.
  rewrite splice_remove_mid. simpl set_nodes. fold parent'.
  rewrite (write_back_isParent _ _ _ _ _ U Hr eq_refl).
  split; [reflexivity|].
  intros Hkept.
  pose proof (remove_node_selection_kept node (State.document state)
                (State.selection state) Hkept) as Hsel'.
  cbv zeta in Hsel'. congruence.
Qed.
(** The document after a child is taken out. *)
Lemma remove_keeps_wellFormed document parentPath c k ty v d l x r document' :
  Tree.wellFormed document ->
  Tree.replaced (Branch c k ty v d (l ++ x :: r)) (Branch c k ty v d (l ++ r))
    document parentPath document' ->
  Tree.wellFormed document'
  /\ Permutation (getKeys document) (getKeys x ++ getKeys document').
Proof.
  intros WF Hr. split.
  - eapply wellFormed_replaced; eauto.
    + intros k0. simpl.
      destruct (string_dec k k0); rewrite !flat_map_app; simpl;
        rewrite !count_occ_app; lia.
    + rewrite !noDocumentBelow_Forall, !Forall_app.
      intros [Hl Hr']. inversion Hr'; subst. auto.
  - apply (replaced_keys_perm _ _ _ _ _ _ Hr). apply getKeys_with_child.
Qed.

Lemma take_app {A : Type} (l r : list A) :
  Immutable.take (Z.of_nat (List.length l)) (l ++ r) = l.
Proof.
  unfold Immutable.take. rewrite Nat2Z.id, firstn_app, Nat.sub_diag, firstn_all.
  simpl. apply app_nil_r.
Qed.

Lemma skip_app {A : Type} (l r : list A) :
  Immutable.skip (Z.of_nat (List.length l)) (l ++ r) = r.
Proof.
  unfold Immutable.skip. rewrite Nat2Z.id, skipn_app, Nat.sub_diag, skipn_all.
  reflexivity.
Qed.
End InsertRemove.

(** What a [remove_node] below the root leaves behind. *)
Lemma remove_node_effect :
  forall state path node,
    Tree.wellFormed (State.document state) ->
    path <> [] ->
    Node.assertPath (State.document state) path = Some node ->
    exists state',
      APPLIERS.remove_node state path = Some state'
      /\ Tree.wellFormed (State.document state')
      /\ Permutation (Node.getKeys (State.document state))
           (Node.getKeys node ++ Node.getKeys (State.document state'))
      /\ (forall key, In key (Node.getKeys node) ->
            Node.getNode (State.document state') key = None)
      /\ exists parentPath i c k ty v d l r,
           path = parentPath ++ [i]
           /\ Node.assertPath (State.document state) parentPath
              = Some (Node.Branch c k ty v d (l ++ node :: r))
           /\ Node.assertPath (State.document state') parentPath
              = Some (Node.Branch c k ty v d (l ++ r)).
Proof.
  intros state path node WF Hne Hpath.
  destruct (assertPath_parent _ _ _ Hpath Hne)
    as (parentPath & i & c & k & ty & v & d & l & r & -> & Hparent & Hi).
  pose proof WF as (Hk & U & Hb).
  destruct (remove_node_document state parentPath i c k ty v d l node r
              U Hparent Hi) as (doc' & selection' & Hr & Hremove & _).
  assert (Hperm : Permutation (Node.getKeys (State.document state))
                    (Node.getKeys node ++ Node.getKeys doc')).
  { apply (replaced_keys_perm _ _ _ _ _ _ Hr).
    apply getKeys_with_child. }
  exists (State.make doc' selection'). split; [exact Hremove|].
  simpl State.document. split; [|split; [exact Hperm|split]].
  - eapply wellFormed_replaced; eauto.
    + intros k0. simpl.
      destruct (string_dec k k0); rewrite !flat_map_app; simpl;
        rewrite !count_occ_app; lia.
    + rewrite !noDocumentBelow_Forall, !Forall_app.
      intros [Hl Hr']. inversion Hr'; subst. auto.
  - intros key Hin. apply getNode_none. intros Hin'.
    unfold Tree.unique in U.
    apply (Permutation_NoDup Hperm) in U.
    apply NoDup_app_remove_l in U as U2.
    rewrite (NoDup_count_occ string_dec) in U. specialize (U key).
    rewrite count_occ_app in U.
    apply (count_occ_In string_dec) in Hin, Hin'. unfold Key in *. lia.
  - exists parentPath, i, c, k, ty, v, d, l, r.
    split; [reflexivity|]. split; [exact Hparent|].
    eapply replaced_new; eauto.
Qed.


(** Where [insert_node] puts the node. *)
Lemma insert_node_effect :
  forall state parentPath c k ty v d ns index node,
    Tree.unique (State.document state) ->
    Node.assertPath (State.document state) parentPath
    = Some (Node.Branch c k ty v d ns) ->
    0 <= index ->
    let place := Z.min index (Immutable.size ns) in
    exists state',
      APPLIERS.insert_node state (parentPath ++ [index]) node = Some state'
      /\ Node.assertPath (State.document state') parentPath
         = Some (Node.Branch c k ty v d
                   (Immutable.take place ns ++ node
                    :: Immutable.skip place ns))
      /\ Node.assertPath (State.document state') (parentPath ++ [place])
         = Some node
      /\ State.selection state' = State.selection state.
Proof.
  intros state parentPath c k ty v d ns index node U Hparent Hindex place.
  set (l := Immutable.take place ns). set (r := Immutable.skip place ns).
  assert (Hns : ns = l ++ r) by (symmetry; apply firstn_skipn).
  assert (Hl : List.length l = Z.to_nat place).
  { unfold l, Immutable.take. apply firstn_length_le.
    unfold place, Immutable.size. lia. }
  rewrite Hns in Hparent.
  destruct (insert_node_document state parentPath c k ty v d l r index node
              U Hparent) as (doc' & Hr & Happly).
  { rewrite <- Hns, Hl. unfold Immutable.resolveIndex, place.
    destruct (index <? 0) eqn:E; [apply Z.ltb_lt in E; lia|].
    f_equal. lia. }
  exists (State.make doc' (State.selection state)).
  split; [exact Happly|]. simpl.
  pose proof (replaced_new _ _ _ _ _ Hr) as Hnew.
  split; [exact Hnew|]. split; [|reflexivity].
  eapply assertPath_child; [exact Hnew|].
  rewrite Hl. unfold Tree.pointsAt.
  assert (0 <= place) by (unfold place, Immutable.size; lia).
  destruct (place <? 0) eqn:E; [apply Z.ltb_lt in E; lia|lia].
Qed.

(** X1. [insert_node] at [parentPath ++ [index]], for an index that is
    not negative and a node whose keys are new to the document, puts the
    node among the children of the container at [parentPath]: in front
    of the child that was at [index], or behind the last child when
    [index] is the number of children or more.  The node is then found
    at the path it was inserted at (or at the last index), and the
    selection is as it was. *)
Theorem insert_node_places_node :
  forall state parentPath c k ty v d ns index node,
    Tree.unique (State.document state) ->
    Node.assertPath (State.document state) parentPath
    = Some (Node.Branch c k ty v d ns) ->
    0 <= index ->
    (forall key, In key (Node.getKeys node) ->
       ~ In key (Node.getKeys (State.document state))) ->
    let place := Z.min index (Immutable.size ns) in
    exists state',
      APPLIERS.insert_node state (parentPath ++ [index]) node = Some state'
      /\ Node.assertPath (State.document state') parentPath
         = Some (Node.Branch c k ty v d
                   (Immutable.take place ns ++ node
                    :: Immutable.skip place ns))
      /\ Node.assertPath (State.document state') (parentPath ++ [place])
         = Some node
      /\ State.selection state' = State.selection state.
Proof.
  intros state parentPath c k ty v d ns index node U Hparent Hindex _.
  exact (insert_node_effect state parentPath c k ty v d ns index node U
           Hparent Hindex).
Qed.

(** X2. Inserting a node whose keys are new to the document and to the
    selection, and then removing the node at the path it was inserted
    at, gives back the state from before. *)
Theorem insert_node_then_remove_node :
  forall state parentPath c k ty v d ns index node inserted,
    Tree.unique (State.document state) ->
    Node.assertPath (State.document state) parentPath
    = Some (Node.Branch c k ty v d ns) ->
    0 <= index <= Immutable.size ns ->
    NoDup (Node.getKeys node) ->
    (forall key, In key (Node.getKeys node) ->
       ~ In key (Node.getKeys (State.document state))
       /\ Selection.anchorKey (State.selection state) <> Some key
       /\ Selection.focusKey (State.selection state) <> Some key) ->
    APPLIERS.insert_node state (parentPath ++ [index]) node = Some inserted ->
    APPLIERS.remove_node inserted (parentPath ++ [index]) = Some state.
Proof.
  intros state parentPath c k ty v d ns index node inserted U Hparent Hindex
    NDnode Hfresh Hins.
  set (l := Immutable.take index ns). set (r := Immutable.skip index ns).
  assert (Hns : ns = l ++ r) by (symmetry; apply firstn_skipn).
  assert (Hl : List.length l = Z.to_nat index).
  { unfold l, Immutable.take. apply firstn_length_le.
    unfold Immutable.size in Hindex. lia. }
  rewrite Hns in Hparent.
  destruct (insert_node_document state parentPath c k ty v d l r index node
              U Hparent) as (doc' & Hr & Happly).
  { rewrite <- Hns, Hl. unfold Immutable.resolveIndex.
    destruct (index <? 0) eqn:E; [apply Z.ltb_lt in E; lia|].
    f_equal. lia. }
  rewrite Happly in Hins. inversion Hins; subst inserted; clear Hins.
  (* the document with the node has unique keys *)
  assert (Hperm : Permutation (Node.getKeys doc')
                    (Node.getKeys node ++ Node.getKeys (State.document state))).
  { apply (replaced_keys_perm' _ _ _ _ _ _ Hr).
    apply getKeys_with_child. }
  assert (U' : Tree.unique doc').
  { unfold Tree.unique. apply (Permutation_NoDup (Permutation_sym Hperm)).
    apply NoDup_app; [assumption|exact U|].
    intros key Hin. now apply Hfresh. }
  destruct (remove_node_document (State.make doc' (State.selection state))
              parentPath index c k ty v d l node r U'
              (replaced_new _ _ _ _ _ Hr))
    as (doc'' & selection' & Hr' & Hremove & Hsel).
  { rewrite Hl. unfold Tree.pointsAt.
    destruct (index <? 0) eqn:E; [apply Z.ltb_lt in E; lia|lia]. }
  rewrite Hremove. f_equal.
  assert (Hdoc : doc'' = State.document state).
  { apply (replaced_same (Node.Branch c k ty v d (l ++ r)) _ parentPath).
    eapply replaced_trans; eauto. }
  rewrite Hdoc, Hsel; [now destruct state|].
  simpl State.selection. intros _.
  unfold Selection.startKey, Selection.endKey.
  assert (Ha : Node.hasNode node (Selection.anchorKey (State.selection state))
               = false).
  { destruct (Selection.anchorKey (State.selection state)) as [key|] eqn:E;
      [|reflexivity].
    apply hasNode_none. intros Hin. now apply Hfresh in Hin. }
  assert (Hf : Node.hasNode node (Selection.focusKey (State.selection state))
               = false).
  { destruct (Selection.focusKey (State.selection state)) as [key|] eqn:E;
      [|reflexivity].
    apply hasNode_none. intros Hin. now apply Hfresh in Hin. }
  destruct (Selection.backward (State.selection state)); auto.
Qed.

(** X3. On a well-formed document, [remove_node] goes through at every
    path that resolves below the root.  The parent is left with the
    other children, in their order; the keys of the document are those
    from before without the keys of the removed node, none of which can
    be looked up any more; and the document is still well-formed. *)
Theorem remove_node_removes_subtree :
  forall state path node,
    Tree.wellFormed (State.document state) ->
    path <> [] ->
    Node.assertPath (State.document state) path = Some node ->
    exists state',
      APPLIERS.remove_node state path = Some state'
      /\ Tree.wellFormed (State.document state')
      /\ Permutation (Node.getKeys (State.document state))
           (Node.getKeys node ++ Node.getKeys (State.document state'))
      /\ (forall key, In key (Node.getKeys node) ->
            Node.getNode (State.document state') key = None)
      /\ exists parentPath i c k ty v d l r,
           path = parentPath ++ [i]
           /\ Node.assertPath (State.document state) parentPath
              = Some (Node.Branch c k ty v d (l ++ node :: r))
           /\ Node.assertPath (State.document state') parentPath
              = Some (Node.Branch c k ty v d (l ++ r)).
Proof. exact remove_node_effect. Qed.

(** X4. In a document with unique keys the root cannot be removed,
    moved, split or joined: each of these appliers fails on the empty
    path. *)
Theorem structural_appliers_fail_at_root :
  forall g state newPath position,
    Tree.unique (State.document state) ->
    APPLIERS.remove_node state [] = None
    /\ APPLIERS.move_node state [] newPath = None
    /\ APPLIERS.split_node g state [] position = None
    /\ APPLIERS.join_node state [] = None.
Proof.
  intros g state newPath position U.
  pose proof (getParent_root _ U) as Hroot.
  split; [|split; [|split]].
  - unfold APPLIERS.remove_node. simpl Node.assertPath. cbv iota beta.
    destruct (remove_node_selection_total (State.document state)
                (State.document state) (State.selection state))
      as (selection' & Hsel).
    cbv zeta in Hsel |- *. rewrite Hsel. now rewrite Hroot.
  - unfold APPLIERS.move_node. simpl Node.assertPath. cbv iota beta zeta.
    now rewrite Hroot.
  - unfold APPLIERS.split_node. simpl Node.assertPath. cbv iota beta zeta.
    now rewrite Hroot.
  - reflexivity.
Qed.

(** * Edits that undo each other *)

Section RoundTrips.
Import Node.

Lemma list_ascii_length s :
  List.length (list_ascii_of_string s) = String.length s.
Proof. induction s; simpl; congruence. Qed.

(** Keys stay unique when a node gives way to one with the same keys. *)
Lemma unique_same_keys old new n path n' :
  Tree.replaced old new n path n' ->
  getKeys new = getKeys old ->
  Tree.unique n -> Tree.unique n'.
Proof.
  intros Hr E. eapply unique_replaced; eauto. intros k. now rewrite E.
Qed.

(** Cutting out what was spliced in. *)
Lemma splice_then_cut {A : Type} (cs chars : list A) offset len :
  0 <= offset <= Z.of_nat (List.length cs) ->
  len = Z.of_nat (List.length chars) ->
  let spliced := Immutable.splice cs (Some offset) 0 chars in
  Immutable.take offset spliced
  ++ Immutable.skip (Z.max offset (offset + len)) spliced
  = cs.
Proof.
  intros H ->. cbv zeta.
  unfold Immutable.splice, Immutable.resolveBegin, Immutable.resolveIndex,
    Immutable.size, Immutable.take, Immutable.skip.
  destruct (offset <? 0) eqn:E; [apply Z.ltb_lt in E; lia|].
  replace (Z.to_nat (Z.min (Z.of_nat (List.length cs)) offset))
    with (Z.to_nat offset) by lia.
  rewrite Nat.add_0_r.
  replace (Z.to_nat (Z.max offset (offset + Z.of_nat (List.length chars))))
    with (Z.to_nat offset + List.length chars)%nat by lia.
  assert (Hlen : List.length (firstn (Z.to_nat offset) cs) = Z.to_nat offset)
    by (apply firstn_length_le; lia).
  rewrite firstn_app, Hlen, Nat.sub_diag, firstn_all2 by lia.
  simpl. rewrite app_nil_r.
  rewrite skipn_app, Hlen, skipn_all2 by lia.
  replace (Z.to_nat offset + List.length chars - Z.to_nat offset)%nat
    with (List.length chars) by lia.
  rewrite skipn_app, Nat.sub_diag, skipn_all. simpl.
  apply firstn_skipn.
Qed.

(** The selection after the rebasing of [insert_text] and then that of
    [remove_text], for the same text at the same offset. *)
Lemma rebase_there_and_back s k offset len :
  0 <= len ->
  (Selection.anchorKey s = Some k -> Selection.focusKey s = Some k ->
   Selection.isBackward s
   = Some (Selection.anchorOffset s >? Selection.focusOffset s)) ->
  let s1 :=
    if key_is (Selection.anchorKey s) k && (Selection.anchorOffset s >=? offset)
    then Selection.moveAnchor s len else s in
  let s2 :=
    if key_is (Selection.focusKey s) k && (Selection.focusOffset s >=? offset)
    then Selection.moveFocus s1 len else s1 in
  let s3 :=
    if key_is (Selection.anchorKey s2) k
       && (Selection.anchorOffset s2 >=? offset + len)
    then Selection.moveAnchor s2 (- len) else s2 in
  (if key_is (Selection.focusKey s2) k
      && (Selection.focusOffset s2 >=? offset + len)
   then Selection.moveFocus s3 (- len) else s3) = s.
Proof.
  intros Hlen. destruct s as [ak ao fk fo bw fc]. simpl. intros Hbw.
  unfold Selection.moveAnchor, Selection.moveFocus, Selection.same_key.
  simpl. rewrite !Z.geb_leb.
  destruct ak as [ak|], fk as [fk|]; simpl;
    try destruct (String.eqb_spec ak k); try destruct (String.eqb_spec fk k);
    subst; simpl; rewrite ?String.eqb_refl;
    try rewrite (Hbw eq_refl eq_refl);
    try (destruct (String.eqb_spec k fk); [congruence|]);
    try (destruct (String.eqb_spec k ak); [congruence|]);
    try (destruct (String.eqb_spec ak k); [congruence|]);
    try (destruct (String.eqb_spec fk k); [congruence|]);
    repeat match goal with
           | |- context [?a <=? ?b] => destruct (Z.leb_spec a b); simpl
           end;
    rewrite ?String.eqb_refl; simpl;
    try (destruct (String.eqb_spec k fk); [congruence|]);
    try (destruct (String.eqb_spec k ak); [congruence|]);
    try (destruct (String.eqb_spec ak k); [congruence|]);
    try (destruct (String.eqb_spec fk k); [congruence|]);
    try lia; try reflexivity.
  all: simpl; rewrite ?String.eqb_refl, ?Z.add_opp_r, ?Z.add_simpl_r;
    repeat match goal with
           | |- context [String.eqb ?a ?b] =>
               destruct (String.eqb_spec a b); [congruence|]
           end;
    reflexivity.
Qed.

(** X5. Inserting a text at an offset inside a text node and then
    removing that text at that offset gives back the state from before:
    the characters, and the selection with both its points.  (When both
    points are on the text node, the direction flag says whether the
    anchor offset is the greater one.) *)
Theorem insert_text_then_remove_text :
  forall state path offset text marks k cs inserted,
    Tree.unique (State.document state) ->
    Node.assertPath (State.document state) path = Some (Node.Text k cs) ->
    0 <= offset <= Z.of_nat (List.length cs) ->
    (Selection.anchorKey (State.selection state) = Some k ->
     Selection.focusKey (State.selection state) = Some k ->
     Selection.isBackward (State.selection state)
     = Some (Selection.anchorOffset (State.selection state)
             >? Selection.focusOffset (State.selection state))) ->
    APPLIERS.insert_text state path offset text marks = Some inserted ->
    APPLIERS.remove_text inserted path offset text = Some state.
Proof.
  intros state path offset text marks k cs inserted U Hpath Hoffset Hflag
    Hins.
  unfold APPLIERS.insert_text in Hins. rewrite Hpath in Hins.
  simpl insertText in Hins. cbv iota beta in Hins.
  set (chars := map (fun a => Character.make a
                       match marks with
                       | Some m => m
                       | None => getMarksAtIndex cs offset
                       end) (list_ascii_of_string text)) in *.
  set (node1 := Text k (Immutable.splice cs (Some offset) 0 chars)) in *.
  destruct (assertPath_replaced (Text k cs) node1 _ _ Hpath) as (doc1 & Hr).
  destruct path as [|i rest].
  { simpl in Hpath. inversion Hpath as [Hdoc]. rewrite Hdoc in Hins.
    discriminate. }
  rewrite (replaced_updateDescendant _ _ _ _ _ Hr U eq_refl) in Hins
    by discriminate.
  inversion Hins; subst inserted; clear Hins.
  assert (U1 : Tree.unique doc1)
    by (eapply unique_same_keys; eauto).
  assert (Hlen : JSString.length text = Z.of_nat (List.length chars)).
  { unfold chars, JSString.length. now rewrite length_map, list_ascii_length. }
  unfold APPLIERS.remove_text. simpl State.document. simpl State.selection.
  rewrite (replaced_new _ _ _ _ _ Hr). simpl removeText. cbv iota beta.
  rewrite (splice_then_cut cs chars offset _ Hoffset Hlen).
  rewrite (replaced_updateDescendant _ _ _ _ _ (replaced_sym _ _ _ _ _ Hr)
             U1 eq_refl) by discriminate.
  pose proof (rebase_there_and_back (State.selection state) k offset
                (JSString.length text)) as Hsel.
  destruct state as [document selection]. simpl in *.
  unfold State.set_selection, State.set_document. simpl.
  f_equal. f_equal. apply Hsel; [unfold JSString.length; lia|exact Hflag].
Qed.
End RoundTrips.

(** * Moving a node anywhere *)

Section MoveAnywhere.
Import Node.

Lemma insert_split {A : Type} (ns : list A) index x :
  exists l r, ns = l ++ r /\ Immutable.insert ns index x = l ++ x :: r.
Proof.
  unfold Immutable.insert, Immutable.splice.
  set (i := Immutable.resolveBegin index (Immutable.size ns)).
  exists (firstn i ns), (skipn i ns). split.
  - symmetry. apply firstn_skipn.
  - now rewrite Nat.add_0_r.
Qed.

(** A container with a node inserted among its children. *)
Lemma insertNode_spec target index node target' :
  insertNode target index node = Some target' ->
  exists c k ty v d l r,
    target = Branch c k ty v d (l ++ r)
    /\ target' = Branch c k ty v d (l ++ node :: r).
Proof.
  destruct target as [|c k ty v d ns]; [discriminate|].
  unfold insertNode. simpl. intros H. inversion H; subst target'.
  destruct (insert_split ns index node) as (l & r & -> & ->).
  exists c, k, ty, v, d, l, r. auto.
Qed.

Lemma noDocumentBelow_with_child c k ty v d l x r :
  Tree.noDocumentBelow (Branch c k ty v d (l ++ r)) ->
  kind x <> Kind.document -> Tree.noDocumentBelow x ->
  Tree.noDocumentBelow (Branch c k ty v d (l ++ x :: r)).
Proof.
  rewrite !noDocumentBelow_Forall, !Forall_app. intros [Hl Hr] Hk Hx.
  split; [assumption|]. constructor; auto.
Qed.

Lemma noDocumentBelow_without_child c k ty v d l x r :
  Tree.noDocumentBelow (Branch c k ty v d (l ++ x :: r)) ->
  Tree.noDocumentBelow (Branch c k ty v d (l ++ r)).
Proof.
  rewrite !noDocumentBelow_Forall, !Forall_app. intros [Hl Hr].
  inversion Hr; subst. auto.
Qed.
End MoveAnywhere.


(** * Splitting and joining *)

Section SplitJoin.
Import Node.

(** Writing a node back at its own path, as the key of the root decides
    it. *)
Lemma write_back_key document path old new document' :
  Tree.unique document ->
  Tree.replaced old new document path document' ->
  key new = key old ->
  (if String.eqb (key new) (key document) then Some new
   else updateDescendant document new) = Some document'.
Proof.
  intros U Hr Hk.
  pose proof (replaced_old _ _ _ _ _ Hr) as Hold.
  destruct path as [|i rest].
  - inversion Hr; subst. now rewrite Hk, String.eqb_refl.
  - rewrite (proj2 (String.eqb_neq _ _))
      by (rewrite Hk; eapply unique_below; eauto).
    eapply replaced_updateDescendant; eauto. discriminate.
Qed.

Lemma halves_kind child position k :
  kind (fst (halves child position k)) = kind child
  /\ kind (snd (halves child position k)) = kind child.
Proof. destruct child as [|[] ? ? ? ? ?]; split; reflexivity. Qed.

Lemma halves_second_key child position k :
  key (snd (halves child position k)) = k.
Proof. now destruct child. Qed.

(** The two halves of a node hold what the node held, and the new key. *)
Lemma halves_keys child position k :
  Permutation
    (getKeys (fst (halves child position k))
     ++ getKeys (snd (halves child position k)))
    (k :: getKeys child).
Proof.
  destruct child as [key cs|c key ty v d ns]; simpl.
  - apply perm_swap.
  - rewrite <- Permutation_middle. rewrite perm_swap. do 2 apply perm_skip.
    rewrite <- flat_map_app. unfold Immutable.take, Immutable.skip.
    now rewrite firstn_skipn.
Qed.

(** The state that [split_node] returns, when every endpoint on the
    node sits on a text. *)
Lemma split_node_state g state parentPath i position node c kp ty v d l r :
  Tree.wellFormed (State.document state) ->
  assertPath (State.document state) parentPath
  = Some (Branch c kp ty v d (l ++ node :: r)) ->
  Tree.pointsAt i (List.length l) (List.length r) ->
  (Selection.anchorKey (State.selection state) = Some (key node)
   \/ Selection.focusKey (State.selection state) = Some (key node) ->
   kind node = Kind.text) ->
  let newKey := fst (generateKey g) in
  let one := fst (halves node position newKey) in
  let two := snd (halves node position newKey) in
  exists document',
    Tree.replaced (Branch c kp ty v d (l ++ node :: r))
      (Branch c kp ty v d (l ++ one :: two :: r))
      (State.document state) parentPath document'
    /\ APPLIERS.split_node g state (parentPath ++ [i]) position
       = Some
           (State.make document'
              (let s := State.selection state in
               let s1 :=
                 if key_is (Selection.startKey s) (key node)
                    && (position <=? Selection.startOffset s)
                 then Selection.moveStartTo s newKey
                        (Selection.startOffset s - position)
                 else s in
               if key_is (Selection.endKey s) (key node)
                  && (position <=? Selection.endOffset s)
               then Selection.moveEndTo s1 newKey
                      (Selection.endOffset s - position)
               else s1),
            snd (generateKey g)).
Proof.
  intros WF Hparent Hi Hsel newKey one two.
  destruct (split_node_document g state parentPath i position node
              c kp ty v d l r WF Hparent Hi)
    as (doc' & Hr & Happly).
  cbv zeta in Happly. rewrite Happly. clear Happly.
  fold newKey one two in Hr. exists doc'. split; [exact Hr|].
  assert (Htwo : key two = newKey) by apply halves_second_key.
  assert (Hon :
    key_is (Selection.startKey (State.selection state)) (key node) = true
    \/ key_is (Selection.endKey (State.selection state)) (key node) = true ->
    getNextText doc' (key node) = Some two).
  { intros Hk.
    assert (Hkind : kind node = Kind.text).
    { apply Hsel. unfold Selection.startKey, Selection.endKey in Hk.
      destruct (Selection.backward (State.selection state));
        destruct Hk as [Hk|Hk]; apply key_is_spec in Hk; auto. }
    destruct node as [k cs|[] ? ? ? ? ?]; try discriminate.
    destruct WF as (_ & U & _).
    eapply split_text_next; eauto. }
  cbv zeta.
  destruct (key_is (Selection.startKey (State.selection state)) (key node))
    eqn:E1;
    destruct (key_is (Selection.endKey (State.selection state)) (key node))
      eqn:E2;
    try (rewrite Hon by auto; rewrite Htwo;
         destruct (position <=? Selection.startOffset (State.selection state)),
           (position <=? Selection.endOffset (State.selection state));
         reflexivity).
  reflexivity.
Qed.

(** What [join_node] does to the document and to the selection: the
    parent gets [merged] in place of the two siblings. *)
Lemma join_node_document state parentPath c kp ty v d l one two r merged :
  Tree.unique (State.document state) ->
  assertPath (State.document state) parentPath
  = Some (Branch c kp ty v d (l ++ one :: two :: r)) ->
  match one, two with
  | Text key cs, Text _ cs' => Some (Text key (cs ++ cs'))
  | Branch c key ty v d ns1, Branch c' _ _ _ _ ns2 =>
      if container_eqb c c' then Some (Branch c key ty v d (ns1 ++ ns2))
      else None
  | _, _ => None
  end = Some merged ->
  exists document',
    Tree.replaced (Branch c kp ty v d (l ++ one :: two :: r))
      (Branch c kp ty v d (l ++ merged :: r))
      (State.document state) parentPath document'
    /\ APPLIERS.join_node state
         (parentPath ++ [Z.of_nat (List.length l) + 1])
       = Some
           (State.make document'
              (let selection := State.selection state in
               if Kind.eqb (kind one) Kind.text then
                 let s1 :=
                   if key_is (Selection.anchorKey selection) (key two)
                   then Selection.moveAnchorTo selection (key one)
                          (length one + Selection.anchorOffset selection)
                   else selection in
                 if key_is (Selection.focusKey selection) (key two)
                 then Selection.moveFocusTo s1 (key one)
                        (length one + Selection.focusOffset selection)
                 else s1
               else selection)).
Proof.
  intros U Hparent Hmerge.
  set (parent := Branch c kp ty v d (l ++ one :: two :: r)) in *.
  set (parent' := Branch c kp ty v d (l ++ merged :: r)).
  destruct (assertPath_replaced parent parent' _ _ Hparent) as (doc' & Hr).
  exists doc'. split; [exact Hr|].
  pose proof (unique_descendant _ _ _ U Hparent) as Up.
  assert (H1 : Tree.pointsAt (Z.of_nat (List.length l) + 1 - 1)
                 (List.length l) (List.length (two :: r))).
  { replace (Z.of_nat (List.length l) + 1 - 1)
      with (Z.of_nat (List.length l)) by lia.
    apply pointsAt_length. }
  assert (Hlen2 : Z.of_nat (List.length l) + 1
                  = Z.of_nat (List.length (l ++ [one]))).
  { rewrite length_app. simpl. lia. }
  assert (Hsplit : l ++ one :: two :: r = (l ++ [one]) ++ two :: r)
    by now rewrite <- app_assoc.
  assert (H2 : Tree.pointsAt (Z.of_nat (List.length l) + 1)
                 (List.length (l ++ [one])) (List.length r)).
  { rewrite Hlen2. apply pointsAt_length. }
  pose proof (assertPath_child _ _ _ _ _ _ _ _ _ _ _ Hparent H1) as Hone.
  assert (Htwo : assertPath (State.document state)
                   (parentPath ++ [Z.of_nat (List.length l) + 1]) = Some two).
  { unfold parent in Hparent. rewrite Hsplit in Hparent.
    exact (assertPath_child _ _ _ _ _ _ _ _ _ _ _ Hparent H2). }
  unfold APPLIERS.join_node, PathOps.last, PathOps.init.
  rewrite last_snoc, removelast_last, Hone, Htwo.
  rewrite (getParent_path _ _ _ _ U Hone), Hparent.
  simpl nodes. cbv iota beta.
  rewrite (indexOf_mid Node.eqb l one (two :: r)
             (siblings_differ _ _ _ _ _ _ _ _ Up) (eqb_refl _)).
  assert (Up' : Tree.unique (Branch c kp ty v d ((l ++ [one]) ++ two :: r)))
    by now rewrite <- Hsplit.
  rewrite Hsplit at 1.
  rewrite (indexOf_mid Node.eqb (l ++ [one]) two r
             (siblings_differ _ _ _ _ _ _ _ _ Up') (eqb_refl _)).
  unfold joinNode. simpl nodes. cbv iota beta.
  rewrite (get_pointsAt l one (two :: r) _ (pointsAt_length _ _)).
  rewrite Hsplit at 1.
  rewrite (get_pointsAt (l ++ [one]) two r _ (pointsAt_length _ _)).
  rewrite Hmerge.
  unfold removeNode, insertNode. simpl nodes. cbv iota beta.
  rewrite Hsplit, splice_remove_mid. simpl set_nodes. simpl nodes.
  cbv iota beta.
  rewrite <- app_assoc. simpl app.
  rewrite splice_remove_mid. simpl set_nodes. simpl nodes. cbv iota beta.
  rewrite insert_mid. simpl set_nodes. fold parent'.
  rewrite (write_back_key _ _ _ _ _ U Hr eq_refl).
  reflexivity.
Qed.

Lemma noDocumentBelow_halves child position k :
  Tree.noDocumentBelow child ->
  Tree.noDocumentBelow (fst (halves child position k))
  /\ Tree.noDocumentBelow (snd (halves child position k)).
Proof.
  destruct child as [key cs|c key ty v d ns]; [simpl; auto|].
  simpl fst. simpl snd. rewrite !noDocumentBelow_Forall.
  unfold Immutable.take, Immutable.skip.
  rewrite <- (firstn_skipn (Z.to_nat position) ns) at 1.
  now rewrite Forall_app.
Qed.

(** The document after a split whose new key is not in use. *)
Lemma split_keeps_wellFormed document parentPath c kp ty v d l node r
    position newKey document' :
  Tree.wellFormed document ->
  Tree.replaced (Branch c kp ty v d (l ++ node :: r))
    (Branch c kp ty v d
       (l ++ fst (halves node position newKey)
          :: snd (halves node position newKey) :: r))
    document parentPath document' ->
  ~ In newKey (getKeys document) ->
  Tree.wellFormed document'
  /\ Permutation (getKeys document') (newKey :: getKeys document).
Proof.
  intros WF Hr Hfresh. pose proof WF as (Hk & U & Hb).
  set (one := fst (halves node position newKey)) in *.
  set (two := snd (halves node position newKey)) in *.
  assert (Hperm : Permutation (getKeys document')
                    ([newKey] ++ getKeys document)).
  { apply (replaced_keys_perm' _ _ _ _ _ _ Hr).
    rewrite (getKeys_with_child c kp ty v d l one (two :: r)).
    rewrite (getKeys_with_child c kp ty v d l two r), app_assoc.
    unfold one, two. rewrite halves_keys. simpl. apply perm_skip.
    symmetry. exact (getKeys_with_child c kp ty v d l node r). }
  split; [|exact Hperm].
  eapply (wellFormed_perm _ _ _ _ _ _ WF Hr eq_refl);
    [|symmetry; exact Hperm|simpl; constructor; assumption].
  intros Hp. pose proof (noDocumentBelow_child _ _ _ _ _ _ _ _ Hp) as [Hkn Hbn].
  apply noDocumentBelow_without_child in Hp.
  destruct (noDocumentBelow_halves node position newKey Hbn) as [H1 H2].
  destruct (halves_kind node position newKey) as [K1 K2].
  apply noDocumentBelow_with_child; [|unfold one; congruence|exact H1].
  apply noDocumentBelow_with_child; [assumption|unfold two; congruence|].
  exact H2.
Qed.

Lemma take_length {A : Type} (cs : list A) position :
  0 <= position <= Z.of_nat (List.length cs) ->
  Z.of_nat (List.length (Immutable.take position cs)) = position.
Proof.
  intros H. unfold Immutable.take. rewrite firstn_length_le; lia.
Qed.

(** The selection after the rebasing of [split_node] on a text and then
    that of [join_node] on its two halves. *)
Lemma rebase_split_join s k newKey position :
  Selection.backward s = false ->
  Selection.anchorKey s <> Some newKey ->
  Selection.focusKey s <> Some newKey ->
  let s2 :=
    let s1 :=
      if key_is (Selection.startKey s) k
         && (position <=? Selection.startOffset s)
      then Selection.moveStartTo s newKey (Selection.startOffset s - position)
      else s in
    if key_is (Selection.endKey s) k && (position <=? Selection.endOffset s)
    then Selection.moveEndTo s1 newKey (Selection.endOffset s - position)
    else s1 in
  let s4 :=
    let s3 :=
      if key_is (Selection.anchorKey s2) newKey
      then Selection.moveAnchorTo s2 k (position + Selection.anchorOffset s2)
      else s2 in
    if key_is (Selection.focusKey s2) newKey
    then Selection.moveFocusTo s3 k (position + Selection.focusOffset s2)
    else s3 in
  Selection.anchor s4 = Selection.anchor s
  /\ Selection.focus s4 = Selection.focus s
  /\ Selection.isFocused s4 = Selection.isFocused s.
Proof.
  intros Hfw Ha Hf. destruct s as [ak ao fk fo bw fc]. simpl in Ha, Hf.
  apply key_is_neq in Ha, Hf.
  pose proof (key_is_Some newKey) as Hnew.
  unfold Selection.backward in Hfw. simpl in Hfw.
  unfold Selection.startKey, Selection.endKey, Selection.startOffset,
    Selection.endOffset, Selection.moveStartTo, Selection.moveEndTo,
    Selection.backward, Selection.anchor, Selection.focus.
  simpl. rewrite Hfw. simpl.
  destruct (key_is ak k) eqn:Eak, (key_is fk k) eqn:Efk; simpl;
    destruct (Z.leb_spec position ao), (Z.leb_spec position fo); simpl;
    rewrite ?Ha, ?Hf, ?Hnew, ?Hfw; simpl; rewrite ?Ha, ?Hf, ?Hnew, ?Hfw;
    simpl;
    try (apply key_is_spec in Eak; subst ak);
    try (apply key_is_spec in Efk; subst fk);
    simpl in *; rewrite ?String.eqb_refl, ?Ha, ?Hf, ?Hfw; simpl;
    rewrite ?String.eqb_refl, ?Ha, ?Hf, ?Hfw; simpl;
    repeat split; try reflexivity; f_equal; lia.
Qed.
End SplitJoin.


(** * What the document reads *)

Section DocumentText.
Import Node.
Local Open Scope string_scope.

Lemma append_empty_r (s : string) : s ++ "" = s.
Proof. induction s; simpl; congruence. Qed.

Lemma append_assoc (a b c : string) : (a ++ b) ++ c = a ++ (b ++ c).
Proof. induction a; simpl; congruence. Qed.

Lemma string_of_list_ascii_app (a b : list ascii) :
  string_of_list_ascii (a ++ b)%list
  = string_of_list_ascii a ++ string_of_list_ascii b.
Proof. induction a; simpl; congruence. Qed.

Lemma characters_text_app a b :
  characters_text (a ++ b)%list = characters_text a ++ characters_text b.
Proof.
  unfold characters_text. now rewrite map_app, string_of_list_ascii_app.
Qed.

Lemma concat_cons (x : string) xs :
  String.concat "" (x :: xs) = x ++ String.concat "" xs.
Proof. destruct xs; simpl; [now rewrite append_empty_r|reflexivity]. Qed.

Lemma concat_app (a b : list string) :
  String.concat "" (a ++ b)%list = String.concat "" a ++ String.concat "" b.
Proof.
  induction a as [|x a IH]; [reflexivity|].
  rewrite <- app_comm_cons, !concat_cons, IH. now rewrite append_assoc.
Qed.

(** The text of a container with the children [l ++ middle ++ r]. *)
Lemma text_children c k ty v d (l middle r : list Node.t) :
  text (Branch c k ty v d (l ++ middle ++ r)%list)
  = String.concat "" (map text l)
    ++ String.concat "" (map text middle)
    ++ String.concat "" (map text r).
Proof. simpl. now rewrite !map_app, !concat_app. Qed.

Lemma text_with_children c k ty v d l middle middle' r :
  String.concat "" (map text middle') = String.concat "" (map text middle) ->
  text (Branch c k ty v d (l ++ middle' ++ r)%list)
  = text (Branch c k ty v d (l ++ middle ++ r)%list).
Proof. intros E. now rewrite !text_children, E. Qed.

(** Replacing a node by one that reads the same leaves the text of the
    tree as it was. *)
Lemma replaced_text old new n p n' :
  Tree.replaced old new n p n' -> text new = text old -> text n' = text n.
Proof.
  induction 1 as [|c k ty v d l x r i p x' Hi Hx IH]; intros E; [exact E|].
  apply (text_with_children c k ty v d l [x] [x'] r).
  simpl. now rewrite IH.
Qed.

Lemma halves_text child position k :
  text (fst (halves child position k)) ++ text (snd (halves child position k))
  = text child.
Proof.
  destruct child as [key cs|c key ty v d ns]; simpl;
    unfold Immutable.take, Immutable.skip.
  - now rewrite <- characters_text_app, firstn_skipn.
  - now rewrite <- concat_app, <- map_app, firstn_skipn.
Qed.

Lemma text_branch c k ty v d ns :
  text (Branch c k ty v d ns) = String.concat "" (map text ns).
Proof. reflexivity. Qed.
End DocumentText.

(** Both sides read the same, child by child. *)
Ltac same_text :=
  repeat (rewrite ?text_branch, ?map_app, ?concat_app, ?map_cons,
            ?concat_cons);
  simpl map; simpl (String.concat EmptyString []);
  rewrite ?append_empty_r, ?append_assoc; simpl append;
  rewrite ?append_empty_r, ?append_assoc;
  reflexivity.

(** X6. [join_node] at the path of a node with a sibling in front of it
    merges the two: two texts into one text with the characters of the
    first followed by those of the second, two containers of one kind
    into one container with the children of the first followed by those
    of the second.  The merged node carries the key and the properties
    of the first and stands where the two stood; the key of the second
    can no longer be looked up, and the document reads as it did
    before. *)
Theorem join_node_merges_siblings :
  forall state parentPath c kp ty v d l one two r merged,
    Tree.unique (State.document state) ->
    Node.assertPath (State.document state) parentPath
    = Some (Node.Branch c kp ty v d (l ++ one :: two :: r)) ->
    (exists k cs k' cs',
       one = Node.Text k cs /\ two = Node.Text k' cs'
       /\ merged = Node.Text k (cs ++ cs'))
    \/ (exists c1 k1 ty1 v1 d1 ns1 k2 ty2 v2 d2 ns2,
          one = Node.Branch c1 k1 ty1 v1 d1 ns1
          /\ two = Node.Branch c1 k2 ty2 v2 d2 ns2
          /\ merged = Node.Branch c1 k1 ty1 v1 d1 (ns1 ++ ns2)) ->
    exists state',
      APPLIERS.join_node state (parentPath ++ [Z.of_nat (List.length l) + 1])
      = Some state'
      /\ Node.assertPath (State.document state') parentPath
         = Some (Node.Branch c kp ty v d (l ++ merged :: r))
      /\ Permutation (Node.getKeys (State.document state))
           (Node.key two :: Node.getKeys (State.document state'))
      /\ Node.getNode (State.document state') (Node.key two) = None
      /\ Node.text (State.document state') = Node.text (State.document state).
Proof.
  intros state parentPath c kp ty v d l one two r merged U Hparent Hcase.
  destruct (join_node_document state parentPath c kp ty v d l one two r merged
              U Hparent) as (doc' & Hr & Hjoin).
  { destruct Hcase as [(k & cs & k' & cs' & -> & -> & ->)
                      |(c1 & k1 & ty1 & v1 & d1 & ns1 & k2 & ty2 & v2 & d2
                        & ns2 & -> & -> & ->)]; [reflexivity|].
    now destruct c1. }
  eexists. split; [exact Hjoin|]. simpl State.document.
  assert (Hperm : Permutation (Node.getKeys (State.document state))
                    (Node.key two :: Node.getKeys doc')).
  { apply (replaced_keys_perm _ _ _ _ _ [Node.key two] Hr).
    simpl. etransitivity; [|apply perm_swap]. apply perm_skip.
    rewrite !flat_map_app. simpl.
    rewrite (Permutation_middle (flat_map Node.getKeys l)).
    apply Permutation_app_head.
    rewrite !app_comm_cons, !app_assoc. apply Permutation_app_tail.
    destruct Hcase as [(k & cs & k' & cs' & -> & -> & ->)
                      |(c1 & k1 & ty1 & v1 & d1 & ns1 & k2 & ty2 & v2 & d2
                        & ns2 & -> & -> & ->)]; simpl.
    - apply perm_swap.
    - rewrite flat_map_app. etransitivity; [|apply perm_swap].
      apply perm_skip. symmetry. apply Permutation_middle. }
  split; [eapply replaced_new; eauto|]. split; [exact Hperm|]. split.
  - apply getNode_none. intros Hin.
    unfold Tree.unique in U. apply (Permutation_NoDup Hperm) in U.
    now inversion U.
  - apply (replaced_text _ _ _ _ _ Hr).
    apply (text_with_children c kp ty v d l [one; two] [merged] r).
    simpl map. rewrite !concat_cons. simpl String.concat.
    rewrite !append_empty_r.
    destruct Hcase as [(k & cs & k' & cs' & -> & -> & ->)
                      |(c1 & k1 & ty1 & v1 & d1 & ns1 & k2 & ty2 & v2 & d2
                        & ns2 & -> & -> & ->)]; simpl.
    + apply characters_text_app.
    + now rewrite map_app, concat_app.
Qed.

(** X7. Splitting a node and then joining the new right sibling back
    gives the document from before and puts the anchor and the focus
    back where they were; the direction flag may come back unknown.
    This is for a well-formed document, a new key that is neither in
    the document nor in the selection, a split position that lies
    within the text when a text is split, and a selection that is not
    backward and has no point on a node that is not a text. *)
Theorem split_node_then_join_node :
  forall g state parentPath index position node split g',
    Tree.wellFormed (State.document state) ->
    0 <= index ->
    Node.assertPath (State.document state) (parentPath ++ [index])
    = Some node ->
    (Selection.anchorKey (State.selection state) = Some (Node.key node)
     \/ Selection.focusKey (State.selection state) = Some (Node.key node) ->
     Node.kind node = Kind.text) ->
    (Node.kind node = Kind.text -> 0 <= position <= Node.length node) ->
    Selection.backward (State.selection state) = false ->
    let newKey := fst (generateKey g) in
    ~ In newKey (Node.getKeys (State.document state)) ->
    Selection.anchorKey (State.selection state) <> Some newKey ->
    Selection.focusKey (State.selection state) <> Some newKey ->
    APPLIERS.split_node g state (parentPath ++ [index]) position
    = Some (split, g') ->
    exists joined,
      APPLIERS.join_node split (parentPath ++ [index + 1]) = Some joined
      /\ State.document joined = State.document state
      /\ Selection.anchor (State.selection joined)
         = Selection.anchor (State.selection state)
      /\ Selection.focus (State.selection joined)
         = Selection.focus (State.selection state)
      /\ Selection.isFocused (State.selection joined)
         = Selection.isFocused (State.selection state).
Proof.
  intros g state parentPath index position node split g' WF Hindex Hpath
    Hsel Hpos Hfw newKey Hfresh Ha Hf Hsplit.
  rewrite assertPath_app in Hpath.
  destruct (Node.assertPath (State.document state) parentPath)
    as [[|c kp ty v d ns]|] eqn:Hparent; try discriminate.
  simpl in Hpath.
  destruct (Immutable.get ns index) as [x|] eqn:G; [|discriminate].
  inversion Hpath; subst x. destruct (get_inv _ _ _ G) as (l & r & -> & Hi).
  assert (Hl : index = Z.of_nat (List.length l)).
  { unfold Tree.pointsAt in Hi.
    destruct (index <? 0) eqn:E; [apply Z.ltb_lt in E; lia|lia]. }
  destruct (split_node_state g state parentPath index position node
              c kp ty v d l r WF Hparent Hi Hsel)
    as (doc1 & Hr1 & Happly).
  cbv zeta in Happly. rewrite Happly in Hsplit.
  inversion Hsplit; subst split g'; clear Hsplit Happly.
  fold newKey in Hr1 |- *.
  set (one := fst (Node.halves node position newKey)) in *.
  set (two := snd (Node.halves node position newKey)) in *.
  pose proof WF as (Hk & U & Hb).
  (* the split document has unique keys *)
  assert (U1 : Tree.unique doc1).
  { unfold Tree.unique.
    assert (Hperm : Permutation (Node.getKeys doc1)
                      ([newKey] ++ Node.getKeys (State.document state))).
    { apply (replaced_keys_perm' _ _ _ _ _ _ Hr1).
      rewrite (getKeys_with_child c kp ty v d l one (two :: r)).
      rewrite (getKeys_with_child c kp ty v d l two r), app_assoc.
      unfold one, two. rewrite halves_keys. simpl. apply perm_skip.
      symmetry. exact (getKeys_with_child c kp ty v d l node r). }
    apply (Permutation_NoDup (Permutation_sym Hperm)). simpl.
    constructor; assumption. }
  destruct (join_node_document
              (State.make doc1
                 (let s := State.selection state in
                  let s1 :=
                    if key_is (Selection.startKey s) (Node.key node)
                       && (position <=? Selection.startOffset s)
                    then Selection.moveStartTo s newKey
                           (Selection.startOffset s - position)
                    else s in
                  if key_is (Selection.endKey s) (Node.key node)
                     && (position <=? Selection.endOffset s)
                  then Selection.moveEndTo s1 newKey
                         (Selection.endOffset s - position)
                  else s1))
              parentPath c kp ty v d l one two r node U1
              (replaced_new _ _ _ _ _ Hr1))
    as (doc2 & Hr2 & Hjoin).
  { unfold one, two.
    destruct node as [k cs|c0 k ty0 v0 d0 ns]; simpl;
      unfold Immutable.take, Immutable.skip.
    - now rewrite firstn_skipn.
    - replace (Node.container_eqb c0 c0) with true by now destruct c0.
      now rewrite firstn_skipn. }
  rewrite Hl. eexists. split; [exact Hjoin|]. clear Hjoin.
  assert (Hdoc : doc2 = State.document state).
  { apply (replaced_same (Node.Branch c kp ty v d (l ++ node :: r)) _
             parentPath).
    eapply replaced_trans; eauto. }
  split; [exact Hdoc|]. simpl State.selection.
  assert (Hkone : Node.key one = Node.key node) by apply halves_key.
  assert (Hktwo : Node.key two = newKey) by apply halves_second_key.
  rewrite Hkone, Hktwo.
  destruct (Node.kind node) eqn:Hkind.
  4:{ (* a text *)
    replace (Kind.eqb (Node.kind one) Kind.text) with true
      by (unfold one; now rewrite (proj1 (halves_kind _ _ _)), Hkind).
    assert (Hlen : Node.length one = position).
    { specialize (Hpos eq_refl). unfold one.
      destruct node as [k cs|[] ? ? ? ? ?]; try discriminate.
      simpl fst. rewrite text_length in *. now apply take_length. }
    rewrite Hlen.
    exact (rebase_split_join (State.selection state) (Node.key node)
             newKey position Hfw Ha Hf). }
  all: replace (Kind.eqb (Node.kind one) Kind.text) with false
         by (unfold one; now rewrite (proj1 (halves_kind _ _ _)), Hkind).
  all: assert (Hs : key_is (Selection.startKey (State.selection state))
                      (Node.key node) = false)
         by (apply key_is_neq; intros E;
             unfold Selection.startKey in E;
             destruct (Selection.backward (State.selection state));
             [specialize (Hsel (or_intror E))|specialize (Hsel (or_introl E))];
             discriminate).
  all: assert (He : key_is (Selection.endKey (State.selection state))
                      (Node.key node) = false)
         by (apply key_is_neq; intros E;
             unfold Selection.endKey in E;
             destruct (Selection.backward (State.selection state));
             [specialize (Hsel (or_introl E))|specialize (Hsel (or_intror E))];
             discriminate).
  all: cbv zeta; rewrite Hs, He; simpl; auto.
Qed.

(** X8. On a well-formed document, a [split_node] below the root with
    a new key that is not in use goes through and leaves a well-formed
    document: its keys are those from before and the new key, and it
    reads as it did before.  (The selection has no endpoint on the node
    unless the node is a text.) *)
Theorem split_node_keeps_document_well_formed :
  forall g state path position node,
    Tree.wellFormed (State.document state) ->
    path <> [] ->
    Node.assertPath (State.document state) path = Some node ->
    (Selection.anchorKey (State.selection state) = Some (Node.key node)
     \/ Selection.focusKey (State.selection state) = Some (Node.key node) ->
     Node.kind node = Kind.text) ->
    let newKey := fst (generateKey g) in
    ~ In newKey (Node.getKeys (State.document state)) ->
    exists state',
      APPLIERS.split_node g state path position
      = Some (state', snd (generateKey g))
      /\ Tree.wellFormed (State.document state')
      /\ Permutation (Node.getKeys (State.document state'))
           (newKey :: Node.getKeys (State.document state))
      /\ Node.text (State.document state') = Node.text (State.document state).
Proof.
  intros g state path position node WF Hne Hpath Hsel newKey Hfresh.
  destruct (assertPath_parent _ _ _ Hpath Hne)
    as (pp & i & c & kp & ty & v & d & l & r & -> & Hparent & Hi).
  destruct (split_node_state g state pp i position node c kp ty v d l r
              WF Hparent Hi Hsel) as (doc' & Hr & Happly).
  fold newKey in Hr, Happly.
  destruct (split_keeps_wellFormed _ _ _ _ _ _ _ _ _ _ _ _ _ WF Hr Hfresh)
    as (WF' & Hperm).
  eexists. split; [exact Happly|]. simpl State.document.
  split; [exact WF'|]. split; [exact Hperm|].
  apply (replaced_text _ _ _ _ _ Hr).
  apply (text_with_children c kp ty v d l [node]
           [fst (Node.halves node position newKey);
            snd (Node.halves node position newKey)] r).
  simpl map. rewrite !concat_cons. simpl String.concat.
  rewrite !append_empty_r. apply halves_text.
Qed.

(** What every [move_node] that goes through keeps. *)
Lemma move_node_invariant :
  forall state path newPath state',
    Tree.wellFormed (State.document state) ->
    APPLIERS.move_node state path newPath = Some state' ->
    Tree.wellFormed (State.document state')
    /\ Permutation (Node.getKeys (State.document state'))
         (Node.getKeys (State.document state))
    /\ State.selection state' = State.selection state.
Proof.
  intros state path newPath state' WF H.
  pose proof WF as (Hk & U & Hb).
  unfold APPLIERS.move_node in H.
  destruct (Node.assertPath (State.document state) path) as [node|] eqn:Hnode;
    [|discriminate].
  destruct (Node.getParent (State.document state) (Node.key node))
    as [parent|] eqn:Hparent; [|discriminate].
  assert (Hne : path <> []).
  { intros ->. simpl in Hnode. inversion Hnode; subst node.
    rewrite (getParent_root _ U) in Hparent. discriminate. }
  destruct (assertPath_parent _ _ _ Hnode Hne)
    as (pp & i & c & kp & ty & v & d & l & r & -> & Hpp & Hi).
  rewrite (getParent_path _ _ _ _ U Hnode), Hpp in Hparent.
  inversion Hparent; subst parent; clear Hparent.
  unfold PathOps.last, PathOps.init in H.
  rewrite last_snoc, removelast_last in H.
  unfold Node.removeNode in H. simpl Node.nodes in H. cbv iota beta in H.
  rewrite (splice_remove_pointsAt _ _ _ _ Hi) in H. simpl Node.set_nodes in H.
  set (parent := Node.Branch c kp ty v d (l ++ node :: r)) in *.
  set (parent1 := Node.Branch c kp ty v d (l ++ r)) in *.
  destruct (assertPath_replaced parent parent1 _ _ Hpp) as (doc1 & Hr1).
  rewrite (write_back _ _ _ _ _ WF Hr1 eq_refl eq_refl) in H.
  assert (Hperm1 : Permutation (Node.getKeys (State.document state))
                     (Node.getKeys node ++ Node.getKeys doc1)).
  { apply (replaced_keys_perm _ _ _ _ _ _ Hr1). apply getKeys_with_child. }
  assert (WF1 : Tree.wellFormed doc1).
  { eapply wellFormed_replaced; eauto.
    - intros k0. unfold parent, parent1. simpl.
      destruct (string_dec kp k0); rewrite !flat_map_app; simpl;
        rewrite !count_occ_app; lia.
    - apply noDocumentBelow_without_child. }
  (* the target is a node of the document without the moved node *)
  match type of H with
  | match ?e with Some _ => _ | None => _ end = _ =>
      destruct e as [target|] eqn:Htarget; [|discriminate]
  end.
  assert (Hq : exists q, Node.assertPath doc1 q = Some target).
  { destruct (PathOps.every_equal pp (removelast newPath)
              && (PathOps.length pp =? PathOps.length (removelast newPath))).
    - inversion Htarget; subst target. exists pp.
      eapply replaced_new; eauto.
    - destruct (PathOps.every_equal pp (removelast newPath)
                && PathOps.lt (Some i)
                     (nth_error (removelast newPath) (List.length pp)));
        eauto. }
  destruct Hq as (q & Hq). clear Htarget.
  destruct (Node.insertNode target (Immutable.last newPath) node)
    as [target'|] eqn:Hinsert; [|discriminate].
  destruct (insertNode_spec _ _ _ _ Hinsert)
    as (c' & k' & ty' & v' & d' & l' & r' & -> & ->).
  destruct (assertPath_replaced (Node.Branch c' k' ty' v' d' (l' ++ r'))
              (Node.Branch c' k' ty' v' d' (l' ++ node :: r')) _ _ Hq)
    as (doc2 & Hr2).
  rewrite (write_back _ _ _ _ _ WF1 Hr2 eq_refl eq_refl) in H.
  inversion H; subst state'; clear H. simpl.
  assert (Hperm2 : Permutation (Node.getKeys doc2)
                     (Node.getKeys node ++ Node.getKeys doc1)).
  { apply (replaced_keys_perm' _ _ _ _ _ _ Hr2). apply getKeys_with_child. }
  assert (Hperm : Permutation (Node.getKeys doc2)
                    (Node.getKeys (State.document state))).
  { now rewrite Hperm2, Hperm1. }
  split; [|split; [exact Hperm|reflexivity]].
  eapply (wellFormed_perm _ _ _ _ _ _ WF1 Hr2 eq_refl);
    [|symmetry; exact Hperm|exact U].
  intros Hbt. apply noDocumentBelow_with_child; [assumption| |].
  - destruct pp as [|j pp']; simpl app in Hnode;
      exact (noDocumentBelow_path _ _ _ _ Hb Hnode).
  - exact (noDocumentBelow_at _ _ _ Hb Hnode).
Qed.

(** X9. Whatever the two paths, a [move_node] that goes through on a
    well-formed document leaves a well-formed document with the same
    keys: no node is lost and none is duplicated.  The selection is not
    touched. *)
Theorem move_node_keeps_keys :
  forall state path newPath state',
    Tree.wellFormed (State.document state) ->
    APPLIERS.move_node state path newPath = Some state' ->
    Tree.wellFormed (State.document state')
    /\ Permutation (Node.getKeys (State.document state'))
         (Node.getKeys (State.document state))
    /\ State.selection state' = State.selection state.
Proof. exact move_node_invariant. Qed.

(** * Transforms by key *)

Section ByKey.
Import Node.
Variable normalizer :
  Key -> State.t * KeyGenerator -> option (State.t * KeyGenerator).

(** The paths that [getPath] finds count every index from the front. *)
Lemma getDescendantPath_nonneg n k p :
  getDescendantPath n k = Some p -> Forall (fun i => 0 <= i) p.
Proof.
  revert p. induction n as [k0 cs|c k0 ty v d ns IH] using Tree.node_ind;
    intros p; simpl; [discriminate|].
  assert (H : forall i, 0 <= i ->
    Immutable.findMapFrom
      (fun i c =>
         if String.eqb (key c) k then Some [i]
         else option_map (cons i) (getDescendantPath c k)) i ns = Some p ->
    Forall (fun i => 0 <= i) p).
  { induction IH as [|x xs Hx Hxs IHxs]; intros i Hi; simpl; [discriminate|].
    destruct (String.eqb (key x) k).
    - intros E. inversion E; subst. auto.
    - destruct (getDescendantPath x k) as [q|] eqn:Eq; simpl.
      + intros E. inversion E; subst. constructor; auto.
      + apply IHxs. lia. }
  apply H. lia.
Qed.

Lemma getPath_nonneg n k p :
  getPath n k = Some p -> Forall (fun i => 0 <= i) p.
Proof.
  unfold getPath. destruct (String.eqb (key n) k).
  - intros E. inversion E; subst. constructor.
  - apply getDescendantPath_nonneg.
Qed.

Lemma pointsAt_nonneg i (before after : nat) :
  0 <= i -> Tree.pointsAt i before after -> i = Z.of_nat before.
Proof.
  unfold Tree.pointsAt. intros H.
  destruct (i <? 0) eqn:E; [apply Z.ltb_lt in E; lia|auto].
Qed.

(** Looking up a child of a container by its key: the path found ends
    at the position of the child, and leads through the container. *)
Lemma locate document parentPath c kp ty v d l node r :
  Tree.unique document ->
  assertPath document parentPath
  = Some (Branch c kp ty v d (l ++ node :: r)) ->
  exists parentPath',
    getPath document (key node)
    = Some (parentPath' ++ [Z.of_nat (List.length l)])
    /\ assertPath document parentPath'
       = Some (Branch c kp ty v d (l ++ node :: r))
    /\ getNode document (key node) = Some node
    /\ getParent document (key node)
       = Some (Branch c kp ty v d (l ++ node :: r))
    /\ forall new document',
         Tree.replaced (Branch c kp ty v d (l ++ node :: r)) new
           document parentPath' document' ->
         Tree.replaced (Branch c kp ty v d (l ++ node :: r)) new
           document parentPath document'.
Proof.
  intros U Hparent.
  pose proof (assertPath_child _ _ _ _ _ _ _ _ _ _ _ Hparent
                (pointsAt_length _ _)) as Hnode.
  pose proof (getNode_unique _ _ _ U Hnode) as Hget.
  destruct (getNode_getPath _ _ _ Hget) as (path & Hgp & Hpath).
  assert (Hne : path <> []).
  { intros ->. simpl in Hpath. inversion Hpath as [E].
    pose proof (getParent_path _ _ _ _ U Hnode) as Hp.
    rewrite <- E, (getParent_root _ U), Hparent in Hp. discriminate. }
  destruct (assertPath_parent _ _ _ Hpath Hne)
    as (pp & i & c' & k' & ty' & v' & d' & l' & r' & -> & Hpp & Hi).
  pose proof (getParent_path _ _ _ _ U Hnode) as Hp1.
  pose proof (getParent_path _ _ _ _ U Hpath) as Hp2.
  rewrite Hp1, Hparent, Hpp in Hp2. inversion Hp2; subst c' k' ty' v' d'.
  pose proof (unique_descendant _ _ _ U Hparent) as Up.
  unfold Tree.unique in Up. simpl in Up. apply NoDup_cons_iff in Up as [_ Up].
  match goal with
  | E : l ++ node :: r = l' ++ node :: r' |- _ =>
      destruct (split_unique _ _ _ _ _ _ _ Up E (key_in_getKeys node)
                  (key_in_getKeys node)) as (<- & _ & <-)
  end.
  assert (Hi' : i = Z.of_nat (List.length l)).
  { apply (pointsAt_nonneg _ _ (List.length r)); [|exact Hi].
    apply getPath_nonneg in Hgp. apply Forall_app in Hgp as [_ Hgp].
    now inversion Hgp. }
  subst i. exists pp. split; [exact Hgp|]. split; [exact Hpp|].
  split; [exact Hget|]. split; [now rewrite Hp1|].
  intros new document' Hr.
  eapply replaced_by_key; eauto.
Qed.

Lemma applyOperation_trace transform operation state' keys' :
  Apply.applyOperation (Transforms.keys transform)
    (Transforms.state transform) operation = Some (state', keys') ->
  Transforms.applyOperation transform operation
  = Some (Transforms.make state' keys'
            (Transforms.trace transform ++ [Transforms.Applied operation])).
Proof. unfold Transforms.applyOperation. now intros ->. Qed.
End ByKey.

(** * Moving a node out of its parent *)

Section MoveUp.
Import Node.

(** Under unique keys a key has one path that counts from the front. *)
Lemma canonical_path_unique n p :
  forall p' m m',
    Tree.unique n ->
    assertPath n p = Some m -> assertPath n p' = Some m' ->
    key m = key m' ->
    Forall (fun i => 0 <= i) p -> Forall (fun i => 0 <= i) p' ->
    p = p'.
Proof.
  revert n. induction p as [|i p IH]; intros n p' m m' U H H' Hk Hp Hp'.
  - destruct p' as [|i' p']; [reflexivity|]. exfalso.
    simpl in H. inversion H; subst m.
    eapply unique_below; eauto.
  - destruct p' as [|i' p'].
    + exfalso. simpl in H'. inversion H'; subst m'.
      eapply unique_below; eauto.
    + simpl in H, H'. destruct n as [|c k ty v d ns]; simpl in H, H';
        [discriminate|].
      destruct (Immutable.get ns i) as [x|] eqn:G; [|discriminate].
      destruct (Immutable.get ns i') as [x'|] eqn:G'; [|discriminate].
      destruct (get_inv _ _ _ G) as (l & r & E & Hi).
      destruct (get_inv _ _ _ G') as (l' & r' & E' & Hi').
      inversion Hp; subst. inversion Hp'; subst.
      assert (Hin : In (key m) (getKeys x))
        by (eapply assertPath_keys; [eassumption|apply key_in_getKeys]).
      assert (Hin' : In (key m) (getKeys x'))
        by (rewrite Hk; eapply assertPath_keys;
            [eassumption|apply key_in_getKeys]).
      pose proof U as U0.
      unfold Tree.unique in U0. simpl in U0.
      apply NoDup_cons_iff in U0 as [_ U0].
      destruct (split_unique _ _ _ _ _ _ _ U0 E' Hin Hin')
        as (<- & <- & <-).
      apply pointsAt_nonneg in Hi, Hi'; try assumption. subst i i'.
      f_equal.
      apply unique_children in U as (Ux & _).
      eapply IH; eauto.
Qed.

Lemma isPrefix_longer (p : Path) i : Immutable.isPrefix Z.eqb (p ++ [i]) p = false.
Proof.
  induction p as [|j p IH]; [reflexivity|].
  simpl. now rewrite IH, andb_false_r.
Qed.

(** Replacing a child is replacing its parent. *)
Lemma replaced_snoc c k ty v d l x x' r n p n' i :
  Tree.replaced (Branch c k ty v d (l ++ x :: r))
    (Branch c k ty v d (l ++ x' :: r)) n p n' ->
  Tree.pointsAt i (List.length l) (List.length r) ->
  Tree.replaced x x' n (p ++ [i]) n'.
Proof.
  intros H Hi.
  remember (Branch c k ty v d (l ++ x :: r)) as old eqn:Eold.
  remember (Branch c k ty v d (l ++ x' :: r)) as new eqn:Enew.
  induction H as [|c0 k0 ty0 v0 d0 l0 y r0 j q y' Hj Hy IH].
  - subst. simpl. constructor; [assumption|constructor].
  - simpl. constructor; auto.
Qed.

(** Moving a node out of its parent, in among the children of its
    grandparent. *)
Lemma move_node_up state gpath gc gk gty gv gd gl gr pc pk pty pv pd l node r
    j gl' gr' :
  Tree.wellFormed (State.document state) ->
  assertPath (State.document state) gpath
  = Some (Branch gc gk gty gv gd
            (gl ++ Branch pc pk pty pv pd (l ++ node :: r) :: gr)) ->
  gl ++ Branch pc pk pty pv pd (l ++ r) :: gr = gl' ++ gr' ->
  Immutable.resolveIndex j (Immutable.size (gl' ++ gr')) = List.length gl' ->
  exists document',
    Tree.replaced
      (Branch gc gk gty gv gd
         (gl ++ Branch pc pk pty pv pd (l ++ node :: r) :: gr))
      (Branch gc gk gty gv gd (gl' ++ node :: gr'))
      (State.document state) gpath document'
    /\ Tree.wellFormed document'
    /\ APPLIERS.move_node state
         (gpath ++ [Z.of_nat (List.length gl); Z.of_nat (List.length l)])
         (gpath ++ [j])
       = Some (State.make document' (State.selection state)).
Proof.
  intros WF Hgp Hsplit Hj.
  set (P := Branch pc pk pty pv pd (l ++ node :: r)) in *.
  set (P1 := Branch pc pk pty pv pd (l ++ r)) in *.
  set (GP := Branch gc gk gty gv gd (gl ++ P :: gr)) in *.
  set (GP1 := Branch gc gk gty gv gd (gl ++ P1 :: gr)).
  set (GP2 := Branch gc gk gty gv gd (gl' ++ node :: gr')).
  pose proof WF as (Hk & U & Hb).
  destruct (assertPath_replaced GP GP1 _ _ Hgp) as (doc1 & Hg1).
  pose proof (replaced_snoc _ _ _ _ _ _ _ _ _ _ _ _ _ Hg1
                (pointsAt_length _ _)) as Hr1.
  assert (HP : assertPath (State.document state)
                 (gpath ++ [Z.of_nat (List.length gl)]) = Some P)
    by exact (replaced_old _ _ _ _ _ Hr1).
  assert (Hnode : assertPath (State.document state)
                    ((gpath ++ [Z.of_nat (List.length gl)])
                     ++ [Z.of_nat (List.length l)]) = Some node)
    by exact (assertPath_child _ _ _ _ _ _ _ _ _ _ _ HP
                (pointsAt_length _ _)).
  assert (WF1 : Tree.wellFormed doc1).
  { eapply (wellFormed_replaced P P1); eauto.
    - intros k0. unfold P, P1. simpl.
      destruct (string_dec pk k0); rewrite !flat_map_app; simpl;
        rewrite !count_occ_app; lia.
    - apply noDocumentBelow_without_child. }
  assert (Hg2 : exists doc2, Tree.replaced GP1 GP2 doc1 gpath doc2)
    by (eapply assertPath_replaced, replaced_new; eauto).
  destruct Hg2 as (doc2 & Hg2).
  assert (Hperm : Permutation (getKeys doc2)
                    (getKeys (State.document state))).
  { assert (H1 : Permutation (getKeys (State.document state))
                   (getKeys node ++ getKeys doc1))
      by (apply (replaced_keys_perm _ _ _ _ _ _ Hr1);
          apply getKeys_with_child).
    assert (H2 : Permutation (getKeys doc2) (getKeys node ++ getKeys doc1)).
    { apply (replaced_keys_perm' _ _ _ _ _ _ Hg2). unfold GP1, GP2.
      rewrite Hsplit. apply getKeys_with_child. }
    now rewrite H2, H1. }
  assert (Hnk : kind node <> Kind.document).
  { replace ((gpath ++ [Z.of_nat (List.length gl)])
             ++ [Z.of_nat (List.length l)])
      with (gpath ++ [Z.of_nat (List.length gl); Z.of_nat (List.length l)])
      in Hnode by now rewrite <- app_assoc.
    destruct gpath; simpl app in Hnode;
      exact (noDocumentBelow_path _ _ _ _ Hb Hnode). }
  assert (WF2 : Tree.wellFormed doc2).
  { eapply (wellFormed_perm _ _ _ _ _ _ WF1 Hg2 eq_refl);
      [|symmetry; exact Hperm|exact U].
    unfold GP1, GP2. rewrite Hsplit. intros Hbt.
    apply noDocumentBelow_with_child; [assumption|assumption|].
    exact (noDocumentBelow_at _ _ _ Hb Hnode). }
  exists doc2. split; [eapply replaced_trans; eauto|]. split; [exact WF2|].
  replace (gpath ++ [Z.of_nat (List.length gl); Z.of_nat (List.length l)])
    with ((gpath ++ [Z.of_nat (List.length gl)])
          ++ [Z.of_nat (List.length l)]) by now rewrite <- app_assoc.
  unfold APPLIERS.move_node, PathOps.last, PathOps.init.
  rewrite !last_snoc, !removelast_last, Hnode.
  rewrite (getParent_path _ _ _ _ U Hnode), HP.
  unfold removeNode. simpl nodes. cbv iota beta.
  rewrite splice_remove_mid. simpl set_nodes. fold P1.
  rewrite (write_back _ _ _ _ _ WF Hr1 eq_refl eq_refl).
  unfold PathOps.every_equal. rewrite isPrefix_longer. simpl andb. cbv iota.
  rewrite (replaced_new _ _ _ _ _ Hg1).
  unfold insertNode, GP1. simpl nodes. cbv iota beta.
  rewrite Hsplit, (insert_resolved _ _ _ _ Hj). simpl set_nodes. fold GP2.
  assert (Hg2' : Tree.replaced (Branch gc gk gty gv gd (gl' ++ gr')) GP2
                   doc1 gpath doc2).
  { unfold GP1 in Hg2. now rewrite Hsplit in Hg2. }
  now rewrite (write_back _ _ _ _ _ WF1 Hg2' eq_refl eq_refl).
Qed.
End MoveUp.

(** * Unwrapping a node *)

Section Unwrap.
Import Node.
Variable normalizer :
  Key -> State.t * KeyGenerator -> option (State.t * KeyGenerator).

(** Under unique keys, [getPath] finds the path that counts from the
    front. *)
Lemma getPath_canonical n p m :
  Tree.unique n -> assertPath n p = Some m ->
  Forall (fun i => 0 <= i) p ->
  getPath n (key m) = Some p.
Proof.
  intros U H Hp. destruct (getPath_unique _ _ _ U H) as (p' & Hgp & H').
  rewrite Hgp. f_equal. symmetry.
  eapply canonical_path_unique; eauto. eapply getPath_nonneg; eauto.
Qed.

Lemma find_key_mid (l : list Node.t) x r :
  (forall y, In y l -> key y <> key x) ->
  find (fun c => String.eqb (key c) (key x)) (l ++ x :: r) = Some x.
Proof.
  intros H. induction l as [|y l IH]; simpl.
  - now rewrite String.eqb_refl.
  - rewrite (proj2 (String.eqb_neq _ _)) by (apply H; now left).
    apply IH. intros; apply H; now right.
Qed.

Lemma siblings_keys_differ c k ty v d l x r :
  Tree.unique (Branch c k ty v d (l ++ x :: r)) ->
  forall y, In y l -> key y <> key x.
Proof.
  intros U y Hy E.
  apply unique_children in U as (_ & _ & Hd).
  eapply (Hd y); [apply in_app_iff; now left|apply key_in_getKeys|].
  rewrite E. apply key_in_getKeys.
Qed.

Lemma nonneg_snoc p n :
  Forall (fun i => 0 <= i) p ->
  Forall (fun i => 0 <= i) (p ++ [Z.of_nat n]).
Proof. intros H. apply Forall_app. split; [assumption|]. constructor; [lia|auto]. Qed.

(** The lookups at the head of [unwrapNodeByKey], for a node whose
    parent has a parent. *)
Lemma unwrap_lookups transform gpath gc gk gty gv gd gl gr pc pk pty pv pd
    l node r :
  let document := State.document (Transforms.state transform) in
  let P := Branch pc pk pty pv pd (l ++ node :: r) in
  let GP := Branch gc gk gty gv gd (gl ++ P :: gr) in
  Tree.unique document ->
  assertPath document gpath = Some GP ->
  Forall (fun i => 0 <= i) gpath ->
  getParent document (key node) = Some P
  /\ getChild P (key node) = Some node
  /\ Immutable.indexOf Node.eqb (l ++ node :: r) node
     = Z.of_nat (List.length l)
  /\ getParent document pk = Some GP
  /\ Immutable.indexOf Node.eqb (gl ++ P :: gr) P
     = Z.of_nat (List.length gl)
  /\ getPath document gk = Some gpath
  /\ getPath document pk = Some (gpath ++ [Z.of_nat (List.length gl)])
  /\ getPath document (key node)
     = Some (gpath ++ [Z.of_nat (List.length gl); Z.of_nat (List.length l)]).
Proof.
  intros document P GP U Hgp Hnn.
  pose proof (assertPath_child _ _ _ _ _ _ _ _ _ _ _ Hgp
                (pointsAt_length _ _)) as HP.
  pose proof (assertPath_child _ _ _ _ _ _ _ _ _ _ _ HP
                (pointsAt_length _ _)) as Hnode.
  pose proof (unique_descendant _ _ _ U Hgp) as Ug.
  pose proof (unique_descendant _ _ _ U HP) as Up.
  split; [now rewrite (getParent_path _ _ _ _ U Hnode)|].
  split; [apply find_key_mid, (siblings_keys_differ _ _ _ _ _ _ _ _ Up)|].
  split; [apply indexOf_mid;
          [apply (siblings_differ _ _ _ _ _ _ _ _ Up)|apply eqb_refl]|].
  split; [now rewrite <- Hgp, <- (getParent_path _ _ _ _ U HP)|].
  split; [apply indexOf_mid;
          [apply (siblings_differ _ _ _ _ _ _ _ _ Ug)|apply eqb_refl]|].
  split; [exact (getPath_canonical _ _ _ U Hgp Hnn)|].
  split.
  - apply (getPath_canonical _ _ _ U HP). now apply nonneg_snoc.
  - rewrite <- app_assoc in Hnode. simpl app in Hnode.
    apply (getPath_canonical _ _ _ U Hnode).
    replace (gpath ++ [Z.of_nat (List.length gl); Z.of_nat (List.length l)])
      with ((gpath ++ [Z.of_nat (List.length gl)])
            ++ [Z.of_nat (List.length l)]) by now rewrite <- app_assoc.
    now apply nonneg_snoc, nonneg_snoc.
Qed.

(** [moveNodeByKey] for a node that goes from its parent to its
    grandparent. *)
Lemma moveNodeByKey_up transform gpath gc gk gty gv gd gl gr pc pk pty pv pd
    l node r j gl' gr' options :
  let document := State.document (Transforms.state transform) in
  Tree.wellFormed document ->
  assertPath document gpath
  = Some (Branch gc gk gty gv gd
            (gl ++ Branch pc pk pty pv pd (l ++ node :: r) :: gr)) ->
  Forall (fun i => 0 <= i) gpath ->
  gl ++ Branch pc pk pty pv pd (l ++ r) :: gr = gl' ++ gr' ->
  Immutable.resolveIndex j (Immutable.size (gl' ++ gr')) = List.length gl' ->
  exists document',
    Tree.replaced
      (Branch gc gk gty gv gd
         (gl ++ Branch pc pk pty pv pd (l ++ node :: r) :: gr))
      (Branch gc gk gty gv gd (gl' ++ node :: gr'))
      document gpath document'
    /\ Tree.wellFormed document'
    /\ Transforms.moveNodeByKey normalizer transform (key node) gk j options
       = let moved :=
           Transforms.make
             (State.make document'
                (State.selection (Transforms.state transform)))
             (Transforms.keys transform)
             (Transforms.trace transform
              ++ [Transforms.Applied
                    (Operation.move_node
                       (gpath ++ [Z.of_nat (List.length gl);
                                  Z.of_nat (List.length l)])
                       (gpath ++ [j]))]) in
         if Transforms.normalize_of options then
           let? parent := getCommonAncestor document (key node) gk in
           Transforms.normalizeNodeByKey normalizer moved (key parent)
         else Some moved.
Proof.
  intros document WF Hgp Hnn Hsplit Hj. subst document.
  destruct (move_node_up (Transforms.state transform) gpath gc gk gty gv gd
              gl gr pc pk pty pv pd l node r j gl' gr' WF Hgp Hsplit Hj)
    as (doc' & Hr & WF' & Hmove).
  exists doc'. split; [exact Hr|]. split; [exact WF'|].
  destruct WF as (_ & U & _).
  destruct (unwrap_lookups transform gpath gc gk gty gv gd gl gr
              pc pk pty pv pd l node r U Hgp Hnn)
    as (_ & _ & _ & _ & _ & Hpg & _ & Hpn).
  unfold Transforms.moveNodeByKey. rewrite Hpn, Hpg.
  unfold Transforms.applyOperation. simpl Apply.applyOperation.
  rewrite Hmove. reflexivity.
Qed.
End Unwrap.

(** X10. Unwrapping a first child that has siblings moves it in front of
    its parent, which keeps the other children; the document stays
    well-formed, reads as before, and the selection is as it was.  One
    [move_node] is applied; with normalization on, the common ancestor
    that the document had for the node and its grandparent is
    normalized afterwards. *)
Theorem unwrapNodeByKey_first_child :
  forall normalizer transform grandparentPath gc gk gty gv gd gl gr
         pc pk pty pv pd node r options,
    let document := State.document (Transforms.state transform) in
    Tree.wellFormed document ->
    Node.assertPath document grandparentPath
    = Some (Node.Branch gc gk gty gv gd
              (gl ++ Node.Branch pc pk pty pv pd (node :: r) :: gr)) ->
    r <> [] ->
    exists moved path newPath,
      Node.assertPath (State.document (Transforms.state moved)) grandparentPath
      = Some (Node.Branch gc gk gty gv gd
                (gl ++ node :: Node.Branch pc pk pty pv pd r :: gr))
      /\ Tree.wellFormed (State.document (Transforms.state moved))
      /\ Node.text (State.document (Transforms.state moved))
         = Node.text document
      /\ State.selection (Transforms.state moved)
         = State.selection (Transforms.state transform)
      /\ Transforms.trace moved
         = Transforms.trace transform
           ++ [Transforms.Applied (Operation.move_node path newPath)]
      /\ Transforms.unwrapNodeByKey normalizer transform (Node.key node)
           options
         = if Transforms.normalize_of options then
             let? parent :=
               Node.getCommonAncestor document (Node.key node) gk in
             Transforms.normalizeNodeByKey normalizer moved (Node.key parent)
           else Some moved.
Proof.
  intros normalizer transform gpp gc gk gty gv gd gl gr pc pk pty pv pd
    node r options document WF Hgpp Hr. subst document.
  pose proof WF as (_ & U & _).
  destruct (getPath_unique _ _ _ U Hgpp) as (gpath & Hgpath & Hgp).
  pose proof (getPath_nonneg _ _ _ Hgpath) as Hnn.
  destruct (unwrap_lookups transform gpath gc gk gty gv gd gl gr
              pc pk pty pv pd [] node r U Hgp Hnn)
    as (Hparent & Hchild & Hindex & Hpp & Hpindex & _).
  destruct (moveNodeByKey_up normalizer transform gpath gc gk gty gv gd gl gr
              pc pk pty pv pd [] node r (Z.of_nat (List.length gl)) gl
              (Node.Branch pc pk pty pv pd r :: gr) options WF Hgp Hnn
              eq_refl (resolveIndex_length _ _))
    as (doc' & Hrep & WF' & Hmove).
  eexists. exists (gpath ++ [Z.of_nat (List.length gl); Z.of_nat 0%nat]),
    (gpath ++ [Z.of_nat (List.length gl)]).
  split; [|split; [|split; [|split; [|split]]]]; cycle 5.
  - unfold Transforms.unwrapNodeByKey.
    simpl app in Hparent, Hchild, Hindex, Hpp, Hpindex.
    rewrite Hparent, Hchild. simpl Node.nodes. cbv iota beta.
    rewrite Hindex. simpl Node.key. rewrite Hpp. simpl Node.nodes.
    cbv iota beta. rewrite Hpindex.
    replace (Immutable.size (node :: r) =? 1) with false.
    2:{ symmetry. apply Z.eqb_neq. unfold Immutable.size.
        destruct r; [congruence|simpl List.length; lia]. }
    simpl (Z.of_nat (List.length []) =? 0). cbv iota.
    exact Hmove.
  - simpl.
    destruct (replaced_by_key _ _ _ _ _ Hrep gpp _ U Hgpp eq_refl)
      as [_ Hrep'].
    exact (replaced_new _ _ _ _ _ Hrep').
  - exact WF'.
  - simpl State.document. apply (replaced_text _ _ _ _ _ Hrep).
    apply (text_with_children gc gk gty gv gd gl
             [Node.Branch pc pk pty pv pd ([] ++ node :: r)]
             [node; Node.Branch pc pk pty pv pd r] gr).
    same_text.
  - reflexivity.
  - reflexivity.
Qed.

(** X11. Unwrapping a last child that has siblings moves it behind its
    parent, which keeps the other children; the document stays
    well-formed, reads as before, and the selection is as it was.  One
    [move_node] is applied; with normalization on, the common ancestor
    that the document had for the node and its grandparent is
    normalized afterwards. *)
Theorem unwrapNodeByKey_last_child :
  forall normalizer transform grandparentPath gc gk gty gv gd gl gr
         pc pk pty pv pd l node options,
    let document := State.document (Transforms.state transform) in
    Tree.wellFormed document ->
    Node.assertPath document grandparentPath
    = Some (Node.Branch gc gk gty gv gd
              (gl ++ Node.Branch pc pk pty pv pd (l ++ [node]) :: gr)) ->
    l <> [] ->
    exists moved path newPath,
      Node.assertPath (State.document (Transforms.state moved)) grandparentPath
      = Some (Node.Branch gc gk gty gv gd
                (gl ++ Node.Branch pc pk pty pv pd l :: node :: gr))
      /\ Tree.wellFormed (State.document (Transforms.state moved))
      /\ Node.text (State.document (Transforms.state moved))
         = Node.text document
      /\ State.selection (Transforms.state moved)
         = State.selection (Transforms.state transform)
      /\ Transforms.trace moved
         = Transforms.trace transform
           ++ [Transforms.Applied (Operation.move_node path newPath)]
      /\ Transforms.unwrapNodeByKey normalizer transform (Node.key node)
           options
         = if Transforms.normalize_of options then
             let? parent :=
               Node.getCommonAncestor document (Node.key node) gk in
             Transforms.normalizeNodeByKey normalizer moved (Node.key parent)
           else Some moved.
Proof.
  intros normalizer transform gpp gc gk gty gv gd gl gr pc pk pty pv pd
    l node options document WF Hgpp Hl. subst document.
  pose proof WF as (_ & U & _).
  destruct (getPath_unique _ _ _ U Hgpp) as (gpath & Hgpath & Hgp).
  pose proof (getPath_nonneg _ _ _ Hgpath) as Hnn.
  destruct (unwrap_lookups transform gpath gc gk gty gv gd gl gr
              pc pk pty pv pd l node [] U Hgp Hnn)
    as (Hparent & Hchild & Hindex & Hpp & Hpindex & _).
  destruct (moveNodeByKey_up normalizer transform gpath gc gk gty gv gd gl gr
              pc pk pty pv pd l node [] (Z.of_nat (List.length gl) + 1)
              (gl ++ [Node.Branch pc pk pty pv pd (l ++ [])]) gr options
              WF Hgp Hnn)
    as (doc' & Hrep & WF' & Hmove).
  { now rewrite <- app_assoc. }
  { replace (Z.of_nat (List.length gl) + 1)
      with (Z.of_nat (List.length
                        (gl ++ [Node.Branch pc pk pty pv pd (l ++ [])])))
      by (rewrite length_app; simpl; lia).
    apply resolveIndex_length. }
  eexists. exists (gpath ++ [Z.of_nat (List.length gl);
                             Z.of_nat (List.length l)]),
    (gpath ++ [Z.of_nat (List.length gl) + 1]).
  split; [|split; [|split; [|split; [|split]]]]; cycle 5.
  - unfold Transforms.unwrapNodeByKey.
    rewrite Hparent, Hchild. simpl Node.nodes. cbv iota beta.
    rewrite Hindex. simpl Node.key. rewrite Hpp. simpl Node.nodes.
    cbv iota beta. rewrite Hpindex.
    assert (Hlen : (0 < List.length l)%nat)
      by (destruct l; [congruence|simpl; lia]).
    replace (Immutable.size (l ++ [node]) =? 1) with false.
    2:{ symmetry. apply Z.eqb_neq. unfold Immutable.size.
        rewrite length_app. simpl List.length. lia. }
    replace (Z.of_nat (List.length l) =? 0) with false
      by (symmetry; apply Z.eqb_neq; lia).
    replace (Z.of_nat (List.length l) =? Immutable.size (l ++ [node]) - 1)
      with true.
    2:{ symmetry. apply Z.eqb_eq. unfold Immutable.size.
        rewrite length_app. simpl List.length. lia. }
    cbv iota. exact Hmove.
  - simpl. rewrite app_nil_r in Hrep. rewrite <- app_assoc in Hrep.
    destruct (replaced_by_key _ _ _ _ _ Hrep gpp _ U Hgpp eq_refl)
      as [_ Hrep'].
    exact (replaced_new _ _ _ _ _ Hrep').
  - exact WF'.
  - simpl State.document. apply (replaced_text _ _ _ _ _ Hrep).
    rewrite app_nil_r, <- app_assoc.
    apply (text_with_children gc gk gty gv gd gl
             [Node.Branch pc pk pty pv pd (l ++ [node])]
             [Node.Branch pc pk pty pv pd l; node] gr).
    same_text.
  - reflexivity.
  - reflexivity.
Qed.

(** X12. Unwrapping an only child puts it where its parent stood among
    the children of the grandparent, and the parent is gone: its key can
    no longer be looked up.  The document stays well-formed and reads as
    before; the selection is as it was unless it has an endpoint on the
    parent.  A [move_node] and a [remove_node] are applied, in this
    order; with normalization on, the grandparent is normalized
    afterwards. *)
Theorem unwrapNodeByKey_only_child :
  forall normalizer transform grandparentPath gc gk gty gv gd gl gr
         pc pk pty pv pd node options,
    let document := State.document (Transforms.state transform) in
    Tree.wellFormed document ->
    Node.assertPath document grandparentPath
    = Some (Node.Branch gc gk gty gv gd
              (gl ++ Node.Branch pc pk pty pv pd [node] :: gr)) ->
    exists unwrapped path newPath parentPath,
      Node.assertPath (State.document (Transforms.state unwrapped))
        grandparentPath
      = Some (Node.Branch gc gk gty gv gd (gl ++ node :: gr))
      /\ Tree.wellFormed (State.document (Transforms.state unwrapped))
      /\ Node.text (State.document (Transforms.state unwrapped))
         = Node.text document
      /\ Node.getNode (State.document (Transforms.state unwrapped)) pk = None
      /\ (Selection.anchorKey (State.selection (Transforms.state transform))
          <> Some pk ->
          Selection.focusKey (State.selection (Transforms.state transform))
          <> Some pk ->
          State.selection (Transforms.state unwrapped)
          = State.selection (Transforms.state transform))
      /\ Transforms.trace unwrapped
         = Transforms.trace transform
           ++ [Transforms.Applied (Operation.move_node path newPath);
               Transforms.Applied (Operation.remove_node parentPath)]
      /\ Transforms.unwrapNodeByKey normalizer transform (Node.key node)
           options
         = if Transforms.normalize_of options
           then Transforms.normalizeNodeByKey normalizer unwrapped gk
           else Some unwrapped.
Proof.
  intros normalizer transform gpp gc gk gty gv gd gl gr pc pk pty pv pd
    node options document WF Hgpp. subst document.
  pose proof WF as (_ & U & _).
  destruct (getPath_unique _ _ _ U Hgpp) as (gpath & Hgpath & Hgp).
  pose proof (getPath_nonneg _ _ _ Hgpath) as Hnn.
  destruct (unwrap_lookups transform gpath gc gk gty gv gd gl gr
              pc pk pty pv pd [] node [] U Hgp Hnn)
    as (Hparent & Hchild & Hindex & Hpp & Hpindex & _).
  set (P1 := Node.Branch pc pk pty pv pd []).
  destruct (moveNodeByKey_up normalizer transform gpath gc gk gty gv gd gl gr
              pc pk pty pv pd [] node [] (Z.of_nat (List.length gl)) gl
              (P1 :: gr) (Transforms.options (Some false)) WF Hgp Hnn
              eq_refl (resolveIndex_length _ _))
    as (doc2 & Hrep & WF2 & Hmove).
  change (Transforms.normalize_of (Transforms.options (Some false)))
    with false in Hmove.
  cbv iota zeta in Hmove.
  pose proof WF2 as (_ & U2 & _).
  (* the emptied parent in the new document *)
  assert (Hgp2 : Node.assertPath doc2 gpath
                 = Some (Node.Branch gc gk gty gv gd
                           ((gl ++ [node]) ++ P1 :: gr))).
  { rewrite <- app_assoc. eapply replaced_new; eauto. }
  pose proof (assertPath_child _ _ _ _ _ _ _ _ _ _ _ Hgp2
                (pointsAt_length _ _)) as HP1.
  assert (Hpath2 : Node.getPath doc2 pk
                   = Some (gpath ++ [Z.of_nat (List.length (gl ++ [node]))])).
  { apply (getPath_canonical doc2 _ P1 U2 HP1). now apply nonneg_snoc. }
  destruct (remove_node_document
              (State.make doc2 (State.selection (Transforms.state transform)))
              gpath (Z.of_nat (List.length (gl ++ [node])))
              gc gk gty gv gd (gl ++ [node]) P1 gr U2 Hgp2
              (pointsAt_length _ _))
    as (doc3 & selection' & Hrep3 & Hremove & Hsel).
  destruct (remove_keeps_wellFormed _ _ _ _ _ _ _ _ _ _ _ WF2 Hrep3)
    as (WF3 & Hperm3).
  exists (Transforms.make (State.make doc3 selection')
            (Transforms.keys transform)
            ((Transforms.trace transform
              ++ [Transforms.Applied
                    (Operation.move_node
                       (gpath ++ [Z.of_nat (List.length gl);
                                  Z.of_nat (List.length (@nil Node.t))])
                       (gpath ++ [Z.of_nat (List.length gl)]))])
             ++ [Transforms.Applied
                   (Operation.remove_node
                      (gpath ++ [Z.of_nat (List.length (gl ++ [node]))]))])).
  do 3 eexists.
  split; [|split; [|split; [|split; [|split; [|split]]]]]; cycle 6.
  - unfold Transforms.unwrapNodeByKey.
    simpl app in Hparent, Hchild, Hindex, Hpp, Hpindex.
    rewrite Hparent, Hchild. simpl Node.nodes. cbv iota beta.
    rewrite Hindex. simpl Node.key. rewrite Hpp. simpl Node.nodes.
    cbv iota beta. rewrite Hpindex.
    simpl (Immutable.size [node] =? 1). cbv iota. simpl Node.key.
    rewrite Hmove.
    unfold Transforms.removeNodeByKey. simpl Transforms.state.
    simpl State.document. rewrite Hpath2.
    unfold Transforms.applyOperation. simpl Apply.applyOperation.
    simpl Transforms.state. rewrite Hremove.
    simpl Transforms.state. simpl State.document. cbv iota beta.
    assert (Hpar2 : Node.getParent doc2 pk
                    = Some (Node.Branch gc gk gty gv gd
                              ((gl ++ [node]) ++ P1 :: gr))).
    { rewrite <- Hgp2. exact (getParent_path _ _ _ _ U2 HP1). }
    rewrite Hpar2. reflexivity.
  - simpl. rewrite <- !app_assoc in Hrep3. simpl app in Hrep3.
    pose proof (replaced_trans _ _ _ _ _ _ _ Hrep Hrep3) as Hfinal.
    destruct (replaced_by_key _ _ _ _ _ Hfinal gpp _ U Hgpp eq_refl)
      as [_ Hfinal'].
    exact (replaced_new _ _ _ _ _ Hfinal').
  - exact WF3.
  - simpl State.document. rewrite <- !app_assoc in Hrep3. simpl app in Hrep3.
    pose proof (replaced_trans _ _ _ _ _ _ _ Hrep Hrep3) as Hfinal.
    apply (replaced_text _ _ _ _ _ Hfinal).
    apply (text_with_children gc gk gty gv gd gl
             [Node.Branch pc pk pty pv pd ([] ++ [node])] [node] gr).
    same_text.
  - simpl. apply getNode_none. intros Hin.
    unfold Tree.unique in U2. apply (Permutation_NoDup Hperm3) in U2.
    simpl in U2. now inversion U2.
  - simpl. intros Ha Hf. apply Hsel. intros _. simpl State.selection.
    unfold Selection.startKey, Selection.endKey.
    assert (Hno : forall k, k <> Some pk -> Node.hasNode P1 k = false).
    { intros [k|] Hk; [|reflexivity]. apply hasNode_none. simpl.
      intros [E|[]]. congruence. }
    destruct (Selection.backward
                (State.selection (Transforms.state transform))); auto.
  - simpl. now rewrite <- app_assoc.
Qed.

(** X13. Unwrapping a child that has siblings on both sides splits its
    parent around it: the grandparent then holds, where the parent
    stood, the parent with the children in front of the node, the node,
    and a copy of the parent under a new key with the children behind
    the node.  A [split_node] and a [move_node] are applied, in this
    order; the document stays well-formed, reads as before, and the
    selection is as it was.  With normalization on, the grandparent is
    normalized afterwards.  (The new key is not in use, and the
    selection has no endpoint on the parent.) *)
Theorem unwrapNodeByKey_middle_child :
  forall normalizer transform grandparentPath gc gk gty gv gd gl gr
         pc pk pty pv pd l node r options,
    let document := State.document (Transforms.state transform) in
    let selection := State.selection (Transforms.state transform) in
    let newKey := fst (generateKey (Transforms.keys transform)) in
    Tree.wellFormed document ->
    Node.assertPath document grandparentPath
    = Some (Node.Branch gc gk gty gv gd
              (gl ++ Node.Branch pc pk pty pv pd (l ++ node :: r) :: gr)) ->
    l <> [] -> r <> [] ->
    ~ In newKey (Node.getKeys document) ->
    Selection.anchorKey selection <> Some pk ->
    Selection.focusKey selection <> Some pk ->
    exists unwrapped parentPath path newPath,
      Node.assertPath (State.document (Transforms.state unwrapped))
        grandparentPath
      = Some (Node.Branch gc gk gty gv gd
                (gl ++ Node.Branch pc pk pty pv pd l
                    :: node
                    :: Node.Branch pc newKey pty pv pd r :: gr))
      /\ Tree.wellFormed (State.document (Transforms.state unwrapped))
      /\ Node.text (State.document (Transforms.state unwrapped))
         = Node.text document
      /\ State.selection (Transforms.state unwrapped) = selection
      /\ Transforms.keys unwrapped
         = snd (generateKey (Transforms.keys transform))
      /\ Transforms.trace unwrapped
         = Transforms.trace transform
           ++ [Transforms.Applied
                 (Operation.split_node parentPath
                    (Z.of_nat (List.length l)));
               Transforms.Applied (Operation.move_node path newPath)]
      /\ Transforms.unwrapNodeByKey normalizer transform (Node.key node)
           options
         = if Transforms.normalize_of options
           then Transforms.normalizeNodeByKey normalizer unwrapped gk
           else Some unwrapped.
Proof.
  intros normalizer transform gpp gc gk gty gv gd gl gr pc pk pty pv pd
    l node r options document selection newKey WF Hgpp Hl Hr Hfresh Ha Hf.
  subst document selection.
  pose proof WF as (_ & U & _).
  destruct (getPath_unique _ _ _ U Hgpp) as (gpath & Hgpath & Hgp).
  pose proof (getPath_nonneg _ _ _ Hgpath) as Hnn.
  destruct (unwrap_lookups transform gpath gc gk gty gv gd gl gr
              pc pk pty pv pd l node r U Hgp Hnn)
    as (Hparent & Hchild & Hindex & Hpp & Hpindex & _ & Hppath & _).
  set (P := Node.Branch pc pk pty pv pd (l ++ node :: r)) in *.
  set (one := Node.Branch pc pk pty pv pd l).
  set (two := Node.Branch pc newKey pty pv pd (node :: r)).
  set (two1 := Node.Branch pc newKey pty pv pd r).
  (* the split *)
  destruct (split_node_state (Transforms.keys transform)
              (Transforms.state transform) gpath
              (Z.of_nat (List.length gl)) (Z.of_nat (List.length l)) P
              gc gk gty gv gd gl gr WF Hgp (pointsAt_length _ _))
    as (doc1 & Hrep1 & Hsplit).
  { simpl Node.key. intros [E|E]; congruence. }
  fold newKey in Hrep1, Hsplit.
  assert (Hhalves : Node.halves P (Z.of_nat (List.length l)) newKey
                    = (one, two)).
  { unfold P, one, two. simpl. now rewrite take_app, skip_app. }
  rewrite Hhalves in Hrep1. simpl fst in Hrep1. simpl snd in Hrep1.
  assert (Hs : key_is (Selection.startKey
                         (State.selection (Transforms.state transform)))
                 (Node.key P) = false).
  { apply key_is_neq. unfold Selection.startKey.
    now destruct (Selection.backward _). }
  assert (He : key_is (Selection.endKey
                         (State.selection (Transforms.state transform)))
                 (Node.key P) = false).
  { apply key_is_neq. unfold Selection.endKey.
    now destruct (Selection.backward _). }
  cbv zeta in Hsplit. rewrite Hs, He in Hsplit. simpl andb in Hsplit.
  cbv iota in Hsplit.
  destruct (split_keeps_wellFormed _ gpath gc gk gty gv gd gl P gr
              (Z.of_nat (List.length l)) newKey doc1 WF)
    as (WF1 & _); [now rewrite Hhalves|exact Hfresh|].
  set (split :=
         Transforms.make
           (State.make doc1 (State.selection (Transforms.state transform)))
           (snd (generateKey (Transforms.keys transform)))
           (Transforms.trace transform
            ++ [Transforms.Applied
                  (Operation.split_node
                     (gpath ++ [Z.of_nat (List.length gl)])
                     (Z.of_nat (List.length l)))])).
  assert (Hsplit' :
    Transforms.splitNodeByKey normalizer transform pk
      (Z.of_nat (List.length l)) (Transforms.options (Some false))
    = Some split).
  { unfold Transforms.splitNodeByKey. rewrite Hppath.
    unfold Transforms.applyOperation. simpl Apply.applyOperation.
    rewrite Hsplit. reflexivity. }
  (* the move *)
  assert (Hgp1 : Node.assertPath
                   (State.document (Transforms.state split)) gpath
                 = Some (Node.Branch gc gk gty gv gd
                           ((gl ++ [one])
                            ++ Node.Branch pc newKey pty pv pd
                                 ([] ++ node :: r) :: gr))).
  { simpl. rewrite <- app_assoc. eapply replaced_new; eauto. }
  destruct (moveNodeByKey_up normalizer split gpath gc gk gty gv gd
              (gl ++ [one]) gr pc newKey pty pv pd [] node r
              (Z.of_nat (List.length gl) + 1) (gl ++ [one]) (two1 :: gr)
              (Transforms.options (Some false)) WF1 Hgp1 Hnn eq_refl)
    as (doc2 & Hrep2 & WF2 & Hmove).
  { replace (Z.of_nat (List.length gl) + 1)
      with (Z.of_nat (List.length (gl ++ [one])))
      by (rewrite length_app; simpl; lia).
    apply resolveIndex_length. }
  change (Transforms.normalize_of (Transforms.options (Some false)))
    with false in Hmove.
  cbv iota zeta in Hmove.
  eexists. do 3 eexists.
  split; [|split; [|split; [|split; [|split; [|split]]]]]; cycle 6.
  - unfold Transforms.unwrapNodeByKey.
    rewrite Hparent, Hchild. simpl Node.nodes. cbv iota beta.
    rewrite Hindex. simpl Node.key. rewrite Hpp. simpl Node.nodes.
    cbv iota beta. rewrite Hpindex. simpl Node.key.
    assert (Hlen : (0 < List.length l)%nat)
      by (destruct l; [congruence|simpl; lia]).
    assert (Hlen' : (0 < List.length r)%nat)
      by (destruct r; [congruence|simpl; lia]).
    replace (Immutable.size (l ++ node :: r) =? 1) with false.
    2:{ symmetry. apply Z.eqb_neq. unfold Immutable.size.
        rewrite length_app. simpl List.length. lia. }
    replace (Z.of_nat (List.length l) =? 0) with false
      by (symmetry; apply Z.eqb_neq; lia).
    replace (Z.of_nat (List.length l)
             =? Immutable.size (l ++ node :: r) - 1) with false.
    2:{ symmetry. apply Z.eqb_neq. unfold Immutable.size.
        rewrite length_app. simpl List.length. lia. }
    cbv iota. rewrite Hsplit', Hmove. reflexivity.
  - simpl. rewrite <- app_assoc in Hrep2. simpl app in Hrep2.
    rewrite <- app_assoc in Hrep2. simpl app in Hrep2.
    pose proof (replaced_trans _ _ _ _ _ _ _ Hrep1 Hrep2) as Hfinal.
    destruct (replaced_by_key _ _ _ _ _ Hfinal gpp _ U Hgpp eq_refl)
      as [_ Hfinal'].
    exact (replaced_new _ _ _ _ _ Hfinal').
  - exact WF2.
  - simpl State.document.
    rewrite <- app_assoc in Hrep2. simpl app in Hrep2.
    rewrite <- app_assoc in Hrep2. simpl app in Hrep2.
    pose proof (replaced_trans _ _ _ _ _ _ _ Hrep1 Hrep2) as Hfinal.
    apply (replaced_text _ _ _ _ _ Hfinal).
    apply (text_with_children gc gk gty gv gd gl [P] [one; node; two1] gr).
    unfold P, one, two1. same_text.
  - reflexivity.
  - reflexivity.
  - simpl. rewrite <- app_assoc. reflexivity.
Qed.

(** X14. A key that is not in the document is an error for every
    transform by key: nothing is applied and nothing is returned. *)
Theorem by_key_transforms_fail_on_missing_key :
  forall normalizer transform key other offset length position index text
         marks properties options,
    ~ In key (Node.getKeys (State.document (Transforms.state transform))) ->
    Transforms.insertTextByKey normalizer transform key offset text marks
      options = None
    /\ Transforms.joinNodeByKey normalizer transform key options = None
    /\ Transforms.moveNodeByKey normalizer transform key other index options
       = None
    /\ Transforms.moveNodeByKey normalizer transform other key index options
       = None
    /\ Transforms.removeNodeByKey normalizer transform key options = None
    /\ Transforms.removeTextByKey normalizer transform key offset length
         options = None
    /\ Transforms.setNodeByKey normalizer transform key properties options
       = None
    /\ Transforms.splitNodeByKey normalizer transform key position options
       = None
    /\ Transforms.splitDescendantsByKey normalizer transform other key offset
         options = None
    /\ Transforms.unwrapNodeByKey normalizer transform key options = None.
Proof.
  intros normalizer transform key other offset length position index text
    marks properties options Hmissing.
  pose proof (getPath_none _ _ Hmissing) as Hpath.
  pose proof (getNode_none _ _ Hmissing) as Hnode.
  pose proof (getParent_none _ _ Hmissing) as Hparent.
  assert (Hsplit : forall at_ opts,
            Transforms.splitNodeByKey normalizer transform key at_ opts
            = None)
    by (intros; unfold Transforms.splitNodeByKey; now rewrite Hpath).
  unfold Transforms.insertTextByKey, Transforms.joinNodeByKey,
    Transforms.moveNodeByKey, Transforms.removeNodeByKey,
    Transforms.removeTextByKey, Transforms.setNodeByKey,
    Transforms.splitDescendantsByKey, Transforms.unwrapNodeByKey,
    Transforms.splitNodes.
  rewrite Hpath, Hnode, Hparent, !Hsplit.
  repeat split; try reflexivity.
  - now destruct (Node.getPath _ other).
  - destruct (String.eqb other key); reflexivity.
Qed.

(** X15. [removeNodeByKey] on the key of a node below the root of a
    well-formed document applies one [remove_node], at the path of the
    key.  Afterwards no key of the removed node can be looked up, the
    parent holds the other children in their order, and the document is
    well-formed.  With normalization on, the parent that the node had
    is normalized. *)
Theorem removeNodeByKey_removes_node :
  forall normalizer transform parentPath c kp ty v d l node r options,
    let document := State.document (Transforms.state transform) in
    Tree.wellFormed document ->
    Node.assertPath document parentPath
    = Some (Node.Branch c kp ty v d (l ++ node :: r)) ->
    exists removed path,
      Node.getPath document (Node.key node) = Some path
      /\ Transforms.trace removed
         = Transforms.trace transform
           ++ [Transforms.Applied (Operation.remove_node path)]
      /\ Node.assertPath (State.document (Transforms.state removed))
           parentPath
         = Some (Node.Branch c kp ty v d (l ++ r))
      /\ (forall key, In key (Node.getKeys node) ->
            Node.getNode (State.document (Transforms.state removed)) key
            = None)
      /\ Tree.wellFormed (State.document (Transforms.state removed))
      /\ Transforms.removeNodeByKey normalizer transform (Node.key node)
           options
         = if Transforms.normalize_of options
           then Transforms.normalizeNodeByKey normalizer removed kp
           else Some removed.
Proof.
  intros normalizer transform parentPath c kp ty v d l node r options
    document WF Hparent. subst document.
  pose proof WF as (_ & U & _).
  destruct (locate _ _ _ _ _ _ _ _ _ _ U Hparent)
    as (pp & Hpath & Hpp & _ & Hgetparent & Hback).
  destruct (remove_node_document (Transforms.state transform) pp
              (Z.of_nat (List.length l)) c kp ty v d l node r U Hpp
              (pointsAt_length _ _))
    as (doc' & selection' & Hrep & Hremove & _).
  destruct (remove_keeps_wellFormed _ _ _ _ _ _ _ _ _ _ _ WF Hrep)
    as (WF' & Hperm).
  exists (Transforms.make (State.make doc' selection')
            (Transforms.keys transform)
            (Transforms.trace transform
             ++ [Transforms.Applied
                   (Operation.remove_node
                      (pp ++ [Z.of_nat (List.length l)]))])).
  eexists.
  split; [exact Hpath|]. split; [reflexivity|]. simpl.
  split; [exact (replaced_new _ _ _ _ _ (Hback _ _ Hrep))|].
  split; [|split; [exact WF'|]].
  - intros key Hin. apply getNode_none. intros Hin'.
    unfold Tree.unique in U. apply (Permutation_NoDup Hperm) in U.
    rewrite (NoDup_count_occ string_dec) in U. specialize (U key).
    rewrite count_occ_app in U.
    apply (count_occ_In string_dec) in Hin, Hin'. unfold Key in *. lia.
  - unfold Transforms.removeNodeByKey. rewrite Hpath.
    unfold Transforms.applyOperation. simpl Apply.applyOperation.
    rewrite Hremove, Hgetparent. reflexivity.
Qed.

(** X16. [joinNodeByKey] on the key of a first child is an error: there
    is no previous sibling to join with, and no operation is applied. *)
Theorem joinNodeByKey_fails_on_first_child :
  forall normalizer transform parentPath c kp ty v d node r options,
    let document := State.document (Transforms.state transform) in
    Tree.unique document ->
    Node.assertPath document parentPath
    = Some (Node.Branch c kp ty v d (node :: r)) ->
    Transforms.joinNodeByKey normalizer transform (Node.key node) options
    = None.
Proof.
  intros normalizer transform parentPath c kp ty v d node r options
    document U Hparent. subst document.
  destruct (locate _ _ _ _ _ _ _ [] node r U Hparent)
    as (pp & Hpath & _ & _ & Hgetparent & _).
  unfold Transforms.joinNodeByKey, Node.getPreviousSibling.
  rewrite Hpath, Hgetparent. simpl. now rewrite String.eqb_refl.
Qed.

(** X17. [joinNodeByKey] on the key of a node with a sibling in front of
    it applies one [join_node], at the path of the key: the parent then
    holds the merged node where the two stood.  With normalization on,
    the parent is normalized. *)
Theorem joinNodeByKey_merges_with_previous :
  forall normalizer transform parentPath c kp ty v d l one two r merged
         options,
    let document := State.document (Transforms.state transform) in
    Tree.unique document ->
    Node.assertPath document parentPath
    = Some (Node.Branch c kp ty v d (l ++ one :: two :: r)) ->
    (exists k cs k' cs',
       one = Node.Text k cs /\ two = Node.Text k' cs'
       /\ merged = Node.Text k (cs ++ cs'))
    \/ (exists c1 k1 ty1 v1 d1 ns1 k2 ty2 v2 d2 ns2,
          one = Node.Branch c1 k1 ty1 v1 d1 ns1
          /\ two = Node.Branch c1 k2 ty2 v2 d2 ns2
          /\ merged = Node.Branch c1 k1 ty1 v1 d1 (ns1 ++ ns2)) ->
    exists joined path,
      Node.getPath document (Node.key two) = Some path
      /\ Transforms.trace joined
         = Transforms.trace transform
           ++ [Transforms.Applied (Operation.join_node path)]
      /\ Node.assertPath (State.document (Transforms.state joined))
           parentPath
         = Some (Node.Branch c kp ty v d (l ++ merged :: r))
      /\ Transforms.joinNodeByKey normalizer transform (Node.key two) options
         = if Transforms.normalize_of options
           then Transforms.normalizeNodeByKey normalizer joined kp
           else Some joined.
Proof.
  intros normalizer transform parentPath c kp ty v d l one two r merged
    options document U Hparent Hcase. subst document.
  assert (Hparent' : Node.assertPath
                       (State.document (Transforms.state transform))
                       parentPath
                     = Some (Node.Branch c kp ty v d
                               ((l ++ [one]) ++ two :: r)))
    by now rewrite <- app_assoc.
  destruct (locate _ _ _ _ _ _ _ _ _ _ U Hparent')
    as (pp & Hpath & Hpp & _ & Hgetparent & Hback).
  assert (Hlen : Z.of_nat (List.length (l ++ [one]))
                 = Z.of_nat (List.length l) + 1)
    by (rewrite length_app; simpl; lia).
  rewrite <- app_assoc in Hpp. simpl app in Hpp.
  destruct (join_node_document (Transforms.state transform) pp c kp ty v d
              l one two r merged U Hpp) as (doc' & Hrep & Hjoin).
  { destruct Hcase as [(k & cs & k' & cs' & -> & -> & ->)
                      |(c1 & k1 & ty1 & v1 & d1 & ns1 & k2 & ty2 & v2 & d2
                        & ns2 & -> & -> & ->)]; [reflexivity|].
    now destruct c1. }
  rewrite <- Hlen in Hjoin.
  eexists. exists (pp ++ [Z.of_nat (List.length (l ++ [one]))]).
  split; [exact Hpath|].
  split; [|split]; cycle 2.
  - unfold Transforms.joinNodeByKey, Node.getPreviousSibling.
    rewrite Hpath, Hgetparent. simpl Node.nodes. cbv iota beta.
    rewrite takeUntil_stop, last_snoc.
    + cbv iota beta.
      replace (if Kind.eqb (Node.kind one) Kind.text
               then Some (Node.length one)
               else let? ns := Node.nodes one in Some (Immutable.size ns))
        with (Some (if Kind.eqb (Node.kind one) Kind.text
                    then Node.length one
                    else match Node.nodes one with
                         | Some ns => Immutable.size ns
                         | None => 0
                         end)).
      2:{ destruct Hcase as [(k & cs & k' & cs' & -> & -> & ->)
                            |(c1 & k1 & ty1 & v1 & d1 & ns1 & k2 & ty2 & v2
                              & d2 & ns2 & -> & -> & ->)];
            [reflexivity|now destruct c1]. }
      cbv iota beta.
      unfold Transforms.applyOperation. simpl Apply.applyOperation.
      rewrite Hjoin. reflexivity.
    + intros y Hy. apply String.eqb_neq.
      apply (siblings_keys_differ c kp ty v d (l ++ [one]) two r); [|exact Hy].
      exact (unique_descendant _ _ _ U Hparent').
    + apply String.eqb_refl.
  - reflexivity.
  - simpl.
    assert (Hrep' : Tree.replaced
                      (Node.Branch c kp ty v d ((l ++ [one]) ++ two :: r))
                      (Node.Branch c kp ty v d (l ++ merged :: r))
                      (State.document (Transforms.state transform)) pp doc')
      by now rewrite <- app_assoc.
    exact (replaced_new _ _ _ _ _ (Hback _ _ Hrep')).
Qed.

(** * What the text appliers do to the document *)

(** What [insert_text] does to the text node and to the document. *)
Lemma insert_text_effect :
  forall state path offset text marks k cs,
    Tree.wellFormed (State.document state) ->
    Node.assertPath (State.document state) path = Some (Node.Text k cs) ->
    0 <= offset <= Z.of_nat (List.length cs) ->
    let inherited :=
      match marks with
      | Some m => m
      | None =>
          if offset =? 0 then []
          else match nth_error cs (Z.to_nat (offset - 1)) with
               | Some c => Character.marks c
               | None => []
               end
      end in
    let inserted :=
      map (fun a => Character.make a inherited) (list_ascii_of_string text) in
    let node' :=
      Node.Text k
        (Immutable.take offset cs ++ inserted ++ Immutable.skip offset cs) in
    exists state',
      APPLIERS.insert_text state path offset text marks = Some state'
      /\ Node.assertPath (State.document state') path = Some node'
      /\ Node.length node' = Node.length (Node.Text k cs)
                             + JSString.length text
      /\ Node.getKeys (State.document state')
         = Node.getKeys (State.document state)
      /\ Tree.wellFormed (State.document state').
Proof.
  intros state path offset text marks k cs WF Hpath Hoffset inherited
    inserted node'.
  pose proof WF as (Hk & U & Hb).
  destruct (text_below_document _ _ _ Hk Hpath eq_refl) as (i & rest & ->).
  destruct (assertPath_replaced (Node.Text k cs) node' _ _ Hpath)
    as (doc' & Hr).
  assert (Hinserted : Node.insertText (Node.Text k cs) offset text marks
                      = Some node').
  { unfold node', inserted, inherited. simpl. do 2 f_equal.
    unfold Immutable.splice, Immutable.resolveBegin, Immutable.resolveIndex,
      Immutable.size, Immutable.take, Immutable.skip.
    destruct (offset <? 0) eqn:E; [apply Z.ltb_lt in E; lia|].
    replace (Z.to_nat (Z.min (Z.of_nat (List.length cs)) offset))
      with (Z.to_nat offset) by lia.
    rewrite Nat.add_0_r. do 2 f_equal.
    destruct marks as [m|]; [reflexivity|].
    unfold Node.getMarksAtIndex. destruct (offset =? 0) eqn:E0; [reflexivity|].
    apply Z.eqb_neq in E0.
    unfold Immutable.get, Immutable.wrapIndex, Immutable.size.
    destruct (offset - 1 <? 0) eqn:E1; [apply Z.ltb_lt in E1; lia|].
    destruct ((0 <=? offset - 1)
              && (offset - 1 <? Z.of_nat (List.length cs))) eqn:E2;
      [reflexivity|].
    apply andb_false_iff in E2 as [E2|E2];
      [apply Z.leb_gt in E2|apply Z.ltb_ge in E2]; lia. }
  exists (State.make doc'
            (let selection := State.selection state in
             let selection :=
               if key_is (Selection.anchorKey selection) k
                  && (Selection.anchorOffset selection >=? offset)
               then Selection.moveAnchor selection (JSString.length text)
               else selection in
             if key_is (Selection.focusKey (State.selection state)) k
                && (Selection.focusOffset (State.selection state) >=? offset)
             then Selection.moveFocus selection (JSString.length text)
             else selection)).
  split; [|split; [|split; [|split]]].
  - unfold APPLIERS.insert_text. rewrite Hpath, Hinserted.
    rewrite (replaced_updateDescendant _ _ _ _ _ Hr U eq_refl)
      by discriminate.
    reflexivity.
  - simpl State.document. eapply replaced_new; eauto.
  - unfold node'. rewrite !text_length, !length_app.
    unfold inserted, Immutable.take, Immutable.skip, JSString.length.
    rewrite length_map, list_ascii_length.
    rewrite firstn_length_le, length_skipn by lia. lia.
  - simpl.
    destruct (replaced_getKeys _ _ _ _ _ Hr) as (pre & post & -> & ->).
    reflexivity.
  - simpl. eapply wellFormed_replaced; eauto.
Qed.

(** X18. [insert_text] at an offset inside a text node puts the
    characters of the text between the characters in front of the offset
    and those behind it, each with the marks given, or else with the
    marks of the character in front of the offset.  The node keeps its
    key, grows by the length of the text, and the keys of the document
    are as they were. *)
Theorem insert_text_inserts_characters :
  forall state path offset text marks k cs,
    Tree.wellFormed (State.document state) ->
    Node.assertPath (State.document state) path = Some (Node.Text k cs) ->
    0 <= offset <= Z.of_nat (List.length cs) ->
    let inherited :=
      match marks with
      | Some m => m
      | None =>
          if offset =? 0 then []
          else match nth_error cs (Z.to_nat (offset - 1)) with
               | Some c => Character.marks c
               | None => []
               end
      end in
    let inserted :=
      map (fun a => Character.make a inherited) (list_ascii_of_string text) in
    let node' :=
      Node.Text k
        (Immutable.take offset cs ++ inserted ++ Immutable.skip offset cs) in
    exists state',
      APPLIERS.insert_text state path offset text marks = Some state'
      /\ Node.assertPath (State.document state') path = Some node'
      /\ Node.length node' = Node.length (Node.Text k cs)
                             + JSString.length text
      /\ Node.getKeys (State.document state')
         = Node.getKeys (State.document state)
      /\ Tree.wellFormed (State.document state').
Proof. exact insert_text_effect. Qed.

(** X19. [remove_text] takes out as many characters as its text is
    long, from the offset on, and does not compare them with its text:
    the node is left with the characters in front of the offset and
    those behind the removed span.  The node keeps its key and the keys
    of the document are as they were. *)
Theorem remove_text_removes_characters :
  forall state path offset text k cs,
    Tree.wellFormed (State.document state) ->
    Node.assertPath (State.document state) path = Some (Node.Text k cs) ->
    0 <= offset ->
    let node' :=
      Node.Text k
        (Immutable.take offset cs
         ++ Immutable.skip (offset + JSString.length text) cs) in
    exists state',
      APPLIERS.remove_text state path offset text = Some state'
      /\ Node.assertPath (State.document state') path = Some node'
      /\ Node.length node'
         = Node.length (Node.Text k cs)
           - Z.min (JSString.length text)
               (Z.max 0 (Z.of_nat (List.length cs) - offset))
      /\ Node.getKeys (State.document state')
         = Node.getKeys (State.document state)
      /\ Tree.wellFormed (State.document state').
Proof.
  intros state path offset text k cs WF Hpath Hoffset node'.
  pose proof WF as (Hk & U & Hb).
  destruct (text_below_document _ _ _ Hk Hpath eq_refl) as (i & rest & ->).
  destruct (assertPath_replaced (Node.Text k cs) node' _ _ Hpath)
    as (doc' & Hr).
  assert (Hlen : 0 <= JSString.length text)
    by (unfold JSString.length; lia).
  assert (Hremoved : Node.removeText (Node.Text k cs) offset
                       (JSString.length text) = Some node').
  { unfold node'. simpl. do 4 f_equal. lia. }
  eexists. split; [|split; [|split; [|split]]].
  - unfold APPLIERS.remove_text. rewrite Hpath, Hremoved.
    rewrite (replaced_updateDescendant _ _ _ _ _ Hr U eq_refl)
      by discriminate.
    reflexivity.
  - simpl State.document. eapply replaced_new; eauto.
  - unfold node'. rewrite !text_length, !length_app.
    unfold Immutable.take, Immutable.skip.
    rewrite length_firstn, length_skipn. lia.
  - simpl.
    destruct (replaced_getKeys _ _ _ _ _ Hr) as (pre & post & -> & ->).
    reflexivity.
  - simpl. eapply wellFormed_replaced; eauto.
Qed.

(** * Setting properties, once and twice *)

Section SetNode.
Import Node.

Lemma merge_kept node p node' :
  Properties.key p = None -> Properties.nodes p = None ->
  merge node p = Some node' ->
  key node' = key node
  /\ kind node' = kind node
  /\ nodes node' = nodes node
  /\ getKeys node' = getKeys node.
Proof.
  destruct p as [pk pn pt pv pd]. simpl. intros -> ->.
  destruct node as [k cs|[] k ty v d ns], pt, pv, pd;
    unfold merge, nodes_of; simpl;
    intros H; inversion H; subst; auto.
Qed.

Lemma merge_twice node p node' :
  Properties.key p = None -> Properties.nodes p = None ->
  merge node p = Some node' -> merge node' p = Some node'.
Proof.
  destruct p as [pk pn pt pv pd]. simpl. intros -> ->.
  destruct node as [k cs|[] k ty v d ns], pt, pv, pd;
    unfold merge, nodes_of; simpl;
    intros H; inversion H; subst; reflexivity.
Qed.

(** What is left of the properties behind the two guards merges as
    their type, void flag and data do. *)
Lemma merge_guarded node p pk' pn' :
  (forall k, pk' = Some k -> k = key node) ->
  pn' = None \/ pn' = Some Properties.own /\ nodes node <> None ->
  merge node
    (Properties.make pk' pn' (Properties.type p) (Properties.isVoid p)
       (Properties.data p))
  = merge node
      (Properties.make None None (Properties.type p)
       (Properties.isVoid p) (Properties.data p)).
Proof.
  intros Hpk Hpn.
  assert (Ek : or_else pk' (key node) = key node).
  { destruct pk' as [k|]; simpl; [now rewrite (Hpk _ eq_refl)|reflexivity]. }
  destruct node as [k cs|c k ty v d ns]; simpl in *.
  - destruct Hpn as [->|[_ H]]; [|now elim H]. simpl. now rewrite Ek.
  - unfold nodes_of. simpl. rewrite Ek.
    destruct Hpn as [->|[-> _]]; reflexivity.
Qed.

(** What [set_node] does: it is an error when the node has no field
    for the type, the void flag or the data that are given; else the
    node gives way to the node with these set, in a document that is
    well-formed again, and the selection is not touched. *)
Lemma set_node_document state path properties node :
  Tree.wellFormed (State.document state) ->
  assertPath (State.document state) path = Some node ->
  Properties.key properties <> Some EmptyString ->
  match merge node
          (Properties.make None None (Properties.type properties)
       (Properties.isVoid properties) (Properties.data properties)) with
  | Some merged =>
      exists document' warnings,
        Tree.replaced node merged (State.document state) path document'
        /\ Tree.wellFormed document'
        /\ APPLIERS.set_node state path properties
           = Some (State.make document' (State.selection state), warnings)
  | None => APPLIERS.set_node state path properties = None
  end.
Proof.
  intros WF Hpath Hkey. pose proof WF as (Hkind & Huniq & Hbelow).
  unfold APPLIERS.set_node. rewrite Hpath.
  destruct (guardNodes_spec node properties) as (pn' & w1 & -> & Hpn' & Hw1).
  destruct (guardKey_spec node
              (Properties.make (Properties.key properties) pn'
                 (Properties.type properties)
                 (Properties.isVoid properties)
                 (Properties.data properties)) Hkey)
    as (pk' & w2 & -> & Hpk' & Hw2).
  simpl in Hpk' |- *.
  rewrite (merge_guarded node properties pk' pn' Hpk' Hpn').
  destruct (merge node _) as [merged|] eqn:Hmerge; [|reflexivity].
  destruct (merge_kept node
              (Properties.make None None (Properties.type properties)
                 (Properties.isVoid properties) (Properties.data properties))
              merged eq_refl eq_refl Hmerge)
    as (Hk & Hki & Hn & Hkeys).
  destruct (assertPath_replaced node merged _ _ Hpath) as (doc' & Hr).
  assert (WF' : Tree.wellFormed doc').
  { eapply wellFormed_replaced; eauto.
    - intros k0. now rewrite Hkeys.
    - clear - Hmerge Hn. destruct node as [|c k ty v d ns], merged; simpl in *;
        try discriminate; auto. inversion Hn; subst. auto. }
  rewrite (write_back _ _ _ _ _ WF Hr Hk Hki).
  exists doc', (w1 ++ w2). auto.
Qed.
End SetNode.

(** X20. Applying a [set_node] a second time changes nothing: the state
    after the second application is the state after the first.  (The
    properties do not carry the empty string as a key.) *)
Theorem set_node_twice :
  forall state path properties node state' warnings,
    Tree.wellFormed (State.document state) ->
    Node.assertPath (State.document state) path = Some node ->
    Node.Properties.key properties <> Some EmptyString ->
    APPLIERS.set_node state path properties = Some (state', warnings) ->
    exists warnings',
      APPLIERS.set_node state' path properties = Some (state', warnings').
Proof.
  intros state path properties node state' warnings WF Hpath Hkey Hset.
  pose proof (set_node_document state path properties node WF Hpath Hkey)
    as H1.
  destruct (Node.merge node _) as [merged|] eqn:Hmerge; [|congruence].
  destruct H1 as (doc1 & w1 & Hr1 & WF1 & Hset1).
  rewrite Hset1 in Hset. inversion Hset; subst state' warnings; clear Hset.
  pose proof (set_node_document
                (State.make doc1 (State.selection state)) path properties _
                WF1 (replaced_new _ _ _ _ _ Hr1) Hkey) as H2.
  rewrite (merge_twice node
             (Node.Properties.make None None
                (Node.Properties.type properties)
                (Node.Properties.isVoid properties)
                (Node.Properties.data properties))
             merged eq_refl eq_refl Hmerge) in H2.
  destruct H2 as (doc2 & w2 & Hr2 & _ & Hset2).
  apply replaced_same in Hr2. subst doc2.
  exists w2. exact Hset2.
Qed.

(** X21. [setNodeByKey] on the key of a Block or of an Inline applies
    one [set_node], at the path of the key.  The node then found under
    the key has the type, the void flag and the data of the properties
    where they are given, and its key and children from before; the
    selection is as it was.  With normalization on, it is the node
    itself that is normalized.  (The properties do not carry the empty
    string as a key.) *)
Theorem setNodeByKey_sets_properties :
  forall normalizer transform key properties options c ty v d ns,
    let document := State.document (Transforms.state transform) in
    let node := Node.Branch c key ty v d ns in
    Tree.wellFormed document ->
    Node.getNode document key = Some node ->
    c <> Node.Document ->
    Node.Properties.key properties <> Some EmptyString ->
    exists set path,
      Node.getPath document key = Some path
      /\ Transforms.trace set
         = Transforms.trace transform
           ++ [Transforms.Applied (Operation.set_node path properties)]
      /\ Node.getNode (State.document (Transforms.state set)) key
         = Some (Node.Branch c key
                   (Node.or_else (Node.Properties.type properties) ty)
                   (Node.or_else (Node.Properties.isVoid properties) v)
                   (Node.or_else (Node.Properties.data properties) d)
                   ns)
      /\ State.selection (Transforms.state set)
         = State.selection (Transforms.state transform)
      /\ Transforms.setNodeByKey normalizer transform key properties options
         = if Transforms.normalize_of options
           then Transforms.normalizeNodeByKey normalizer set key
           else Some set.
Proof.
  intros normalizer transform key properties options c ty v d ns document
    node WF Hnode Hc Hkey. subst document.
  destruct (getNode_getPath _ _ _ Hnode) as (path & Hgp & Hpath).
  pose proof (set_node_document (Transforms.state transform) path properties
                node WF Hpath Hkey) as Hset.
  assert (Hmerge :
    Node.merge node
      (Node.Properties.make None None (Node.Properties.type properties)
         (Node.Properties.isVoid properties)
         (Node.Properties.data properties))
    = Some (Node.Branch c key
              (Node.or_else (Node.Properties.type properties) ty)
              (Node.or_else (Node.Properties.isVoid properties) v)
              (Node.or_else (Node.Properties.data properties) d)
              ns)).
  { unfold node. destruct c; [now elim Hc|reflexivity|reflexivity]. }
  rewrite Hmerge in Hset. destruct Hset as (doc' & w & Hr & WF' & Hset).
  eexists. exists path. split; [exact Hgp|].
  split; [|split; [|split]]; cycle 3.
  - unfold Transforms.setNodeByKey. rewrite Hgp, Hnode.
    unfold Transforms.applyOperation. simpl Apply.applyOperation.
    rewrite Hset. simpl fst. cbv iota beta. reflexivity.
  - reflexivity.
  - simpl State.document. destruct WF' as (_ & U' & _).
    exact (getNode_unique _ _ _ U' (replaced_new _ _ _ _ _ Hr)).
  - reflexivity.
Qed.

(** X26. A Text has no type, no void flag and no data: [setNodeByKey]
    on the key of a Text with properties that give one of these is an
    error, and so is the [set_node] it would apply. *)
Theorem setNodeByKey_fails_on_text :
  forall normalizer transform key properties options cs,
    let document := State.document (Transforms.state transform) in
    Tree.wellFormed document ->
    Node.getNode document key = Some (Node.Text key cs) ->
    Node.Properties.key properties <> Some EmptyString ->
    Node.Properties.type properties <> None
    \/ Node.Properties.isVoid properties <> None
    \/ Node.Properties.data properties <> None ->
    (forall path,
       Node.getPath document key = Some path ->
       APPLIERS.set_node (Transforms.state transform) path properties = None)
    /\ Transforms.setNodeByKey normalizer transform key properties options
       = None.
Proof.
  intros normalizer transform key properties options cs document WF Hnode
    Hkey Hgiven. subst document.
  destruct (getNode_getPath _ _ _ Hnode) as (path & Hgp & Hpath).
  pose proof (set_node_document (Transforms.state transform) path properties
                _ WF Hpath Hkey) as Hset.
  assert (Hmerge :
    Node.merge (Node.Text key cs)
      (Node.Properties.make None None (Node.Properties.type properties)
         (Node.Properties.isVoid properties)
         (Node.Properties.data properties)) = None).
  { simpl.
    destruct (Node.Properties.type properties),
      (Node.Properties.isVoid properties),
      (Node.Properties.data properties); try reflexivity.
    destruct Hgiven as [H|[H|H]]; now elim H. }
  rewrite Hmerge in Hset. split.
  - intros path' Hgp'. rewrite Hgp in Hgp'. now inversion Hgp'; subst.
  - unfold Transforms.setNodeByKey. rewrite Hgp.
    unfold Transforms.applyOperation. simpl Apply.applyOperation.
    now rewrite Hset.
Qed.

(** X22. [insertTextByKey] applies one [insert_text], at the path of the
    key: the text node then found under the key holds the inserted
    characters between those in front of the offset and those behind
    it.  With normalization on, the parent of the text node is
    normalized. *)
Theorem insertTextByKey_inserts_characters :
  forall normalizer transform key offset text marks options cs,
    let document := State.document (Transforms.state transform) in
    Tree.wellFormed document ->
    Node.getNode document key = Some (Node.Text key cs) ->
    0 <= offset <= Z.of_nat (List.length cs) ->
    let inherited :=
      match marks with
      | Some m => m
      | None =>
          if offset =? 0 then []
          else match nth_error cs (Z.to_nat (offset - 1)) with
               | Some c => Character.marks c
               | None => []
               end
      end in
    let inserted :=
      map (fun a => Character.make a inherited) (list_ascii_of_string text) in
    exists changed path parent,
      Node.getPath document key = Some path
      /\ Node.getParent document key = Some parent
      /\ Transforms.trace changed
         = Transforms.trace transform
           ++ [Transforms.Applied
                 (Operation.insert_text path offset text marks)]
      /\ Node.getNode (State.document (Transforms.state changed)) key
         = Some (Node.Text key
                   (Immutable.take offset cs ++ inserted
                    ++ Immutable.skip offset cs))
      /\ Transforms.insertTextByKey normalizer transform key offset text marks
           options
         = if Transforms.normalize_of options
           then Transforms.normalizeNodeByKey normalizer changed
                  (Node.key parent)
           else Some changed.
Proof.
  intros normalizer transform key offset text marks options cs document WF
    Hnode Hoffset inherited inserted. subst document.
  destruct (getNode_getPath _ _ _ Hnode) as (path & Hgp & Hpath).
  destruct (insert_text_effect (Transforms.state transform) path offset text
              marks key cs WF Hpath Hoffset)
    as (state' & Hins & Hnew & _ & _ & WF').
  fold inherited inserted in Hnew.
  pose proof WF as (Hkind & U & _).
  destruct (text_below_document _ _ _ Hkind Hpath eq_refl) as (i & rest & E).
  assert (Hne : path <> []) by (rewrite E; discriminate).
  destruct (assertPath_parent _ _ _ Hpath Hne)
    as (pp & j & c & kp & ty & v & d & l & r & -> & Hparent & Hj).
  pose proof (getParent_path _ _ _ _ U Hpath) as Hgetparent.
  simpl Node.key in Hgetparent. rewrite Hparent in Hgetparent.
  eexists. exists (pp ++ [j]). eexists.
  split; [exact Hgp|]. split; [exact Hgetparent|].
  split; [|split]; cycle 2.
  - unfold Transforms.insertTextByKey. rewrite Hgp.
    unfold Transforms.applyOperation. simpl Apply.applyOperation.
    rewrite Hins, Hgetparent. reflexivity.
  - reflexivity.
  - simpl State.document. destruct WF' as (_ & U' & _).
    exact (getNode_unique _ _ _ U' Hnew).
Qed.

(** X23. On a well-formed document, for a selection that is not
    backward, has both points on text nodes and its focus not on the
    text in front of the anchor's text, [remove_node] below the root
    goes through and deals with the anchor and the focus one by one.  A
    point outside the removed node stays.  A point inside it goes to the
    end of the text in front of the point's own text, else to the start
    of the text behind it, whether or not that text is itself inside the
    removed node; if the point's text is the only text of the document,
    the selection is cleared. *)
Theorem remove_node_relocates_endpoints :
  forall state path node,
    Tree.wellFormed (State.document state) ->
    path <> [] ->
    Node.assertPath (State.document state) path = Some node ->
    Selection.isSet (State.selection state) = true ->
    (forall k,
       Selection.anchorKey (State.selection state) = Some k
       \/ Selection.focusKey (State.selection state) = Some k ->
       In k (map Node.key (Node.getTexts (State.document state)))) ->
    Selection.backward (State.selection state) = false ->
    0 <= Selection.focusOffset (State.selection state) ->
    (forall k prev,
       Selection.anchorKey (State.selection state) = Some k ->
       Node.getPreviousText (State.document state) k = Some prev ->
       Selection.focusKey (State.selection state) <> Some (Node.key prev)) ->
    exists state',
      APPLIERS.remove_node state path = Some state'
      /\ forall endpoint,
           endpoint = Selection.anchor \/ endpoint = Selection.focus ->
           exists k,
             fst (endpoint (State.selection state)) = Some k
             /\ if Node.hasNode node (Some k)
                then match relocation (State.document state) k with
                     | Some point => endpoint (State.selection state') = point
                     | None =>
                         State.selection state'
                         = Selection.deselect (State.selection state)
                     end
                else endpoint (State.selection state')
                     = endpoint (State.selection state).
Proof.
  intros state path node WF Hne Hpath Hset Htexts Hfw Hfo Hprev.
  destruct (assertPath_parent _ _ _ Hpath Hne)
    as (pp & i & c & k & ty & v & d & l & r & -> & Hparent & Hi).
  destruct WF as (_ & U & _).
  destruct (remove_node_document state pp i c k ty v d l node r U Hparent Hi)
    as (doc' & selection' & _ & Hremove & _).
  eexists. split; [exact Hremove|].
  exact (remove_node_relocates _ _ _ _ U Hremove Hpath Hset Htexts Hfw Hfo
           Hprev).
Qed.

(** * Moving is removing and inserting *)

Section MoveComposes.
Import Node.

Lemma get_nonneg {A : Type} (l : list A) j :
  0 <= j -> Immutable.get l j = nth_error l (Z.to_nat j).
Proof.
  intros Hj. unfold Immutable.get, Immutable.wrapIndex, Immutable.size.
  destruct (j <? 0) eqn:E; [apply Z.ltb_lt in E; lia|].
  destruct ((0 <=? j) && (j <? Z.of_nat (List.length l))) eqn:E';
    [reflexivity|].
  symmetry. apply nth_error_None.
  apply andb_false_iff in E' as [E'|E'];
    [apply Z.leb_gt in E'|apply Z.ltb_ge in E']; lia.
Qed.

(** The children on either side of a child that is taken out or
    replaced are found as before; those behind one that is taken out,
    one index lower. *)
Lemma get_before {A : Type} (l r : list A) x j :
  0 <= j < Z.of_nat (List.length l) ->
  Immutable.get (l ++ r) j = Immutable.get (l ++ x :: r) j.
Proof.
  intros Hj. rewrite !get_nonneg by lia.
  now rewrite !nth_error_app1 by lia.
Qed.

Lemma get_behind {A : Type} (l r : list A) x j :
  Z.of_nat (List.length l) < j ->
  Immutable.get (l ++ r) (j - 1) = Immutable.get (l ++ x :: r) j.
Proof.
  intros Hj. rewrite !get_nonneg by lia.
  rewrite !nth_error_app2 by lia.
  replace (Z.to_nat j - List.length l)%nat
    with (S (Z.to_nat (j - 1) - List.length l)) by lia.
  reflexivity.
Qed.

Lemma get_beside {A : Type} (l r : list A) x x' j :
  0 <= j -> j <> Z.of_nat (List.length l) ->
  Immutable.get (l ++ x' :: r) j = Immutable.get (l ++ x :: r) j.
Proof.
  intros Hj Hne. rewrite !get_nonneg by lia.
  destruct (Z_lt_ge_dec j (Z.of_nat (List.length l))).
  - now rewrite !nth_error_app1 by lia.
  - rewrite !nth_error_app2 by lia.
    destruct (Z.to_nat j - List.length l)%nat eqn:E; [lia|reflexivity].
Qed.

Lemma isPrefix_same_length (p q : Path) :
  Immutable.isPrefix Z.eqb p q = true ->
  List.length p = List.length q -> q = p.
Proof.
  revert q. induction p as [|i p IH]; intros [|j q]; simpl; try discriminate;
    [reflexivity|].
  intros H Hlen. apply andb_true_iff in H as [H1 H2].
  apply Z.eqb_eq in H1. subst j. f_equal. apply IH; [assumption|lia].
Qed.

Lemma every_equal_cons i p j q :
  PathOps.every_equal (i :: p) (j :: q)
  = (i =? j) && PathOps.every_equal p q.
Proof. reflexivity. Qed.

Lemma length_cons_eqb (i : Z) p (j : Z) q :
  (PathOps.length (i :: p) =? PathOps.length (j :: q))
  = (PathOps.length p =? PathOps.length q).
Proof.
  unfold PathOps.length, Immutable.size. simpl List.length.
  destruct (Z.eqb_spec (Z.of_nat (List.length p)) (Z.of_nat (List.length q)));
    [apply Z.eqb_eq|apply Z.eqb_neq]; lia.
Qed.

Lemma assertPath_cons c k ty v d ns j q :
  assertPath (Branch c k ty v d ns) (j :: q)
  = match Immutable.get ns j with
    | Some child => assertPath child q
    | None => None
    end.
Proof. reflexivity. Qed.

(** Where [move_node] finds its target once the node is taken out of its
    parent: at the node that keeps the key of the target. *)
Lemma target_after_removal c k ty v d l node r document pp document' :
  Tree.replaced (Branch c k ty v d (l ++ node :: r))
    (Branch c k ty v d (l ++ r)) document pp document' ->
  Forall (fun i => 0 <= i) pp ->
  forall q target,
    assertPath document q = Some target ->
    Forall (fun i => 0 <= i) q ->
    ~ In (key target) (getKeys node) ->
    exists q' target',
      assertPath document' q' = Some target'
      /\ key target' = key target
      /\ kind target' = kind target
      /\ (if PathOps.every_equal pp q
             && (PathOps.length pp =? PathOps.length q)
          then Some (Branch c k ty v d (l ++ r))
          else if PathOps.every_equal pp q
                  && PathOps.lt (Some (Z.of_nat (List.length l)))
                       (nth_error q (List.length pp))
          then assertPath document' (PathOps.decrement q (List.length pp))
          else assertPath document' q) = Some target'.
Proof.
  induction 1 as [|c0 k0 ty0 v0 d0 l0 x r0 i p x' Hi Hx IH];
    intros Hpp q target Hq Hnn Hout.
  - (* the parent is the root *)
    destruct q as [|j q].
    + simpl in Hq. inversion Hq; subst target.
      exists [], (Branch c k ty v d (l ++ r)). now destruct c.
    + inversion Hnn as [|? ? Hj Hq']; subst.
      rewrite assertPath_cons in Hq.
      destruct (Immutable.get (l ++ node :: r) j) as [y|] eqn:G;
        [|discriminate].
      change (PathOps.every_equal [] (j :: q)) with true.
      change (PathOps.length [] =? PathOps.length (j :: q)) with false.
      change (nth_error (j :: q) (List.length (@nil Z))) with (Some j).
      change (PathOps.decrement (j :: q) (List.length (@nil Z)))
        with ((j - 1) :: q).
      unfold PathOps.lt. simpl andb. cbv iota.
      destruct (Z.ltb_spec (Z.of_nat (List.length l)) j) as [Hlt|Hge].
      * exists ((j - 1) :: q), target. rewrite assertPath_cons.
        rewrite (get_behind l r node j Hlt), G. auto.
      * assert (Hj' : j <> Z.of_nat (List.length l)).
        { intros ->. rewrite (get_pointsAt l node r _ (pointsAt_length _ _))
            in G. inversion G; subst y.
          apply Hout. eapply assertPath_keys; [eassumption|].
          apply key_in_getKeys. }
        exists (j :: q), target. rewrite assertPath_cons.
        rewrite (get_before l r node j), G by lia. auto.
  - inversion Hpp as [|? ? Hi0 Hpp']; subst.
    apply pointsAt_nonneg in Hi; [|assumption]. subst i.
    destruct q as [|j q].
    + simpl in Hq. inversion Hq; subst target.
      exists [], (Branch c0 k0 ty0 v0 d0 (l0 ++ x' :: r0)). now destruct c0.
    + inversion Hnn as [|? ? Hj Hq']; subst.
      rewrite assertPath_cons in Hq.
      rewrite every_equal_cons, length_cons_eqb.
      change (nth_error (j :: q)
                (List.length (Z.of_nat (List.length l0) :: p)))
        with (nth_error q (List.length p)).
      change (PathOps.decrement (j :: q)
                (List.length (Z.of_nat (List.length l0) :: p)))
        with (j :: PathOps.decrement q (List.length p)).
      destruct (Z.eqb_spec (Z.of_nat (List.length l0)) j) as [<-|Hne].
      * rewrite (get_pointsAt l0 x r0 _ (pointsAt_length _ _)) in Hq.
        destruct (IH Hpp' q target Hq Hq' Hout)
          as (q' & t' & Ht' & Hk & Hki & Hc).
        exists (Z.of_nat (List.length l0) :: q'), t'.
        rewrite !assertPath_cons.
        rewrite (get_pointsAt l0 x' r0 _ (pointsAt_length _ _)).
        split; [exact Ht'|]. split; [exact Hk|]. split; [exact Hki|].
        rewrite !andb_true_l. exact Hc.
      * rewrite !andb_false_l.
        exists (j :: q), target. rewrite assertPath_cons.
        rewrite (get_beside l0 r0 x x' j Hj) by congruence.
        auto.
Qed.
End MoveComposes.

(** [move_node] as a [remove_node] and an [insert_node] under the key of
    the new parent. *)
Lemma move_node_composes state path newParentPath index node target :
  Tree.wellFormed (State.document state) ->
  path <> [] ->
  Node.assertPath (State.document state) path = Some node ->
  Forall (fun i => 0 <= i) path ->
  Node.assertPath (State.document state) newParentPath = Some target ->
  Forall (fun i => 0 <= i) newParentPath ->
  ~ In (Node.key target) (Node.getKeys node) ->
  exists document' selection' newParentPath' target',
    APPLIERS.remove_node state path
    = Some (State.make document' selection')
    /\ Tree.wellFormed document'
    /\ Node.getPath document' (Node.key target) = Some newParentPath'
    /\ Node.assertPath document' newParentPath' = Some target'
    /\ Node.key target' = Node.key target
    /\ Node.kind target' = Node.kind target
    /\ APPLIERS.move_node state path (newParentPath ++ [index])
       = option_map
           (fun inserted =>
              State.make (State.document inserted) (State.selection state))
           (APPLIERS.insert_node (State.make document' selection')
              (newParentPath' ++ [index]) node).
Proof.
  intros WF Hne Hnode Hnn Hq Hqnn Hout. rename newParentPath into q.
  destruct (assertPath_parent _ _ _ Hnode Hne)
    as (pp & i & c & k & ty & v & d & l & r & -> & Hpp & Hi).
  apply Forall_app in Hnn as [Hppnn Hinn]. inversion Hinn as [|? ? Hi0 _]; subst.
  apply pointsAt_nonneg in Hi; [|assumption]. subst i.
  pose proof WF as (_ & U & _).
  destruct (remove_node_document state pp (Z.of_nat (List.length l))
              c k ty v d l node r U Hpp (pointsAt_length _ _))
    as (doc1 & selection' & Hr1 & Hremove & _).
  destruct (remove_keeps_wellFormed _ _ _ _ _ _ _ _ _ _ _ WF Hr1)
    as (WF1 & _).
  pose proof WF1 as (_ & U1 & _).
  destruct (target_after_removal _ _ _ _ _ _ _ _ _ _ _ Hr1 Hppnn q target
              Hq Hqnn Hout) as (q' & T1 & Ht1 & Hkey & Hkind & Hcode).
  destruct (getPath_unique _ _ _ U1 Ht1) as (path' & Hpath' & Ht1').
  rewrite Hkey in Hpath'.
  exists doc1, selection', path', T1.
  split; [exact Hremove|]. split; [exact WF1|]. split; [exact Hpath'|].
  split; [exact Ht1'|]. split; [exact Hkey|]. split; [exact Hkind|].
  (* the move *)
  unfold APPLIERS.move_node, PathOps.last, PathOps.init.
  rewrite !last_snoc, !removelast_last, Hnode.
  rewrite (getParent_path _ _ _ _ U Hnode), Hpp.
  unfold Node.removeNode. simpl Node.nodes. cbv iota beta.
  rewrite splice_remove_mid. simpl Node.set_nodes.
  rewrite (write_back _ _ _ _ _ WF Hr1 eq_refl eq_refl).
  unfold PathOps.init in Hcode. rewrite Hcode.
  (* the insertion *)
  unfold APPLIERS.insert_node, PathOps.last, PathOps.init.
  rewrite last_snoc, removelast_last. simpl State.document. rewrite Ht1'.
  destruct (Node.insertNode T1 (Some index) node) as [T1'|] eqn:Hinsert;
    [|reflexivity].
  destruct (insertNode_spec _ _ _ _ Hinsert)
    as (c' & k' & ty' & v' & d' & l' & r' & -> & ->).
  destruct (assertPath_replaced (Node.Branch c' k' ty' v' d' (l' ++ r'))
              (Node.Branch c' k' ty' v' d' (l' ++ node :: r')) _ _ Ht1)
    as (doc2 & Hr2).
  rewrite (write_back _ _ _ _ _ WF1 Hr2 eq_refl eq_refl).
  destruct (replaced_by_key _ _ _ _ _ Hr2 path' _ U1 Ht1' eq_refl)
    as [_ Hr2'].
  rewrite (write_back_isParent _ _ _ _ _ U1 Hr2' eq_refl).
  reflexivity.
Qed.

(** X24. Moving a node is taking it out and putting it in under the
    key of the new parent.  For a node and a new parent that are given
    by the paths that [getPath] finds for them, the new parent not lying
    inside the node, [move_node] gives the document that [remove_node]
    at the old path followed by [insert_node] gives, when the insertion
    goes to the path that the new parent has after the removal; the
    selection is the one from before.  So the three ways in which
    [move_node] adjusts the new path for the removal all arrive at the
    node with the key of the new parent. *)
Theorem move_node_is_remove_then_insert :
  forall state path newParentPath index node target,
    Tree.wellFormed (State.document state) ->
    path <> [] ->
    Node.assertPath (State.document state) path = Some node ->
    Forall (fun i => 0 <= i) path ->
    Node.assertPath (State.document state) newParentPath = Some target ->
    Forall (fun i => 0 <= i) newParentPath ->
    ~ In (Node.key target) (Node.getKeys node) ->
    exists removed newParentPath',
      APPLIERS.remove_node state path = Some removed
      /\ Node.getPath (State.document removed) (Node.key target)
         = Some newParentPath'
      /\ APPLIERS.move_node state path (newParentPath ++ [index])
         = option_map
             (fun inserted =>
                State.make (State.document inserted) (State.selection state))
             (APPLIERS.insert_node removed (newParentPath' ++ [index]) node).
Proof.
  intros state path q index node target WF Hne Hnode Hnn Hq Hqnn Hout.
  destruct (move_node_composes state path q index node target WF Hne Hnode
              Hnn Hq Hqnn Hout)
    as (doc1 & selection' & path' & T1 & Hremove & _ & Hpath' & _ & _ & _
        & Hmove).
  exists (State.make doc1 selection'), path'. auto.
Qed.

(** X25. [moveNodeByKey] puts the node under the container with the new
    key, which must not lie inside the node: afterwards that container
    is the parent of the node, and it holds the node at [index] among
    the children it is left with once the node is taken out of the
    document (behind all of them when [index] is their number or more).
    One [move_node] is applied, the document stays well-formed and the
    selection is as it was; with normalization on, the common ancestor
    that the document had for the two keys is normalized afterwards. *)
Theorem moveNodeByKey_moves_under_key :
  forall normalizer transform key newKey index options node target,
    let document := State.document (Transforms.state transform) in
    Tree.wellFormed document ->
    Node.getNode document key = Some node ->
    key <> Node.key document ->
    Node.getNode document newKey = Some target ->
    Node.kind target <> Kind.text ->
    ~ In newKey (Node.getKeys node) ->
    0 <= index ->
    exists moved path newPath removed c ty v d ns,
      APPLIERS.remove_node (Transforms.state transform) path = Some removed
      /\ Node.getNode (State.document removed) newKey
         = Some (Node.Branch c newKey ty v d ns)
      /\ (let place := Z.min index (Immutable.size ns) in
          let parent :=
            Node.Branch c newKey ty v d
              (Immutable.take place ns ++ node :: Immutable.skip place ns) in
          Node.getNode (State.document (Transforms.state moved)) newKey
          = Some parent
          /\ Node.getParent (State.document (Transforms.state moved)) key
             = Some parent)
      /\ Tree.wellFormed (State.document (Transforms.state moved))
      /\ State.selection (Transforms.state moved)
         = State.selection (Transforms.state transform)
      /\ Transforms.trace moved
         = Transforms.trace transform
           ++ [Transforms.Applied (Operation.move_node path newPath)]
      /\ Transforms.moveNodeByKey normalizer transform key newKey index
           options
         = if Transforms.normalize_of options then
             let? parent := Node.getCommonAncestor document key newKey in
             Transforms.normalizeNodeByKey normalizer moved (Node.key parent)
           else Some moved.
Proof.
  intros normalizer transform key newKey index options node target document
    WF Hnode Hroot Htarget Hkind Hout Hindex. subst document.
  destruct (getNode_getPath _ _ _ Hnode) as (path & Hgp & Hpath).
  destruct (getNode_getPath _ _ _ Htarget) as (q & Hgq & Hq).
  pose proof (getNode_key _ _ _ Hnode) as Hk.
  pose proof (getNode_key _ _ _ Htarget) as Hkt.
  assert (Hne : path <> []).
  { intros ->. simpl in Hpath. inversion Hpath; subst node. congruence. }
  destruct (move_node_composes (Transforms.state transform) path q index
              node target WF Hne Hpath (getPath_nonneg _ _ _ Hgp) Hq
              (getPath_nonneg _ _ _ Hgq))
    as (doc1 & selection' & q1 & T1 & Hremove & WF1 & Hgq1 & Hq1 & Hk1
        & Hkind1 & Hmove).
  { now rewrite Hkt. }
  destruct T1 as [|c k1 ty v d ns]; [simpl in Hkind1; congruence|].
  simpl in Hk1. rewrite Hkt in Hk1. subst k1.
  pose proof WF1 as (_ & U1 & _).
  destruct (insert_node_effect (State.make doc1 selection') q1 c newKey ty v
              d ns index node U1 Hq1 Hindex)
    as (inserted & Hins & Hparent & Hchild & _).
  rewrite Hins in Hmove. simpl option_map in Hmove.
  destruct (move_node_invariant _ _ _ _ WF Hmove) as (WF2 & _ & _).
  simpl State.document in WF2. pose proof WF2 as (_ & U2 & _).
  exists (Transforms.make
            (State.make (State.document inserted)
               (State.selection (Transforms.state transform)))
            (Transforms.keys transform)
            (Transforms.trace transform
             ++ [Transforms.Applied
                   (Operation.move_node path (q ++ [index]))])).
  exists path, (q ++ [index]), (State.make doc1 selection'), c, ty, v, d, ns.
  split; [exact Hremove|]. simpl State.document.
  split; [exact (getNode_unique _ _ _ U1 Hq1)|].
  split; [|split; [exact WF2|split; [reflexivity|split; [reflexivity|]]]].
  - cbv zeta. split.
    + exact (getNode_unique _ _ _ U2 Hparent).
    + rewrite <- Hk, <- Hparent.
      exact (getParent_path _ _ _ _ U2 Hchild).
  - unfold Transforms.moveNodeByKey. rewrite Hgp, Hgq.
    unfold Transforms.applyOperation. simpl Apply.applyOperation.
    rewrite Hmove. reflexivity.
Qed.

(** * The further properties at sample documents *)

Section MoreSamples.
Local Open Scope string_scope.

Local Ltac absent :=
  let H := fresh in intros H; simpl in H; intuition discriminate.

Lemma insert_node_places_node_witness :
  exists state',
    APPLIERS.insert_node Examples.single ([0] ++ [1])%list
      (Examples.text "N" "x") = Some state'
    /\ Node.assertPath (State.document state') [0]
       = Some (Examples.block "p"
                 [Examples.text "T" "abcdefgh"; Examples.text "N" "x"]).
Proof.
  destruct (insert_node_places_node Examples.single [0] Node.Block "p"
              "paragraph" false [] [Examples.text "T" "abcdefgh"] 1
              (Examples.text "N" "x"))
    as (state' & Hinsert & Hparent & _).
  - apply distinct_NoDup. reflexivity.
  - reflexivity.
  - lia.
  - intros key [<-|[]]. absent.
  - exists state'. split; [exact Hinsert|exact Hparent].
Defined.

Lemma insert_node_then_remove_node_witness :
  APPLIERS.remove_node
    (State.make
       (Examples.document
          [Examples.block "p"
             [Examples.text "T" "abcdefgh"; Examples.text "N" "x"]])
       (Examples.forward "T" 5 "T" 5))
    ([0] ++ [1])%list
  = Some Examples.single.
Proof.
  apply (insert_node_then_remove_node Examples.single [0] Node.Block "p"
           "paragraph" false [] [Examples.text "T" "abcdefgh"] 1
           (Examples.text "N" "x")).
  - apply distinct_NoDup. reflexivity.
  - reflexivity.
  - unfold Immutable.size. simpl. lia.
  - apply distinct_NoDup. reflexivity.
  - intros key [<-|[]]. repeat split; try discriminate.
    absent.
  - reflexivity.
Defined.

Lemma remove_node_removes_subtree_witness :
  exists state',
    APPLIERS.remove_node Examples.twoBlocks [1] = Some state'
    /\ Node.getNode (State.document state') "t2" = None.
Proof.
  destruct (remove_node_removes_subtree Examples.twoBlocks [1]
              (Examples.block "q" [Examples.text "t2" "defg"]))
    as (state' & Hremove & _ & _ & Hgone & _).
  - apply wellFormedb_sound. vm_compute. reflexivity.
  - discriminate.
  - reflexivity.
  - exists state'. split; [exact Hremove|].
    apply Hgone. simpl. auto.
Defined.

Lemma structural_appliers_fail_at_root_witness :
  APPLIERS.remove_node Examples.abc [] = None
  /\ APPLIERS.move_node Examples.abc [] [0] = None
  /\ APPLIERS.split_node 100%nat Examples.abc [] 0 = None
  /\ APPLIERS.join_node Examples.abc [] = None.
Proof.
  apply (structural_appliers_fail_at_root 100%nat Examples.abc [0] 0).
  apply distinct_NoDup. reflexivity.
Defined.

Lemma insert_text_then_remove_text_witness :
  APPLIERS.remove_text
    (State.make
       (Examples.document [Examples.block "p" [Examples.text "T" "abcxydefgh"]])
       (Examples.forward "T" 7 "T" 7))
    [0; 0] 3 "xy"
  = Some Examples.single.
Proof.
  apply (insert_text_then_remove_text Examples.single [0; 0] 3 "xy" None "T"
           (Examples.plain "abcdefgh")).
  - apply distinct_NoDup. reflexivity.
  - reflexivity.
  - simpl. lia.
  - reflexivity.
  - reflexivity.
Defined.

Lemma join_node_merges_siblings_witness :
  exists state',
    APPLIERS.join_node Examples.siblings ([0] ++ [Z.of_nat 0 + 1])%list
    = Some state'
    /\ Node.assertPath (State.document state') [0]
       = Some (Examples.block "p" [Examples.text "t1" "abcdefg"]).
Proof.
  destruct (join_node_merges_siblings Examples.siblings [0] Node.Block "p"
              "paragraph" false [] [] (Examples.text "t1" "abc")
              (Examples.text "t2" "defg") [] (Examples.text "t1" "abcdefg"))
    as (state' & Hjoin & Hparent & _).
  - apply distinct_NoDup. reflexivity.
  - reflexivity.
  - left. exists "t1", (Examples.plain "abc"), "t2", (Examples.plain "defg").
    repeat split.
  - exists state'. split; [exact Hjoin|exact Hparent].
Defined.

Lemma split_node_then_join_node_witness :
  exists joined,
    APPLIERS.join_node
      (State.make
         (Examples.document
            [Examples.block "p"
               [Examples.text "T" "abc"; Examples.text "100" "defgh"]])
         (Selection.make (Some "100") 2 (Some "100") 2 (Some false) true))
      ([0] ++ [0 + 1])%list
    = Some joined
    /\ State.document joined = State.document Examples.single
    /\ Selection.anchor (State.selection joined) = (Some "T", 5)
    /\ Selection.focus (State.selection joined) = (Some "T", 5).
Proof.
  destruct (split_node_then_join_node 100%nat Examples.single [0] 0 3
              (Examples.text "T" "abcdefgh")
              (State.make
                 (Examples.document
                    [Examples.block "p"
                       [Examples.text "T" "abc";
                        Examples.text "100" "defgh"]])
                 (Selection.make (Some "100") 2 (Some "100") 2 (Some false)
                    true))
              101%nat)
    as (joined & Hjoin & Hdoc & Ha & Hf & _).
  - apply wellFormedb_sound. vm_compute. reflexivity.
  - lia.
  - reflexivity.
  - reflexivity.
  - intros _. vm_compute. split; discriminate.
  - reflexivity.
  - absent.
  - discriminate.
  - discriminate.
  - reflexivity.
  - exists joined. split; [exact Hjoin|]. split; [exact Hdoc|].
    split; [exact Ha|exact Hf].
Defined.

Lemma split_node_keeps_document_well_formed_witness :
  exists state',
    APPLIERS.split_node 100%nat Examples.single [0; 0] 3
    = Some (state', 101%nat)
    /\ Tree.wellFormed (State.document state')
    /\ Node.text (State.document state') = "abcdefgh".
Proof.
  destruct (split_node_keeps_document_well_formed 100%nat Examples.single
              [0; 0] 3 (Examples.text "T" "abcdefgh"))
    as (state' & Hsplit & WF & _ & Htext).
  - apply wellFormedb_sound. vm_compute. reflexivity.
  - discriminate.
  - reflexivity.
  - reflexivity.
  - absent.
  - exists state'. split; [exact Hsplit|]. split; [exact WF|exact Htext].
Defined.

Lemma move_node_keeps_keys_witness :
  Tree.wellFormed
    (Examples.document [Examples.B; Examples.C; Examples.A])
  /\ Permutation
       (Node.getKeys (Examples.document [Examples.B; Examples.C; Examples.A]))
       (Node.getKeys (State.document Examples.abc)).
Proof.
  destruct (move_node_keeps_keys Examples.abc [0] [2]
              (State.make
                 (Examples.document [Examples.B; Examples.C; Examples.A])
                 (State.selection Examples.abc)))
    as (WF & Hperm & _).
  - apply wellFormedb_sound. vm_compute. reflexivity.
  - reflexivity.
  - split; [exact WF|exact Hperm].
Defined.

Lemma unwrapNodeByKey_first_child_witness :
  exists moved,
    Transforms.unwrapNodeByKey Examples.identity
      (Transforms.make Examples.twoTexts 100%nat []) "t1"
      (Transforms.options (Some false)) = Some moved
    /\ State.document (Transforms.state moved)
       = Examples.document
           [Examples.text "t1" "abc";
            Examples.block "b" [Examples.text "t2" "de"]].
Proof.
  destruct (unwrapNodeByKey_first_child Examples.identity
              (Transforms.make Examples.twoTexts 100%nat []) []
              Node.Document "doc" "" false [] [] []
              Node.Block "b" "paragraph" false []
              (Examples.text "t1" "abc") [Examples.text "t2" "de"]
              (Transforms.options (Some false)))
    as (moved & path & newPath & Hdoc & _ & _ & _ & _ & Hunwrap).
  - apply wellFormedb_sound. vm_compute. reflexivity.
  - reflexivity.
  - discriminate.
  - exists moved. split; [exact Hunwrap|].
    simpl in Hdoc. now inversion Hdoc.
Defined.

Lemma unwrapNodeByKey_last_child_witness :
  exists moved,
    Transforms.unwrapNodeByKey Examples.identity
      (Transforms.make Examples.twoTexts 100%nat []) "t2"
      (Transforms.options (Some false)) = Some moved
    /\ State.document (Transforms.state moved)
       = Examples.document
           [Examples.block "b" [Examples.text "t1" "abc"];
            Examples.text "t2" "de"].
Proof.
  destruct (unwrapNodeByKey_last_child Examples.identity
              (Transforms.make Examples.twoTexts 100%nat []) []
              Node.Document "doc" "" false [] [] []
              Node.Block "b" "paragraph" false []
              [Examples.text "t1" "abc"] (Examples.text "t2" "de")
              (Transforms.options (Some false)))
    as (moved & path & newPath & Hdoc & _ & _ & _ & _ & Hunwrap).
  - apply wellFormedb_sound. vm_compute. reflexivity.
  - reflexivity.
  - discriminate.
  - exists moved. split; [exact Hunwrap|].
    simpl in Hdoc. now inversion Hdoc.
Defined.

Lemma unwrapNodeByKey_only_child_witness :
  exists unwrapped,
    Transforms.unwrapNodeByKey Examples.identity
      (Transforms.make Examples.nested 100%nat []) "t2"
      (Transforms.options (Some false)) = Some unwrapped
    /\ Node.assertPath (State.document (Transforms.state unwrapped)) [0]
       = Some (Examples.block "b"
                 [Examples.text "t1" "hello"; Examples.text "t2" "world";
                  Examples.text "t3" "!"])
    /\ Node.getNode (State.document (Transforms.state unwrapped)) "i" = None.
Proof.
  destruct (unwrapNodeByKey_only_child Examples.identity
              (Transforms.make Examples.nested 100%nat []) [0]
              Node.Block "b" "paragraph" false []
              [Examples.text "t1" "hello"] [Examples.text "t3" "!"]
              Node.Inline "i" "link" false []
              (Examples.text "t2" "world")
              (Transforms.options (Some false)))
    as (unwrapped & path & newPath & parentPath & Hdoc & _ & _ & Hgone & _
        & _ & Hunwrap).
  - apply wellFormedb_sound. vm_compute. reflexivity.
  - reflexivity.
  - exists unwrapped. split; [exact Hunwrap|]. split; [exact Hdoc|exact Hgone].
Defined.

Lemma unwrapNodeByKey_middle_child_witness :
  exists unwrapped,
    Transforms.unwrapNodeByKey Examples.identity
      (Transforms.make Examples.nested 100%nat []) "i"
      (Transforms.options (Some false)) = Some unwrapped
    /\ Node.assertPath (State.document (Transforms.state unwrapped)) []
       = Some (Examples.document
                 [Examples.block "b" [Examples.text "t1" "hello"];
                  Examples.inline "i" [Examples.text "t2" "world"];
                  Examples.block "100" [Examples.text "t3" "!"]]).
Proof.
  destruct (unwrapNodeByKey_middle_child Examples.identity
              (Transforms.make Examples.nested 100%nat []) []
              Node.Document "doc" "" false [] [] []
              Node.Block "b" "paragraph" false []
              [Examples.text "t1" "hello"]
              (Examples.inline "i" [Examples.text "t2" "world"])
              [Examples.text "t3" "!"]
              (Transforms.options (Some false)))
    as (unwrapped & parentPath & path & newPath & Hdoc & _ & _ & _ & _ & _
        & Hunwrap).
  - apply wellFormedb_sound. vm_compute. reflexivity.
  - reflexivity.
  - discriminate.
  - discriminate.
  - absent.
  - discriminate.
  - discriminate.
  - exists unwrapped. split; [exact Hunwrap|exact Hdoc].
Defined.

Lemma by_key_transforms_fail_on_missing_key_witness :
  Transforms.removeNodeByKey Examples.identity
    (Transforms.make Examples.single 100%nat []) "gone"
    (Transforms.options None) = None
  /\ Transforms.unwrapNodeByKey Examples.identity
       (Transforms.make Examples.single 100%nat []) "gone"
       (Transforms.options None) = None.
Proof.
  destruct (by_key_transforms_fail_on_missing_key Examples.identity
              (Transforms.make Examples.single 100%nat []) "gone" "T" 0 0 0 0
              "" None (Node.Properties.make None None None None None)
              (Transforms.options None))
    as (_ & _ & _ & _ & Hremove & _ & _ & _ & _ & Hunwrap).
  - absent.
  - split; [exact Hremove|exact Hunwrap].
Defined.

Lemma removeNodeByKey_removes_node_witness :
  exists removed,
    Transforms.removeNodeByKey Examples.identity
      (Transforms.make Examples.nested 100%nat []) "i"
      (Transforms.options None)
    = Transforms.normalizeNodeByKey Examples.identity removed "b"
    /\ Node.assertPath (State.document (Transforms.state removed)) [0]
       = Some (Examples.block "b"
                 [Examples.text "t1" "hello"; Examples.text "t3" "!"])
    /\ Node.getNode (State.document (Transforms.state removed)) "t2" = None.
Proof.
  destruct (removeNodeByKey_removes_node Examples.identity
              (Transforms.make Examples.nested 100%nat []) [0]
              Node.Block "b" "paragraph" false []
              [Examples.text "t1" "hello"]
              (Examples.inline "i" [Examples.text "t2" "world"])
              [Examples.text "t3" "!"] (Transforms.options None))
    as (removed & path & _ & _ & Hdoc & Hgone & _ & Hremove).
  - apply wellFormedb_sound. vm_compute. reflexivity.
  - reflexivity.
  - exists removed. split; [exact Hremove|]. split; [exact Hdoc|].
    apply Hgone. simpl. auto.
Defined.

Lemma joinNodeByKey_fails_on_first_child_witness :
  Transforms.joinNodeByKey Examples.identity
    (Transforms.make Examples.siblings 100%nat []) "t1"
    (Transforms.options None) = None.
Proof.
  apply (joinNodeByKey_fails_on_first_child Examples.identity
           (Transforms.make Examples.siblings 100%nat []) [0]
           Node.Block "p" "paragraph" false []
           (Examples.text "t1" "abc") [Examples.text "t2" "defg"]).
  - apply distinct_NoDup. reflexivity.
  - reflexivity.
Defined.

Lemma joinNodeByKey_merges_with_previous_witness :
  exists joined,
    Transforms.joinNodeByKey Examples.identity
      (Transforms.make Examples.siblings 100%nat []) "t2"
      (Transforms.options (Some false)) = Some joined
    /\ Node.assertPath (State.document (Transforms.state joined)) [0]
       = Some (Examples.block "p" [Examples.text "t1" "abcdefg"]).
Proof.
  destruct (joinNodeByKey_merges_with_previous Examples.identity
              (Transforms.make Examples.siblings 100%nat []) [0]
              Node.Block "p" "paragraph" false [] []
              (Examples.text "t1" "abc") (Examples.text "t2" "defg") []
              (Examples.text "t1" "abcdefg")
              (Transforms.options (Some false)))
    as (joined & path & _ & _ & Hdoc & Hjoin).
  - apply distinct_NoDup. reflexivity.
  - reflexivity.
  - left. exists "t1", (Examples.plain "abc"), "t2", (Examples.plain "defg").
    repeat split.
  - exists joined. split; [exact Hjoin|exact Hdoc].
Defined.

Lemma insert_text_inserts_characters_witness :
  exists state',
    APPLIERS.insert_text Examples.single [0; 0] 3 "xy" None = Some state'
    /\ Node.assertPath (State.document state') [0; 0]
       = Some (Examples.text "T" "abcxydefgh").
Proof.
  destruct (insert_text_inserts_characters Examples.single [0; 0] 3 "xy" None
              "T" (Examples.plain "abcdefgh"))
    as (state' & Hinsert & Hnode & _).
  - apply wellFormedb_sound. vm_compute. reflexivity.
  - reflexivity.
  - simpl. lia.
  - exists state'. split; [exact Hinsert|exact Hnode].
Defined.

Lemma remove_text_removes_characters_witness :
  exists state',
    APPLIERS.remove_text Examples.single [0; 0] 3 "zz" = Some state'
    /\ Node.assertPath (State.document state') [0; 0]
       = Some (Examples.text "T" "abcfgh").
Proof.
  destruct (remove_text_removes_characters Examples.single [0; 0] 3 "zz"
              "T" (Examples.plain "abcdefgh"))
    as (state' & Hremove & Hnode & _).
  - apply wellFormedb_sound. vm_compute. reflexivity.
  - reflexivity.
  - lia.
  - exists state'. split; [exact Hremove|exact Hnode].
Defined.

Lemma set_node_twice_witness :
  exists warnings,
    APPLIERS.set_node
      (State.make
         (Examples.document
            [Node.Branch Node.Block "p" "quote" false []
               [Examples.text "T" "abcdefgh"]])
         (Examples.forward "T" 5 "T" 5))
      [0] (Node.Properties.make None None (Some "quote") None None)
    = Some
        (State.make
           (Examples.document
              [Node.Branch Node.Block "p" "quote" false []
                 [Examples.text "T" "abcdefgh"]])
           (Examples.forward "T" 5 "T" 5), warnings).
Proof.
  apply (set_node_twice Examples.single [0]
           (Node.Properties.make None None (Some "quote") None None)
           (Examples.block "p" [Examples.text "T" "abcdefgh"]) _ []).
  - apply wellFormedb_sound. vm_compute. reflexivity.
  - reflexivity.
  - discriminate.
  - reflexivity.
Defined.

Lemma setNodeByKey_sets_properties_witness :
  exists set,
    Transforms.setNodeByKey Examples.identity
      (Transforms.make Examples.single 100%nat []) "p"
      (Node.Properties.make None None (Some "quote") None None)
      (Transforms.options None)
    = Transforms.normalizeNodeByKey Examples.identity set "p"
    /\ Node.getNode (State.document (Transforms.state set)) "p"
       = Some (Node.Branch Node.Block "p" "quote" false []
                 [Examples.text "T" "abcdefgh"]).
Proof.
  destruct (setNodeByKey_sets_properties Examples.identity
              (Transforms.make Examples.single 100%nat []) "p"
              (Node.Properties.make None None (Some "quote") None None)
              (Transforms.options None)
              Node.Block "paragraph" false []
              [Examples.text "T" "abcdefgh"])
    as (set & path & _ & _ & Hnode & _ & Hset).
  - apply wellFormedb_sound. vm_compute. reflexivity.
  - reflexivity.
  - discriminate.
  - discriminate.
  - exists set. split; [exact Hset|exact Hnode].
Defined.

Lemma setNodeByKey_fails_on_text_witness :
  Transforms.setNodeByKey Examples.identity
    (Transforms.make Examples.single 100%nat []) "T"
    (Node.Properties.make None None (Some "quote") None None)
    (Transforms.options None) = None.
Proof.
  apply (setNodeByKey_fails_on_text Examples.identity
           (Transforms.make Examples.single 100%nat []) "T"
           (Node.Properties.make None None (Some "quote") None None)
           (Transforms.options None) (Examples.plain "abcdefgh")).
  - apply wellFormedb_sound. vm_compute. reflexivity.
  - reflexivity.
  - discriminate.
  - left. discriminate.
Defined.

Lemma insertTextByKey_inserts_characters_witness :
  exists changed,
    Transforms.insertTextByKey Examples.identity
      (Transforms.make Examples.single 100%nat []) "T" 3 "xy" None
      (Transforms.options (Some false)) = Some changed
    /\ Node.getNode (State.document (Transforms.state changed)) "T"
       = Some (Examples.text "T" "abcxydefgh").
Proof.
  destruct (insertTextByKey_inserts_characters Examples.identity
              (Transforms.make Examples.single 100%nat []) "T" 3 "xy" None
              (Transforms.options (Some false)) (Examples.plain "abcdefgh"))
    as (changed & path & parent & _ & _ & _ & Hnode & Hinsert).
  - apply wellFormedb_sound. vm_compute. reflexivity.
  - reflexivity.
  - simpl. lia.
  - exists changed. split; [exact Hinsert|exact Hnode].
Defined.

Lemma remove_node_relocates_endpoints_witness :
  exists state',
    APPLIERS.remove_node Examples.twoTexts [0] = Some state'
    /\ Selection.anchor (State.selection state') = (Some "t2", 0)
    /\ Selection.focus (State.selection state') = (Some "t1", 3).
Proof.
  destruct (remove_node_relocates_endpoints Examples.twoTexts [0]
              (Examples.block "b"
                 [Examples.text "t1" "abc"; Examples.text "t2" "de"]))
    as (state' & Hremove & Hpoints).
  - apply wellFormedb_sound. vm_compute. reflexivity.
  - discriminate.
  - reflexivity.
  - reflexivity.
  - intros k [H|H]; inversion H; subst; simpl; auto.
  - reflexivity.
  - simpl. lia.
  - intros k prev Hk Hprev. inversion Hk; subst k. discriminate Hprev.
  - exists state'. split; [exact Hremove|]. split.
    + destruct (Hpoints Selection.anchor (or_introl eq_refl)) as (k & Hk & H).
      inversion Hk; subst k. exact H.
    + destruct (Hpoints Selection.focus (or_intror eq_refl)) as (k & Hk & H).
      inversion Hk; subst k. exact H.
Defined.

Lemma move_node_is_remove_then_insert_witness :
  exists removed,
    APPLIERS.remove_node Examples.abc [0] = Some removed
    /\ APPLIERS.move_node Examples.abc [0] ([1] ++ [0])%list
       = option_map
           (fun inserted =>
              State.make (State.document inserted)
                (State.selection Examples.abc))
           (APPLIERS.insert_node removed ([0] ++ [0])%list Examples.A).
Proof.
  destruct (move_node_is_remove_then_insert Examples.abc [0] [1] 0
              Examples.A Examples.B)
    as (removed & path' & Hremove & Hpath' & Hmove).
  - apply wellFormedb_sound. vm_compute. reflexivity.
  - discriminate.
  - reflexivity.
  - repeat constructor; lia.
  - reflexivity.
  - repeat constructor; lia.
  - absent.
  - exists removed. split; [exact Hremove|].
    assert (E : path' = [0]).
    { vm_compute in Hremove. inversion Hremove; subst removed.
      vm_compute in Hpath'. now inversion Hpath'. }
    subst path'. exact Hmove.
Defined.

Lemma moveNodeByKey_moves_under_key_witness :
  exists moved parent,
    Transforms.moveNodeByKey Examples.identity
      (Transforms.make Examples.abc 100%nat []) "A" "B" 0
      (Transforms.options (Some false)) = Some moved
    /\ Node.getParent (State.document (Transforms.state moved)) "A"
       = Some parent
    /\ Node.key parent = "B"
    /\ Tree.wellFormed (State.document (Transforms.state moved)).
Proof.
  destruct (moveNodeByKey_moves_under_key Examples.identity
              (Transforms.make Examples.abc 100%nat []) "A" "B" 0
              (Transforms.options (Some false)) Examples.A Examples.B)
    as (moved & path & newPath & removed & c & ty & v & d & ns & _
        & _ & (_ & Hparent) & WF & _ & _ & Hmove).
  - apply wellFormedb_sound. vm_compute. reflexivity.
  - reflexivity.
  - discriminate.
  - reflexivity.
  - discriminate.
  - absent.
  - lia.
  - exists moved. eexists. split; [exact Hmove|].
    split; [exact Hparent|]. split; [reflexivity|exact WF].
Defined.

End MoreSamples.
